(** * update_imports: relative import specifiers made explicit

    A shallow embedding of [scripts/esm_migration/update_imports.py] and
    the properties its specification states about it.

    Scope of the model.
    - Python [str] values are lists of characters; a character is a code
      point below 256, so [\s] is the class of [str.isspace] restricted
      to that range.
    - A [pathlib.Path] is an absolute POSIX path, kept as the list of its
      parts below the root.
    - The file system is a tree of directories and regular files, without
      symbolic links, so [Path.resolve] is the lexical normalisation that
      [os.path.realpath] performs on such a tree, after it has raised
      [ValueError] for a part that holds a NUL character.  Failures of
      the operating system (a name too long for [Path.exists], a
      permission denied) and files that are not UTF-8 are outside the
      model: where it speaks of an exception, it speaks of the four
      below.
    - [PurePath.suffix] is the one of Python 3.10 to 3.13 (a trailing dot
      is not a suffix). *)

From Stdlib Require Import Ascii String.
From Stdlib Require Import List Bool Arith Lia.
Import ListNotations.

Set Warnings "-register-all".

Local Open Scope list_scope.
Local Open Scope bool_scope.

(** ** Text *)

Abbreviation text := (list ascii) (only parsing).

(** A string literal as a [text]. *)
Definition txt (s : string) : text := list_ascii_of_string s.

Definition text_eqb (a b : text) : bool :=
  if list_eq_dec ascii_dec a b then true else false.

(** [s.startswith(p)], returning what follows [p]. *)
Fixpoint strip_prefix (p s : text) : option text :=
  match p with
  | [] => Some s
  | a :: p' =>
      match s with
      | [] => None
      | c :: s' => if Ascii.eqb a c then strip_prefix p' s' else None
      end
  end.

Definition startswith (s p : text) : bool :=
  match strip_prefix p s with Some _ => true | None => false end.

(** [s.endswith(p)] *)
Definition endswith (s p : text) : bool := startswith (rev s) (rev p).

(** [c in s] for a one-character [c] *)
Definition contains (c : ascii) (s : text) : bool := existsb (Ascii.eqb c) s.

(** [s.split(sep)] for a one-character separator: never empty. *)
Fixpoint split (sep : ascii) (s : text) : list text :=
  match s with
  | [] => [[]]
  | c :: t =>
      if Ascii.eqb c sep then [] :: split sep t
      else match split sep t with
           | [] => [[c]]
           | h :: r => (c :: h) :: r
           end
  end.

Fixpoint dropwhile (p : ascii -> bool) (s : text) : text :=
  match s with
  | [] => []
  | c :: t => if p c then dropwhile p t else s
  end.

Fixpoint takewhile (p : ascii -> bool) (s : text) : text :=
  match s with
  | [] => []
  | c :: t => if p c then c :: takewhile p t else []
  end.

(** [s.rstrip(c)] for a one-character [c] *)
Definition rstrip (c : ascii) (s : text) : text :=
  rev (dropwhile (Ascii.eqb c) (rev s)).

(** [s.rfind(c)]: [None] stands for -1. *)
Fixpoint rfind (c : ascii) (s : text) : option nat :=
  match s with
  | [] => None
  | x :: t =>
      match rfind c t with
      | Some i => Some (S i)
      | None => if Ascii.eqb x c then Some 0 else None
      end
  end.

(** ** Exceptions *)

Inductive exn : Type :=
| ValueError
| FileNotFoundError
| IsADirectoryError
| NotADirectoryError.

Inductive result (A : Type) : Type :=
| Ok (a : A)
| Raise (e : exn).

Arguments Ok {A} a.
Arguments Raise {A} e.

Definition bind {A B : Type} (m : result A) (f : A -> result B) : result B :=
  match m with
  | Ok a => f a
  | Raise e => Raise e
  end.

Notation "x <- m ;; k" := (bind m (fun x => k))
  (at level 61, m at next level, right associativity).

(** ** Paths *)

(** The parts of an absolute path, below the root. *)
Abbreviation path := (list (list ascii)) (only parsing).

(** [Path.parent]; the root is its own parent. *)
Definition parent (p : path) : path := removelast p.

(** [Path.name]; empty for the root. *)
Definition name (p : path) : text := last p [].

(** The parts pathlib keeps of a string: empty parts and [.] go. *)
Definition kept_part (x : text) : bool :=
  negb (text_eqb x []) && negb (text_eqb x (txt ".")).

Definition parse_parts (s : text) : list text :=
  filter kept_part (split "/" s).

(** [base / s]: an absolute [s] replaces [base]. *)
Definition joinpath (base : path) (s : text) : path :=
  if startswith s (txt "/") then parse_parts s else base ++ parse_parts s.

(** The normalisation that [Path.resolve()] performs on a tree without
    symbolic links: [..] steps to the parent of what was resolved so
    far, and stays at the root there. *)
Fixpoint resolve_from (acc : path) (parts : list text) : path :=
  match parts with
  | [] => acc
  | x :: r =>
      if text_eqb x [] || text_eqb x (txt ".") then resolve_from acc r
      else if text_eqb x (txt "..") then resolve_from (removelast acc) r
      else resolve_from (acc ++ [x]) r
  end.

(** The character that no file name holds. *)
Definition NUL : ascii := ascii_of_nat 0.

(** Some part holds a NUL character. *)
Definition embedded_null (p : path) : bool := existsb (contains NUL) p.

(** [Path.resolve()]: [os.path.realpath] looks every part up but [..],
    and the look-up of a name with a NUL character raises [ValueError]
    (embedded null byte); other failures of the look-up are ignored. *)
Definition resolve (p : path) : result path :=
  if embedded_null p then Raise ValueError else Ok (resolve_from [] p).

(** [PurePath.suffix] of a name *)
Definition suffix (nm : text) : text :=
  match rfind "." nm with
  | Some i => if (0 <? i) && (i <? length nm - 1) then skipn i nm else []
  | None => []
  end.

(** [PurePath.with_suffix(ext)]: a path without a name raises; the
    checks on [ext] itself pass for the five extensions below. *)
Definition with_suffix (p : path) (ext : text) : result path :=
  let nm := name p in
  match nm with
  | [] => Raise ValueError
  | _ :: _ =>
      let old_suffix := suffix nm in
      let nm' :=
        match old_suffix with
        | [] => nm ++ ext
        | _ :: _ => firstn (length nm - length old_suffix) nm ++ ext
        end in
      Ok (removelast p ++ [nm'])
  end.

(** ** File system *)

Inductive node : Type :=
| File (content : text)
| Dir (entries : list (text * node)).

Fixpoint entry (x : text) (es : list (text * node)) : option node :=
  match es with
  | [] => None
  | (y, n) :: r => if text_eqb x y then Some n else entry x r
  end.

Fixpoint lookup (fs : node) (p : path) : option node :=
  match p with
  | [] => Some fs
  | x :: q =>
      match fs with
      | Dir es =>
          match entry x es with
          | Some n => lookup n q
          | None => None
          end
      | File _ => None
      end
  end.

(** [Path.exists()] *)
Definition exists_ (fs : node) (p : path) : bool :=
  match lookup fs p with Some _ => true | None => false end.

(** [Path.is_dir()] *)
Definition is_dir (fs : node) (p : path) : bool :=
  match lookup fs p with Some (Dir _) => true | _ => false end.

(** ** Specifier Resolver *)

(** Declared by the script, used by none of its functions. *)
Definition IGNORE_EXTENSIONS : list text :=
  [txt ".json"; txt ".css"; txt ".scss"; txt ".png"; txt ".jpg"; txt ".svg";
   txt ".woff"; txt ".woff2"; txt ".ttf"; txt ".eot"].

Definition TS_EXTENSIONS : list text := [txt ".ts"; txt ".tsx"; txt ".mts"].
Definition JS_EXTENSIONS : list text := [txt ".js"; txt ".mjs"].

(** The first loop of [resolve_relative_spec]: [Ok true] is its [return]. *)
Fixpoint probe_direct (fs : node) (target : path) (exts : list text)
  : result bool :=
  match exts with
  | [] => Ok false
  | ext :: r =>
      candidate <- with_suffix target ext ;;
      if exists_ fs candidate then Ok true else probe_direct fs target r
  end.

(** The second loop, run when [target] is a directory. *)
Fixpoint probe_index (fs : node) (target : path) (exts : list text) : bool :=
  match exts with
  | [] => false
  | ext :: r =>
      let candidate := target ++ [txt "index" ++ ext] in
      if exists_ fs candidate then true else probe_index fs target r
  end.

Definition last_segment (spec : text) : text := last (split "/" spec) [].

Definition resolve_relative_spec (fs : node) (file_path : path) (spec : text)
  : result (option text) :=
  if endswith spec (txt ".js") || endswith spec (txt ".mjs")
     || endswith spec (txt ".cjs")
  then Ok None
  else if contains "." (last_segment spec) then Ok None
  else
    let base_dir := parent file_path in
    target <- resolve (joinpath base_dir spec) ;;
    found <- probe_direct fs target (TS_EXTENSIONS ++ JS_EXTENSIONS) ;;
    if found then Ok (Some (spec ++ txt ".js"))
    else if is_dir fs target then
      if probe_index fs target (TS_EXTENSIONS ++ JS_EXTENSIONS)
      then Ok (Some (rstrip "/" spec ++ txt "/index.js"))
      else Ok None
    else Ok None.

(** ** The two rules

    The rules of the specification with the test the code makes,
    [Path.exists]: it holds of a directory as of a file. *)

(** The path whose rendering is that of [p] followed by [ext]. *)
Definition append_ext (p : path) (ext : text) : path :=
  removelast p ++ [name p ++ ext].

Definition probed : list text := TS_EXTENSIONS ++ JS_EXTENSIONS.

(** Some probed extension appended to the resolved path names something
    that exists, a file or a directory. *)
Definition direct_rule (fs : node) (target : path) : bool :=
  existsb (fun ext => exists_ fs (append_ext target ext)) probed.

(** The resolved path is a directory, and [index] with some probed
    extension names something that exists in it, a file or a
    directory. *)
Definition index_rule (fs : node) (target : path) : bool :=
  is_dir fs target
  && existsb (fun ext => exists_ fs (target ++ [txt "index" ++ ext])) probed.

(** The path a specifier names from a file, normalised. *)
Definition target_of (file_path : path) (spec : text) : path :=
  resolve_from [] (joinpath (parent file_path) spec).

(** ** Sample trees *)

Definition file (nm : string) : text * node := (txt nm, File []).
Definition dir (nm : string) (es : list (text * node)) : text * node :=
  (txt nm, Dir es).
(** The path a string names, as [Path(s)] parses it. *)
Definition at_ (s : string) : path := parse_parts (txt s).

Definition tree_scenarios : node :=
  Dir [dir "a" [file "foo.ts"; file "bar.ts";
                dir "utils" [file "index.ts"]; file "styles.css"]].


Definition tree_dotted_dir : node :=
  Dir [dir "proj" [dir "v1.2" [file "a.ts"]; file "v1.2.ts"]].

Definition tree_file_and_dir : node :=
  Dir [dir "a" [file "foo.ts"; file "bar.ts"; dir "bar" [file "index.ts"]]].

Definition tree_root_index : node :=
  Dir [file "index.ts"; dir "proj" [dir "server" [file "a.ts"]]].

Definition tree_suffix_clash : node :=
  Dir [dir "proj" [file "my.ts";
                   dir "my.app" [file "index.ts"; dir "server" [file "x.ts"]]]].

(** A specifier the specification calls relative. *)
Definition relative (spec : text) : bool :=
  startswith spec (txt "./") || startswith spec (txt "../")
  || startswith spec (txt "/").

(** A specifier that ends in a runtime extension. *)
Definition runtime_ext (spec : text) : bool :=
  endswith spec (txt ".js") || endswith spec (txt ".mjs")
  || endswith spec (txt ".cjs").

(** ** Regular expressions *)

(** The fragment of Python's [re] syntax that the three patterns use.
    Repetition is over a character class only, as in the source. *)
Inductive regex : Type :=
| Lit (s : text)                          (* literal text *)
| Cls (p : ascii -> bool)                 (* one character of a class *)
| Rep (p : ascii -> bool) (lo : nat) (hi : option nat) (greedy : bool)
                                          (* [p{lo,hi}], or [p{lo,hi}?] *)
| Cat (r1 r2 : regex)
| Alt (r1 r2 : regex).

Definition or_else {A : Type} (a b : option A) : option A :=
  match a with Some _ => a | None => b end.

Section Backtracking.
Variable A : Type.

(** A repetition in front of the continuation [k]: the greedy one
    tries one more character before it tries to stop, the lazy one
    the other way round. *)
Fixpoint exec_rep (p : ascii -> bool) (greedy : bool) (lo : nat)
    (hi : option nat) (s : text) (k : text -> option A) {struct s}
  : option A :=
  let stop := match lo with O => k s | S _ => None end in
  let more :=
    match s with
    | c :: t =>
        match hi with
        | Some O => None
        | _ =>
            if p c
            then exec_rep p greedy (pred lo) (option_map pred hi) t k
            else None
        end
    | [] => None
    end in
  if greedy then or_else more stop else or_else stop more.

(** The backtracking matcher: the first way, in the order of Python's
    engine, to match [r] at the head of [s] so that [k] accepts what
    is left. *)
Fixpoint exec (r : regex) (s : text) (k : text -> option A) : option A :=
  match r with
  | Lit l =>
      match strip_prefix l s with
      | Some t => k t
      | None => None
      end
  | Cls p =>
      match s with
      | c :: t => if p c then k t else None
      | [] => None
      end
  | Rep p lo hi greedy => exec_rep p greedy lo hi s k
  | Cat r1 r2 => exec r1 s (fun t => exec r2 t k)
  | Alt r1 r2 => or_else (exec r1 s k) (exec r2 s k)
  end.
End Backtracking.

Arguments exec_rep {A} p greedy lo hi s k.
Arguments exec {A} r s k.

(** A pattern made of three capturing groups in a row. *)
Record pattern : Type := Pattern { g1 : regex; g2 : regex; g3 : regex }.

(** What is left of the text after each of the three groups. *)
Definition cuts (pat : pattern) (s : text) : option (text * text * text) :=
  exec (g1 pat) s (fun s1 =>
  exec (g2 pat) s1 (fun s2 =>
  exec (g3 pat) s2 (fun s3 => Some (s1, s2, s3)))).

(** [pattern.match(s)]: the three groups and the text after the match. *)
Definition match_at (pat : pattern) (s : text)
  : option (text * text * text * text) :=
  match cuts pat s with
  | Some (s1, s2, s3) =>
      Some (firstn (length s - length s1) s,
            firstn (length s1 - length s2) s1,
            firstn (length s2 - length s3) s2,
            s3)
  | None => None
  end.

(** *** Character classes *)

Definition dquote : ascii := ascii_of_nat 34.
Definition squote : ascii := "'".

(** [\s] on a [str] pattern, for code points below 256 *)
Definition is_space (c : ascii) : bool :=
  let n := nat_of_ascii c in
  ((9 <=? n) && (n <=? 13)) || ((28 <=? n) && (n <=? 32))
  || (n =? 133) || (n =? 160).

Definition is_quote (c : ascii) : bool :=
  Ascii.eqb c dquote || Ascii.eqb c squote.

Definition not_quote (c : ascii) : bool := negb (is_quote c).
Definition not_semicolon (c : ascii) : bool := negb (Ascii.eqb c ";").
Definition is_dot (c : ascii) : bool := Ascii.eqb c ".".
Definition is_slash (c : ascii) : bool := Ascii.eqb c "/".

(** *** The three patterns

    The comments spell the source patterns with blanks between the
    tokens; Q stands for the class of the two quote characters. *)

(** ( (?: \.{1,2} | \/ ) [^Q]* ) *)
Definition SPEC_GROUP : regex :=
  Cat (Alt (Rep is_dot 1 (Some 2) true) (Cls is_slash))
      (Rep not_quote 0 None true).

(** ( Q ) *)
Definition QUOTE_GROUP : regex := Cls is_quote.

(** from \s+ Q *)
Definition FROM_QUOTE : regex :=
  Cat (Lit (txt "from")) (Cat (Rep is_space 1 None true) (Cls is_quote)).

(** ( from \s+ Q ) ( (?: \.{1,2} | \/ ) [^Q]* ) ( Q ) *)
Definition STATIC_IMPORT_RE : pattern :=
  Pattern FROM_QUOTE SPEC_GROUP QUOTE_GROUP.

(** ( import \( \s* Q ) ( (?: \.{1,2} | \/ ) [^Q]* ) ( Q ) *)
Definition DYNAMIC_IMPORT_RE : pattern :=
  Pattern (Cat (Lit (txt "import("))
               (Cat (Rep is_space 0 None true) (Cls is_quote)))
          SPEC_GROUP QUOTE_GROUP.

(** ( export \s+ [^;]*? from \s+ Q ) ( (?: \.{1,2} | \/ ) [^Q]* ) ( Q ) *)
Definition EXPORT_FROM_RE : pattern :=
  Pattern (Cat (Lit (txt "export"))
               (Cat (Rep is_space 1 None true)
                    (Cat (Rep not_semicolon 0 None false) FROM_QUOTE)))
          SPEC_GROUP QUOTE_GROUP.

(** ** Statement Rewriter *)

(** The text as [regex.sub] walks it: characters outside every match are
    kept, each match is handed to the callback with its three groups. *)
Inductive piece : Type :=
| Keep (c : ascii)
| Hit (prefix spec suffix : text).

(** The leftmost, non-overlapping matches of [pat], found from left to
    right; [skip] counts the characters still covered by the last match. *)
Fixpoint finditer (pat : pattern) (skip : nat) (s : text) : list piece :=
  match s with
  | [] => []
  | c :: t =>
      match skip with
      | S n => finditer pat n t
      | O =>
          match match_at pat s with
          | Some (prefix, spec, suffix, _) =>
              Hit prefix spec suffix
              :: finditer pat
                   (length prefix + length spec + length suffix - 1) t
          | None => Keep c :: finditer pat 0 t
          end
      end
  end.

(** The callback of [update_specifiers]; [changed] is its [nonlocal]. *)
Definition _replace (fs : node) (file_path : path) (changed : bool)
    (prefix spec suffix : text) : result (text * bool) :=
  new_spec <- resolve_relative_spec fs file_path spec ;;
  match new_spec with
  | Some n =>
      if negb (text_eqb n []) && negb (text_eqb n spec)
      then Ok (prefix ++ n ++ suffix, true)
      else Ok (prefix ++ spec ++ suffix, changed)
  | None => Ok (prefix ++ spec ++ suffix, changed)
  end.

(** The replacements joined, the callback run on the matches in order. *)
Fixpoint join_pieces (fs : node) (file_path : path) (ps : list piece)
    (changed : bool) : result (text * bool) :=
  match ps with
  | [] => Ok ([], changed)
  | Keep c :: r =>
      out <- join_pieces fs file_path r changed ;;
      Ok (c :: fst out, snd out)
  | Hit prefix spec suffix :: r =>
      m <- _replace fs file_path changed prefix spec suffix ;;
      out <- join_pieces fs file_path r (snd m) ;;
      Ok (fst m ++ fst out, snd out)
  end.

(** [regex.sub(_replace, content)] *)
Definition re_sub (fs : node) (file_path : path) (pat : pattern)
    (content : text) (changed : bool) : result (text * bool) :=
  join_pieces fs file_path (finditer pat 0 content) changed.

Definition REGEXES : list pattern :=
  [STATIC_IMPORT_RE; DYNAMIC_IMPORT_RE; EXPORT_FROM_RE].

(** The loop over the three patterns, each run on the text the one
    before it left. *)
Fixpoint sub_each (fs : node) (file_path : path) (regexes : list pattern)
    (content : text) (changed : bool) : result (text * bool) :=
  match regexes with
  | [] => Ok (content, changed)
  | regex :: r =>
      out <- re_sub fs file_path regex content changed ;;
      sub_each fs file_path r (fst out) (snd out)
  end.

Definition update_specifiers (fs : node) (content : text) (file_path : path)
  : result (text * bool) :=
  sub_each fs file_path REGEXES content false.

(** The specifiers handed to the resolver: those of the matches, in
    order, up to the first call that raises. *)
Definition specs_of (ps : list piece) : list text :=
  flat_map (fun p => match p with Keep _ => [] | Hit _ spec _ => [spec] end) ps.

Fixpoint calls_of (fs : node) (file_path : path) (ps : list piece)
  : list text :=
  match ps with
  | [] => []
  | Keep _ :: r => calls_of fs file_path r
  | Hit _ spec _ :: r =>
      spec :: match resolve_relative_spec fs file_path spec with
              | Ok _ => calls_of fs file_path r
              | Raise _ => []
              end
  end.

Fixpoint resolver_calls (fs : node) (file_path : path)
    (regexes : list pattern) (content : text) : list text :=
  match regexes with
  | [] => []
  | regex :: r =>
      calls_of fs file_path (finditer regex 0 content)
      ++ match re_sub fs file_path regex content false with
         | Ok out => resolver_calls fs file_path r (fst out)
         | Raise _ => []
         end
  end.

(** A call whose answer [_replace] puts in place of the specifier. *)
Definition substituted (fs : node) (file_path : path) (spec : text) : bool :=
  match resolve_relative_spec fs file_path spec with
  | Ok (Some n) => negb (text_eqb n []) && negb (text_eqb n spec)
  | _ => false
  end.

(** Where in the text each captured specifier starts. *)
Fixpoint spec_offsets (pos : nat) (ps : list piece) : list nat :=
  match ps with
  | [] => []
  | Keep _ :: r => spec_offsets (S pos) r
  | Hit prefix spec suffix :: r =>
      (pos + length prefix)
      :: spec_offsets (pos + length prefix + length spec + length suffix) r
  end.

(** ** Tree Walker: one file *)

(** [path.open(mode r).read()] *)
Definition read_text (fs : node) (p : path) : result text :=
  match lookup fs p with
  | Some (File content) => Ok content
  | Some (Dir _) => Raise IsADirectoryError
  | None => Raise FileNotFoundError
  end.

Fixpoint set_entry (x : text) (n : node) (es : list (text * node))
  : list (text * node) :=
  match es with
  | [] => [(x, n)]
  | (y, m) :: r => if text_eqb x y then (y, n) :: r else (y, m) :: set_entry x n r
  end.

(** [path.open(mode w).write(data)]: the file is replaced, or created in an
    existing directory. *)
Fixpoint write_text (fs : node) (p : path) (data : text) : result node :=
  match p with
  | [] =>
      match fs with
      | File _ => Ok (File data)
      | Dir _ => Raise IsADirectoryError
      end
  | x :: q =>
      match fs with
      | File _ => Raise NotADirectoryError
      | Dir es =>
          match entry x es with
          | Some n =>
              n' <- write_text n q data ;;
              Ok (Dir (set_entry x n' es))
          | None =>
              match q with
              | [] => Ok (Dir (set_entry x (File data) es))
              | _ :: _ => Raise FileNotFoundError
              end
          end
      end
  end.

Definition process_file (fs : node) (p : path) : result (node * bool) :=
  content <- read_text fs p ;;
  out <- update_specifiers fs content p ;;
  if snd out
  then fs' <- write_text fs p (fst out) ;; Ok (fs', true)
  else Ok (fs, false).

(** A file with the given content. *)
Definition source (nm : string) (content : text) : text * node :=
  (txt nm, File content).

(** ** The patterns, read off

    What the second and third group do after an opening quote, and what
    the first groups of the static and of the dynamic pattern do, written
    as plain functions; the facts below show the backtracking matcher
    computes exactly these. *)

Definition quoted_spec (s1 : text) : option (text * text * text) :=
  match s1 with
  | c :: _ =>
      if is_dot c || is_slash c
      then match dropwhile not_quote s1 with
           | q :: s3 => Some (s1, q :: s3, s3)
           | [] => None
           end
      else None
  | [] => None
  end.

(** Blanks, at least [lo] of them, then a quote. *)
Definition blanks_quote {A : Type} (lo : nat) (s : text)
    (k : text -> option A) : option A :=
  if length (takewhile is_space s) <? lo then None
  else match dropwhile is_space s with
       | q :: r => if is_quote q then k r else None
       | [] => None
       end.

Definition from_quote {A : Type} (s : text) (k : text -> option A)
  : option A :=
  match strip_prefix (txt "from") s with
  | Some t => blanks_quote 1 t k
  | None => None
  end.

Definition import_quote {A : Type} (s : text) (k : text -> option A)
  : option A :=
  match strip_prefix (txt "import(") s with
  | Some t => blanks_quote 0 t k
  | None => None
  end.

(** A specifier captured by [pat] at offset [k] of the text [T]. *)
Definition captures (pat : pattern) (T : text) (k : nat) (spec : text)
  : Prop :=
  exists a u prefix suffix rest,
    T = a ++ u
    /\ match_at pat u = Some (prefix, spec, suffix, rest)
    /\ k = length a + length prefix.

(** A captured specifier: it starts with a dot or a slash and holds no
    quote. *)
Definition spec_ok (spec : text) : bool :=
  match spec with
  | c :: _ => (is_dot c || is_slash c) && forallb not_quote spec
  | [] => false
  end.

(** The shape of a match of the static ([P] is [from], at least one
    blank) and of the dynamic pattern ([P] is [import(], any blanks). *)
Definition clause (P : text) (lo : nat) (u prefix spec suffix rest : text)
  : Prop :=
  exists ws q0 q1,
    prefix = P ++ ws ++ [q0] /\ suffix = [q1]
    /\ u = prefix ++ spec ++ suffix ++ rest
    /\ forallb is_space ws = true /\ lo <= length ws
    /\ is_quote q0 = true /\ is_quote q1 = true
    /\ spec_ok spec = true.

(** ** One run after another *)

(** [after] is [before] with some quoted specifiers replaced by what the
    resolver returned for them, and nothing else touched. *)
Inductive rewrites (fs : node) (file_path : path) : text -> text -> Prop :=
| rw_nil : rewrites fs file_path [] []
| rw_keep (c : ascii) (t t' : text) :
    rewrites fs file_path t t' ->
    rewrites fs file_path (c :: t) (c :: t')
| rw_spec (q0 q1 : ascii) (spec spec' rest rest' : text) :
    is_quote q0 = true -> is_quote q1 = true ->
    spec_ok spec = true ->
    resolve_relative_spec fs file_path spec = Ok (Some spec') ->
    rewrites fs file_path rest rest' ->
    rewrites fs file_path (q0 :: spec ++ q1 :: rest)
                          (q0 :: spec' ++ q1 :: rest').

(** The texts that start somewhere in [s]. *)
Fixpoint tails (s : text) : list text :=
  match s with
  | [] => [[]]
  | _ :: t => s :: tails t
  end.

(** The last character is neither a blank nor an opening parenthesis. *)
Definition ends_clean (spec : text) : bool :=
  match rev spec with
  | c :: _ => negb (is_space c || Ascii.eqb c "(")
  | [] => true
  end.

Definition clean_at (pat : pattern) (u : text) : bool :=
  match match_at pat u with
  | Some (_, spec, _, _) => ends_clean spec
  | None => true
  end.

(** No specifier that the static or the dynamic pattern can capture,
    anywhere in the text, ends in a blank or in an opening parenthesis. *)
Definition tidy (T : text) : bool :=
  forallb (fun u => clean_at STATIC_IMPORT_RE u && clean_at DYNAMIC_IMPORT_RE u)
    (tails T).

Definition tree_hidden : node :=
  Dir [dir "a" [file "foo.ts"; dir ".hidden" [file "mod.ts"]]].

Definition tree_blank_names : node :=
  Dir [dir "a" [file "foo.ts"; file "a from .ts"; file "c.ts"]].

(** What a path leads to: nothing, a file, or a directory. *)
Inductive kind : Type := KFile | KDir.

Definition kind_at (fs : node) (p : path) : option kind :=
  match lookup fs p with
  | Some (File _) => Some KFile
  | Some (Dir _) => Some KDir
  | None => None
  end.

Definition tree_with_source : node :=
  Dir [dir "a" [source "foo.ts" (txt "import { b } from './bar';");
                file "bar.ts"]].

Definition tree_root_import : node :=
  Dir [dir "proj" [dir "server" [source "a.ts" (txt "import r from '/'")]]].

(** Somewhere in [T] the pattern matches and captures [spec]. *)
Definition cand (pat : pattern) (T : text) (spec : text) : Prop :=
  exists a u prefix suffix rest,
    T = a ++ u /\ match_at pat u = Some (prefix, spec, suffix, rest).

(** Every specifier the pattern can capture in [T] is one the resolver
    leaves alone. *)
Definition settled (fs : node) (file_path : path) (pat : pattern) (T : text)
  : Prop :=
  forall spec, cand pat T spec ->
               resolve_relative_spec fs file_path spec = Ok None.

(** ** Notions the properties are stated with *)

(** A name that is not empty and holds no dot. *)
Definition plain_name (x : text) : Prop := x <> [] /\ contains "." x = false.

(** The cuts of a pattern whose first group is a literal [P], blanks
    and a quote. *)
Definition literal_first (pat : pattern) (P : text) (lo : nat) : Prop :=
  forall s, cuts pat s
            = match strip_prefix P s with
              | Some t => blanks_quote lo t quoted_spec
              | None => None
              end.

(** What the three patterns have in common. *)
Definition hit_shape (u prefix spec suffix rest : text) : Prop :=
  u = prefix ++ spec ++ suffix ++ rest
  /\ (exists p0 q0, prefix = p0 ++ [q0] /\ is_quote q0 = true)
  /\ spec_ok spec = true
  /\ (exists q1, suffix = [q1] /\ is_quote q1 = true).

(** ** The two rules as the specification words them: of files *)

(** [Path.is_file()] *)
Definition is_file (fs : node) (p : path) : bool :=
  match lookup fs p with Some (File _) => true | _ => false end.

(** A direct file: some probed extension appended to the resolved path
    names a file. *)
Definition direct_file (fs : node) (target : path) : bool :=
  existsb (fun ext => is_file fs (append_ext target ext)) probed.

(** A directory that contains an index file. *)
Definition index_file (fs : node) (target : path) : bool :=
  is_dir fs target
  && existsb (fun ext => is_file fs (target ++ [txt "index" ++ ext])) probed.

(** A directory under the name of a source file. *)
Definition tree_dir_as_file : node :=
  Dir [dir "a" [file "foo.ts"; dir "bar.ts" []]].

(** A specifier with a NUL character in a part that [..] steps out of. *)
Definition spec_with_nul : text := txt "./x" ++ [NUL] ++ txt "/../bar".

(** C1 as the specification states it: whenever some probed extension
    appended to the resolved path of a relative specifier with a dot-free
    last segment yields an existing file, the result is the specifier
    followed by [.js]. *)
Definition C1_as_stated : Prop :=
  forall (fs : node) (file_path : path) (spec ext : text),
    relative spec = true ->
    contains "." (last_segment spec) = false ->
    In ext probed ->
    is_file fs (append_ext (target_of file_path spec) ext) = true ->
    resolve_relative_spec fs file_path spec = Ok (Some (spec ++ txt ".js")).

(** C3 as the specification states it: rewritten exactly when one, and
    only one, of the two exists: a direct file, a directory that
    contains an index file. *)
Definition C3_as_stated : Prop :=
  forall (fs : node) (file_path : path) (spec : text),
    relative spec = true ->
    ((exists n, resolve_relative_spec fs file_path spec = Ok (Some n))
     <-> xorb (direct_file fs (target_of file_path spec))
              (index_file fs (target_of file_path spec)) = true).

(** C4 as the specification states it: whatever the text, a second run
    over the output of the first returns it unchanged, flag not set. *)
Definition C4_as_stated : Prop :=
  forall (fs : node) (file_path : path) (content out : text) (changed : bool),
    update_specifiers fs content file_path = Ok (out, changed) ->
    update_specifiers fs out file_path = Ok (out, false).

(** C7 as the specification states it: no offset is one at which two
    of the three scans capture a specifier. *)
Definition C7_as_stated : Prop :=
  forall (T : text) (k : nat),
    (In k (spec_offsets 0 (finditer STATIC_IMPORT_RE 0 T)) ->
     ~ In k (spec_offsets 0 (finditer DYNAMIC_IMPORT_RE 0 T))
     /\ ~ In k (spec_offsets 0 (finditer EXPORT_FROM_RE 0 T)))
    /\ (In k (spec_offsets 0 (finditer DYNAMIC_IMPORT_RE 0 T)) ->
        ~ In k (spec_offsets 0 (finditer EXPORT_FROM_RE 0 T))).

(** C8 as the specification states it: every specifier handed to the
    resolver begins with one of the three markers. *)
Definition C8_as_stated : Prop :=
  forall (fs : node) (file_path : path) (content spec : text),
    In spec (resolver_calls fs file_path REGEXES content) ->
    relative spec = true.

(** ** What one run does to the stretches between quotes *)

(** The quotes of a text, in order. *)
Definition quotes_of (s : text) : list ascii := filter is_quote s.

(** The stretches of a text that its quotes separate: one more than it
    has quotes. *)
Fixpoint stretches (s : text) : list text :=
  match s with
  | [] => [[]]
  | c :: t =>
      if is_quote c then [] :: stretches t
      else match stretches t with
           | h :: r => (c :: h) :: r
           | [] => [[c]]
           end
  end.

(** [b] stands where [a] stood: it is [a] itself, or the answer of the
    resolver for [a]. *)
Definition once (fs : node) (file_path : path) (a b : text) : Prop :=
  a = b \/ resolve_relative_spec fs file_path a = Ok (Some b).

(** ** Tree Walker *)

(** The root of the source tree; the script takes the directory two
    levels above its own file, here it is a parameter of [main]. *)

Definition DIRECTORIES : list text :=
  [txt "server"; txt "shared"; txt "client"; txt "test"; txt "scripts"].

(** [fnmatch] of a name against the pattern [*.ts]: any name that ends
    in [.ts], a leading dot included. *)
Definition matches_ts (nm : text) : bool := endswith nm (txt ".ts").

(** The entries of one directory that match, in directory order; a
    directory whose name matches is yielded like a file. *)
Fixpoint select_ts (here : path) (es : list (text * node)) : list path :=
  match es with
  | [] => []
  | (x, _) :: r =>
      if matches_ts x then (here ++ [x]) :: select_ts here r
      else select_ts here r
  end.

(** [**/*.ts] below a directory: the directory itself first, then its
    subdirectories one after the other, each in the same way (the order
    of Python 3.11 and 3.12; symbolic links are not in the model). *)
Fixpoint rglob_from (n : node) (here : path) : list path :=
  match n with
  | File _ => []
  | Dir es =>
      select_ts here es
      ++ flat_map (fun e => rglob_from (snd e) (here ++ [fst e])) es
  end.

Definition path_eq_dec (p q : path) : {p = q} + {p <> q} :=
  list_eq_dec (list_eq_dec ascii_dec) p q.

(** The set [yielded] of [rglob]: a path is yielded once. *)
Fixpoint dedup (seen : list path) (l : list path) : list path :=
  match l with
  | [] => []
  | p :: r =>
      if in_dec path_eq_dec p seen then dedup seen r
      else p :: dedup (p :: seen) r
  end.

(** [dir_path.rglob(pattern *.ts)]: nothing when [dir_path] is not a
    directory. *)
Definition rglob (fs : node) (dir_path : path) : list path :=
  match lookup fs dir_path with
  | Some (Dir es) => dedup [] (rglob_from (Dir es) dir_path)
  | _ => []
  end.

(** The inner loop of [main] over the paths of one directory; an
    exception of [process_file] ends the run. *)
Fixpoint walk (fs : node) (paths : list path) (total_files changed_files : nat)
  : result (node * (nat * nat)) :=
  match paths with
  | [] => Ok (fs, (total_files, changed_files))
  | p :: r =>
      out <- process_file fs p ;;
      walk (fst out) r (S total_files)
        (if snd out then S changed_files else changed_files)
  end.

(** The outer loop: a directory that does not exist is skipped.  The
    paths of a directory are listed when its turn comes; the script
    lists them while it processes them, which gives the same paths since
    processing changes no listing. *)
Fixpoint main_loop (ROOT : path) (dirs : list text) (fs : node)
    (total_files changed_files : nat) : result (node * (nat * nat)) :=
  match dirs with
  | [] => Ok (fs, (total_files, changed_files))
  | directory :: r =>
      let dir_path := ROOT ++ [directory] in
      if negb (exists_ fs dir_path)
      then main_loop ROOT r fs total_files changed_files
      else
        out <- walk fs (rglob fs dir_path) total_files changed_files ;;
        main_loop ROOT r (fst out) (fst (snd out)) (snd (snd out))
  end.

(** [main]: the tree it leaves and the two numbers it prints. *)
Definition main (ROOT : path) (fs : node) : result (node * (nat * nat)) :=
  main_loop ROOT DIRECTORIES fs 0 0.

(** The places where a quote follows [.js]: a device to tell a rewritten
    text from the one before. *)
Definition js_quote_at (T : text) : bool :=
  match strip_prefix (txt ".js") T with
  | Some (q :: _) => is_quote q
  | _ => false
  end.

Fixpoint js_quotes (T : text) : nat :=
  match T with
  | [] => 0
  | _ :: t => (if js_quote_at T then 1 else 0) + js_quotes t
  end.

(** After [export] and a blank: the first [from] clause that no
    semicolon separates from it. *)
Fixpoint first_from (t : text) : option (text * text * text) :=
  match from_quote t quoted_spec with
  | Some c => Some c
  | None =>
      match t with
      | c :: t' => if not_semicolon c then first_from t' else None
      | [] => None
      end
  end.

Definition tree_project : node :=
  Dir [dir "repo"
         [dir "server"
            [source "app.ts" (txt "import { b } from './lib/bar';");
             dir "lib" [source "bar.ts" (txt "export const b = 1;");
                        file "notes.md"]];
          dir "client" [source "main.ts" (txt "import('../server/app')")];
          file "README.md"]].

Definition tree_dir_named_ts : node :=
  Dir [dir "repo" [dir "server" [dir "types.ts" [file "index.d.ts"]]]].

(** The tree without what its files hold. *)
Fixpoint shape (n : node) : node :=
  match n with
  | File _ => File []
  | Dir es => Dir (map (fun e => (fst e, shape (snd e))) es)
  end.

(** Induction on a tree and, with it, on the trees its entries lead to. *)
Fixpoint node_induction (P : node -> Prop)
    (HF : forall c, P (File c))
    (HD : forall es, Forall (fun e => P (snd e)) es -> P (Dir es))
    (n : node) : P n :=
  match n with
  | File c => HF c
  | Dir es =>
      HD es
        ((fix all (l : list (text * node)) : Forall (fun e => P (snd e)) l :=
            match l with
            | [] => Forall_nil _
            | e :: r =>
                Forall_cons e (node_induction P HF HD (snd e)) (all r)
            end) es)
  end.

(** Every path [main] hands to [process_file], in order. *)
Definition all_paths (ROOT : path) (fs : node) : list path :=
  flat_map (fun directory => rglob fs (ROOT ++ [directory])) DIRECTORIES.

(** No name occurs twice. *)
Fixpoint unique (l : list text) : bool :=
  match l with
  | [] => true
  | x :: r => negb (existsb (text_eqb x) r) && unique r
  end.

(** A tree as a file system has it: no directory holds two entries of
    one name. *)
Fixpoint well_formed (n : node) : bool :=
  match n with
  | File _ => true
  | Dir es =>
      unique (map fst es) && forallb (fun e => well_formed (snd e)) es
  end.

(** The path is a file in both trees, and holds another text in the
    second. *)
Definition changed_at (fs fs' : node) (p : path) : bool :=
  match read_text fs p, read_text fs' p with
  | Ok a, Ok b => negb (text_eqb a b)
  | _, _ => false
  end.

(** Every file among the paths holds a tidy text. *)
Definition all_tidy (fs : node) (paths : list path) : bool :=
  forallb (fun p => match read_text fs p with
                    | Ok content => tidy content
                    | Raise _ => true
                    end) paths.

(** None of the directories of [main] is a directory of the tree. *)
Definition none_present (ROOT : path) (fs : node) : bool :=
  forallb (fun directory => negb (is_dir fs (ROOT ++ [directory])))
    DIRECTORIES.

(** A tree with a file where [main] looks for a directory. *)
Definition tree_no_dirs : node :=
  Dir [dir "repo" [file "server"; dir "src" [file "a.ts"]]].

(** [tree_project] after a run of [main]. *)
Definition tree_project_done : node :=
  Dir [dir "repo"
         [dir "server"
            [source "app.ts" (txt "import { b } from './lib/bar.js';");
             dir "lib" [source "bar.ts" (txt "export const b = 1;");
                        file "notes.md"]];
          dir "client" [source "main.ts" (txt "import('../server/app.js')")];
          file "README.md"]].

(** [tree_with_source] after its file was processed. *)
Definition tree_with_source_done : node :=
  Dir [dir "a" [source "foo.ts" (txt "import { b } from './bar.js';");
                file "bar.ts"]].
(** ** Facts about text *)

Lemma text_eqb_eq (a b : text) : text_eqb a b = true <-> a = b.
Proof.
  unfold text_eqb; destruct (list_eq_dec ascii_dec a b); split; congruence.
Qed.

Lemma text_eqb_refl (a : text) : text_eqb a a = true.
Proof. now apply text_eqb_eq. Qed.

Lemma strip_prefix_app (p x : text) : strip_prefix p (p ++ x) = Some x.
Proof.
  induction p as [|a p IH]; simpl; [reflexivity|].
  now rewrite Ascii.eqb_refl.
Qed.

Lemma strip_prefix_Some (p s r : text) :
  strip_prefix p s = Some r -> s = p ++ r.
Proof.
  revert s; induction p as [|a p IH]; simpl; intros s H.
  - now inversion H.
  - destruct s as [|c s]; [discriminate|].
    destruct (Ascii.eqb a c) eqn:E; [|discriminate].
    apply Ascii.eqb_eq in E; subst c. now rewrite (IH _ H).
Qed.

Lemma startswith_app (p x : text) : startswith (p ++ x) p = true.
Proof. unfold startswith. now rewrite strip_prefix_app. Qed.

Lemma startswith_inv (s p : text) :
  startswith s p = true -> exists r, s = p ++ r.
Proof.
  unfold startswith. destruct (strip_prefix p s) as [r|] eqn:E; [|discriminate].
  intros _. exists r. now apply strip_prefix_Some.
Qed.

Lemma endswith_app (a b : text) : endswith (a ++ b) b = true.
Proof. unfold endswith. rewrite rev_app_distr. apply startswith_app. Qed.

Lemma endswith_inv (s p : text) :
  endswith s p = true -> exists a, s = a ++ p.
Proof.
  unfold endswith. intros H. apply startswith_inv in H as [r Hr].
  exists (rev r). rewrite <- (rev_involutive s), Hr, rev_app_distr.
  now rewrite rev_involutive.
Qed.

Lemma contains_app (c : ascii) (a b : text) :
  contains c (a ++ b) = contains c a || contains c b.
Proof. apply existsb_app. Qed.

Lemma split_nonempty (sep : ascii) (s : text) : split sep s <> [].
Proof.
  induction s as [|c t IH]; simpl; [discriminate|].
  destruct (Ascii.eqb c sep); [discriminate|].
  destruct (split sep t); discriminate.
Qed.

Lemma split_app_nosep (sep : ascii) (a e : text) :
  contains sep e = false ->
  split sep (a ++ e)
  = removelast (split sep a) ++ [last (split sep a) [] ++ e].
Proof.
  intros He. induction a as [|c t IH].
  - simpl. induction e as [|x e IHe]; [reflexivity|].
    simpl in He. apply orb_false_iff in He as [Hx He].
    simpl. rewrite Ascii.eqb_sym, Hx. now rewrite (IHe He).
  - cbn [app split]. destruct (Ascii.eqb c sep).
    + rewrite IH. pose proof (split_nonempty sep t) as Hne.
      destruct (split sep t) as [|h r]; [contradiction|]. reflexivity.
    + rewrite IH. pose proof (split_nonempty sep t) as Hne.
      destruct (split sep t) as [|h r]; [contradiction|].
      destruct r as [|h' r]; reflexivity.
Qed.

Lemma last_segment_app (a e : text) :
  contains "/" e = false -> last_segment (a ++ e) = last_segment a ++ e.
Proof.
  intros He. unfold last_segment. rewrite (split_app_nosep _ a e He).
  apply last_last.
Qed.

Lemma rfind_None (c : ascii) (s : text) :
  contains c s = false -> rfind c s = None.
Proof.
  induction s as [|x t IH]; simpl; [reflexivity|].
  intros H. apply orb_false_iff in H as [Hx Ht].
  rewrite (IH Ht). now rewrite Ascii.eqb_sym, Hx.
Qed.

(** A specifier whose last segment has no dot carries none of the
    runtime extensions. *)
Lemma dotless_not_ext (spec e : text) :
  contains "." (last_segment spec) = false ->
  contains "/" e = false -> contains "." e = true ->
  endswith spec e = false.
Proof.
  intros Hdot Hsl He. destruct (endswith spec e) eqn:E; [|reflexivity].
  apply endswith_inv in E as [a ->].
  rewrite (last_segment_app a e Hsl), contains_app, He, orb_true_r in Hdot.
  discriminate.
Qed.

Lemma dotless_passes_guard (spec : text) :
  contains "." (last_segment spec) = false ->
  endswith spec (txt ".js") || endswith spec (txt ".mjs")
  || endswith spec (txt ".cjs") = false.
Proof.
  intros H. now rewrite !(dotless_not_ext _ _ H) by reflexivity.
Qed.

(** ** Facts about paths *)

Lemma plain_name_kept (x : text) : plain_name x -> kept_part x = true.
Proof.
  intros [Hne Hdot]. unfold kept_part.
  destruct (text_eqb x []) eqn:E1; [apply text_eqb_eq in E1; contradiction|].
  destruct (text_eqb x (txt ".")) eqn:E2; [|reflexivity].
  apply text_eqb_eq in E2; subst x. discriminate.
Qed.

Lemma plain_name_step (x : text) (acc : path) (r : list text) :
  plain_name x -> resolve_from acc (x :: r) = resolve_from (acc ++ [x]) r.
Proof.
  intros [Hne Hdot]. cbn [resolve_from].
  destruct (text_eqb x []) eqn:E1; [apply text_eqb_eq in E1; contradiction|].
  destruct (text_eqb x (txt ".")) eqn:E2;
    [apply text_eqb_eq in E2; subst x; discriminate|].
  destruct (text_eqb x (txt "..")) eqn:E3;
    [apply text_eqb_eq in E3; subst x; discriminate|].
  reflexivity.
Qed.

Lemma resolve_from_snoc (x : text) (xs : list text) (acc : path) :
  plain_name x -> resolve_from acc (xs ++ [x]) = resolve_from acc xs ++ [x].
Proof.
  intros Hx. revert acc. induction xs as [|y ys IH]; intros acc.
  - simpl app. now rewrite (plain_name_step _ _ _ Hx).
  - cbn [app resolve_from].
    destruct (text_eqb y [] || text_eqb y (txt ".")); [apply IH|].
    destruct (text_eqb y (txt "..")); apply IH.
Qed.

Lemma parse_parts_last (spec : text) :
  plain_name (last_segment spec) ->
  parse_parts spec
  = filter kept_part (removelast (split "/" spec)) ++ [last_segment spec].
Proof.
  intros Hx. unfold parse_parts.
  rewrite (app_removelast_last [] (split_nonempty "/" spec)) at 1.
  rewrite filter_app. cbn [filter]. fold (last_segment spec).
  now rewrite (plain_name_kept _ Hx).
Qed.

(** With a plain last segment the resolved path ends in that segment. *)
Lemma target_of_snoc (file_path : path) (spec : text) :
  plain_name (last_segment spec) ->
  exists P, target_of file_path spec = P ++ [last_segment spec].
Proof.
  intros Hx. unfold target_of, joinpath.
  rewrite (parse_parts_last _ Hx).
  destruct (startswith spec (txt "/")).
  - eexists. now apply resolve_from_snoc.
  - rewrite app_assoc. eexists. now apply resolve_from_snoc.
Qed.

Lemma suffix_plain (x : text) : contains "." x = false -> suffix x = [].
Proof. intros H. unfold suffix. now rewrite (rfind_None _ _ H). Qed.

Lemma with_suffix_plain (P : path) (x ext : text) :
  plain_name x -> with_suffix (P ++ [x]) ext = Ok (append_ext (P ++ [x]) ext).
Proof.
  intros [Hne Hdot]. unfold with_suffix, append_ext, name.
  rewrite last_last, removelast_last, (suffix_plain _ Hdot).
  destruct x; [contradiction|reflexivity].
Qed.

Lemma probe_direct_plain (fs : node) (P : path) (x : text) (exts : list text) :
  plain_name x ->
  probe_direct fs (P ++ [x]) exts
  = Ok (existsb (fun ext => exists_ fs (append_ext (P ++ [x]) ext)) exts).
Proof.
  intros Hx. induction exts as [|e r IH]; [reflexivity|].
  cbn [probe_direct existsb]. rewrite (with_suffix_plain _ _ _ Hx). cbn [bind].
  destruct (exists_ fs (append_ext (P ++ [x]) e)); [reflexivity|apply IH].
Qed.

Lemma probe_index_existsb (fs : node) (target : path) (exts : list text) :
  probe_index fs target exts
  = existsb (fun ext => exists_ fs (target ++ [txt "index" ++ ext])) exts.
Proof.
  induction exts as [|e r IH]; [reflexivity|].
  cbn [probe_index existsb].
  destruct (exists_ fs (target ++ [txt "index" ++ e])); [reflexivity|apply IH].
Qed.

(** Where the name has no suffix, [with_suffix] appends. *)
Lemma with_suffix_appends_to (p : path) (ext : text) :
  name p <> [] -> suffix (name p) = [] ->
  with_suffix p ext = Ok (append_ext p ext).
Proof.
  intros Hne Hs. unfold with_suffix, append_ext. rewrite Hs.
  destruct (name p); [contradiction|reflexivity].
Qed.

Lemma probe_direct_appends (fs : node) (p : path) (exts : list text) :
  name p <> [] -> suffix (name p) = [] ->
  probe_direct fs p exts
  = Ok (existsb (fun ext => exists_ fs (append_ext p ext)) exts).
Proof.
  intros Hne Hs. induction exts as [|e r IH]; [reflexivity|].
  cbn [probe_direct existsb].
  rewrite (with_suffix_appends_to p e Hne Hs). cbn [bind].
  destruct (exists_ fs (append_ext p e)); [reflexivity|apply IH].
Qed.

(** The resolver past its guards and the look-up of [Path.resolve], on
    a path whose name has no suffix: the two rules, direct form
    first. *)
Lemma resolve_suffix_free (fs : node) (file_path : path) (spec : text) :
  contains "." (last_segment spec) = false ->
  embedded_null (joinpath (parent file_path) spec) = false ->
  name (target_of file_path spec) <> [] ->
  suffix (name (target_of file_path spec)) = [] ->
  resolve_relative_spec fs file_path spec
  = Ok (if direct_rule fs (target_of file_path spec)
        then Some (spec ++ txt ".js")
        else if index_rule fs (target_of file_path spec)
             then Some (rstrip "/" spec ++ txt "/index.js")
             else None).
Proof.
  intros Hdot Hnul Hne Hs. unfold resolve_relative_spec, resolve.
  rewrite (dotless_passes_guard _ Hdot), Hdot, Hnul. cbn [bind].
  fold (target_of file_path spec).
  unfold direct_rule, index_rule, probed.
  rewrite (probe_direct_appends fs _ _ Hne Hs). cbn [bind].
  rewrite probe_index_existsb.
  destruct (existsb _ (TS_EXTENSIONS ++ JS_EXTENSIONS)); [reflexivity|].
  destruct (is_dir fs (target_of file_path spec)); [|reflexivity].
  cbn [andb]. now destruct (existsb _ (TS_EXTENSIONS ++ JS_EXTENSIONS)).
Qed.

(** The resolver on a specifier with a non-empty, dot-free last segment:
    the resolved name is that segment. *)
Lemma resolve_plain (fs : node) (file_path : path) (spec : text) :
  plain_name (last_segment spec) ->
  embedded_null (joinpath (parent file_path) spec) = false ->
  resolve_relative_spec fs file_path spec
  = Ok (if direct_rule fs (target_of file_path spec)
        then Some (spec ++ txt ".js")
        else if index_rule fs (target_of file_path spec)
             then Some (rstrip "/" spec ++ txt "/index.js")
             else None).
Proof.
  intros Hx Hnul.
  destruct (target_of_snoc file_path spec Hx) as [P HP].
  apply resolve_suffix_free; [exact (proj2 Hx)|exact Hnul| |];
    rewrite HP; unfold name; rewrite last_last.
  - exact (proj1 Hx).
  - apply suffix_plain. exact (proj2 Hx).
Qed.

(** ** The scenarios of the specification *)

Example scenario1 :
  resolve_relative_spec tree_scenarios (at_ "/a/foo.ts") (txt "./bar")
  = Ok (Some (txt "./bar.js")).
Proof. reflexivity. Qed.

Example scenario2 :
  resolve_relative_spec tree_scenarios (at_ "/a/foo.ts") (txt "./utils")
  = Ok (Some (txt "./utils/index.js")).
Proof. reflexivity. Qed.

Example scenario3 :
  resolve_relative_spec tree_scenarios (at_ "/a/foo.ts")
    (txt "./styles.css") = Ok None.
Proof. reflexivity. Qed.

Example scenario5 :
  resolve_relative_spec tree_scenarios (at_ "/a/foo.ts") (txt "./missing")
  = Ok None.
Proof. reflexivity. Qed.


(** ** Facts about the matcher *)

Lemma or_else_None {A : Type} (a : option A) : or_else a None = a.
Proof. now destruct a. Qed.

Lemma or_else_same {A : Type} (a : option A) : or_else a a = a.
Proof. now destruct a. Qed.

Lemma takewhile_dropwhile (p : ascii -> bool) (s : text) :
  takewhile p s ++ dropwhile p s = s.
Proof.
  induction s as [|c t IH]; [reflexivity|]. simpl.
  destruct (p c); [simpl; now rewrite IH|reflexivity].
Qed.

Lemma takewhile_all (p : ascii -> bool) (s : text) :
  forallb p (takewhile p s) = true.
Proof.
  induction s as [|c t IH]; [reflexivity|]. simpl.
  destruct (p c) eqn:E; [simpl; now rewrite E|reflexivity].
Qed.

Lemma dropwhile_head (p : ascii -> bool) (s : text) (c : ascii) (t : text) :
  dropwhile p s = c :: t -> p c = false.
Proof.
  induction s as [|x s IH]; simpl; [discriminate|].
  destruct (p x) eqn:E; [assumption|]. now intros [= <- _].
Qed.

Lemma takewhile_app (p : ascii -> bool) (a : text) (c : ascii) (t : text) :
  forallb p a = true -> p c = false ->
  takewhile p (a ++ c :: t) = a /\ dropwhile p (a ++ c :: t) = c :: t.
Proof.
  intros Ha Hc. induction a as [|x a IH]; simpl.
  - now rewrite Hc.
  - simpl in Ha. apply andb_true_iff in Ha as [Hx Ha]. rewrite Hx.
    destruct (IH Ha) as [-> ->]. now split.
Qed.

Section Repetition.
Context {A : Type}.
Variable p : ascii -> bool.
Variable k : text -> option A.

(** A greedy star in front of a continuation that refuses every text
    starting in the class runs to the end of the class. *)
Lemma exec_rep_greedy_all (s : text) :
  (forall c t, p c = true -> k (c :: t) = None) ->
  exec_rep p true 0 None s k = k (dropwhile p s).
Proof.
  intros Hk. induction s as [|c t IH]; [reflexivity|].
  cbn [exec_rep dropwhile pred option_map]. destruct (p c) eqn:E.
  - rewrite IH, (Hk c t E). apply or_else_None.
  - reflexivity.
Qed.

(** So does one in front of a continuation that does not see leading
    characters of the class. *)
Lemma exec_rep_greedy_skip (s : text) :
  (forall c t, p c = true -> k (c :: t) = k t) ->
  exec_rep p true 0 None s k = k (dropwhile p s).
Proof.
  intros Hk. induction s as [|c t IH]; [reflexivity|].
  cbn [exec_rep dropwhile pred option_map]. destruct (p c) eqn:E.
  - rewrite IH, (Hk c t E).
    assert (k t = k (dropwhile p t)) as ->; [|apply or_else_same].
    clear IH. induction t as [|x t IHt]; [reflexivity|]. simpl.
    destruct (p x) eqn:Ex; [|reflexivity]. now rewrite (Hk x t Ex).
  - reflexivity.
Qed.

Lemma exec_rep_plus (s : text) :
  exec_rep p true 1 None s k
  = match s with
    | c :: t => if p c then exec_rep p true 0 None t k else None
    | [] => None
    end.
Proof.
  destruct s as [|c t]; [reflexivity|].
  cbn [exec_rep pred option_map]. apply or_else_None.
Qed.

(** The lazy star tries the continuation first. *)
Lemma exec_rep_lazy (s : text) :
  exec_rep p false 0 None s k
  = or_else (k s)
      match s with
      | c :: t => if p c then exec_rep p false 0 None t k else None
      | [] => None
      end.
Proof. destruct s; reflexivity. Qed.
End Repetition.

Lemma or_else_Some {A : Type} (x y : option A) (a : A) :
  or_else x y = Some a -> x = Some a \/ y = Some a.
Proof. destruct x; cbn; auto. Qed.

Lemma either_order_Some {A : Type} (g : bool) (x y : option A) (a : A) :
  (if g then or_else x y else or_else y x) = Some a ->
  x = Some a \/ y = Some a.
Proof. destruct g; intros H; apply or_else_Some in H; tauto. Qed.

(** Whatever a repetition matches, the continuation accepted the rest. *)
Lemma exec_rep_sound {A : Type} (p : ascii -> bool) (g : bool) (s : text)
    (k : text -> option A) :
  forall lo hi a,
    exec_rep p g lo hi s k = Some a ->
    exists m u, s = m ++ u /\ forallb p m = true /\ lo <= length m
                /\ k u = Some a.
Proof.
  induction s as [|c t IH]; intros lo hi a H; cbn [exec_rep] in H;
    apply either_order_Some in H as [Hm | Hs].
  - discriminate.
  - destruct lo; [|discriminate]. exists [], []. repeat split; auto.
  - assert (p c = true
            /\ exec_rep p g (pred lo) (option_map pred hi) t k = Some a)
      as [Hc Hr].
    { destruct hi as [[|n]|]; try discriminate;
        destruct (p c); try discriminate; auto. }
    destruct (IH _ _ _ Hr) as (m & u & -> & Hm' & Hlo & Hk).
    exists (c :: m), u. repeat split; auto.
    + simpl. now rewrite Hc.
    + simpl. lia.
  - destruct lo; [|discriminate]. exists [], (c :: t). repeat split; auto.
Qed.

Lemma exec_sound {A : Type} (r : regex) :
  forall (s : text) (k : text -> option A) (a : A),
    exec r s k = Some a -> exists m u, s = m ++ u /\ k u = Some a.
Proof.
  induction r as [l | p | p lo hi g | r1 IH1 r2 IH2 | r1 IH1 r2 IH2];
    intros s k a H; cbn [exec] in H.
  - destruct (strip_prefix l s) as [t|] eqn:E; [|discriminate].
    apply strip_prefix_Some in E. now exists l, t.
  - destruct s as [|c t]; [discriminate|].
    destruct (p c); [|discriminate]. now exists [c], t.
  - destruct (exec_rep_sound _ _ _ _ _ _ _ H) as (m & u & -> & _ & _ & Hk).
    now exists m, u.
  - destruct (IH1 _ _ _ H) as (m1 & u1 & -> & H1).
    destruct (IH2 _ _ _ H1) as (m2 & u2 & -> & H2).
    exists (m1 ++ m2), u2. now rewrite app_assoc.
  - destruct (exec r1 s k) eqn:E1; cbn in H.
    + rewrite <- H in *. now apply IH1.
    + now apply IH2.
Qed.

(** *** The character classes *)

Lemma space_not_quote (c : ascii) : is_space c = true -> is_quote c = false.
Proof.
  destruct c as [[] [] [] [] [] [] [] []]; vm_compute; congruence.
Qed.

Lemma dot_not_quote (c : ascii) : is_dot c = true -> not_quote c = true.
Proof. unfold is_dot. intros H. apply Ascii.eqb_eq in H. now subst c. Qed.

Lemma slash_not_quote (c : ascii) : is_slash c = true -> not_quote c = true.
Proof. unfold is_slash. intros H. apply Ascii.eqb_eq in H. now subst c. Qed.

Lemma not_quote_false (c : ascii) : not_quote c = false -> is_quote c = true.
Proof. unfold not_quote. now destruct (is_quote c). Qed.

(** *** The groups *)

(** The quote group hands on the text after one quote. *)
Lemma exec_quote_group {A : Type} (s : text) (k : text -> option A) :
  exec QUOTE_GROUP s k
  = match s with
    | q :: r => if is_quote q then k r else None
    | [] => None
    end.
Proof. reflexivity. Qed.

Lemma exec_rep_ext {A : Type} (p : ascii -> bool) (g : bool) (s : text)
    (k k' : text -> option A) :
  (forall u, k u = k' u) ->
  forall lo hi, exec_rep p g lo hi s k = exec_rep p g lo hi s k'.
Proof.
  intros Hk. induction s as [|c t IH]; intros lo hi; cbn [exec_rep].
  - now rewrite Hk.
  - now rewrite Hk, IH.
Qed.

(** One or two dots in front of a continuation that skips what is not a
    quote: both ways to split the dots end at the same place. *)
Lemma exec_dots {A : Type} (s : text) (k : text -> option A) :
  exec_rep is_dot true 1 (Some 2) s (fun t => k (dropwhile not_quote t))
  = match s with
    | c :: _ => if is_dot c then k (dropwhile not_quote s) else None
    | [] => None
    end.
Proof.
  destruct s as [|c t]; [reflexivity|].
  cbn [exec_rep pred option_map]. rewrite or_else_None.
  destruct (is_dot c) eqn:Ed; [|reflexivity].
  cbn [dropwhile]. rewrite (dot_not_quote _ Ed).
  destruct t as [|c2 t2]; [reflexivity|].
  cbn [exec_rep pred option_map].
  destruct (is_dot c2) eqn:Ed2.
  - cbn [dropwhile]. rewrite (dot_not_quote _ Ed2).
    assert (exec_rep is_dot true 0 (Some 0) t2
              (fun t => k (dropwhile not_quote t))
            = k (dropwhile not_quote t2)) as -> by now destruct t2.
    apply or_else_same.
  - reflexivity.
Qed.

(** The specifier group, in front of anything that wants a quote next,
    takes everything up to the next quote. *)
Lemma exec_spec_group {A : Type} (s : text) (k : text -> option A) :
  (forall c t, not_quote c = true -> k (c :: t) = None) ->
  exec SPEC_GROUP s k
  = match s with
    | c :: _ => if is_dot c || is_slash c then k (dropwhile not_quote s)
                else None
    | [] => None
    end.
Proof.
  intros Hk. unfold SPEC_GROUP. cbn [exec].
  rewrite (exec_rep_ext is_dot true s _ (fun t => k (dropwhile not_quote t)))
    by (intros u; apply (exec_rep_greedy_all _ _ u Hk)).
  rewrite exec_dots.
  destruct s as [|c t]; [reflexivity|].
  rewrite (exec_rep_greedy_all _ _ t Hk).
  destruct (is_dot c) eqn:Ed; cbn [orb or_else].
  - assert (is_slash c = false) as ->
        by (apply Ascii.eqb_eq in Ed; now subst c).
    apply or_else_None.
  - destruct (is_slash c) eqn:Es; [|reflexivity].
    cbn [dropwhile]. now rewrite (slash_not_quote _ Es).
Qed.

Lemma groups_2_3 (s1 : text) :
  exec SPEC_GROUP s1
    (fun s2 => exec QUOTE_GROUP s2 (fun s3 => Some (s1, s2, s3)))
  = quoted_spec s1.
Proof.
  rewrite exec_spec_group.
  - unfold quoted_spec. destruct s1 as [|c t]; [reflexivity|].
    destruct (is_dot c || is_slash c); [|reflexivity].
    rewrite exec_quote_group.
    destruct (dropwhile not_quote (c :: t)) as [|q r] eqn:E; [reflexivity|].
    now rewrite (not_quote_false _ (dropwhile_head _ _ _ _ E)).
  - intros c t Hc. rewrite exec_quote_group.
    unfold not_quote in Hc. now destruct (is_quote c).
Qed.

Lemma exec_blanks_quote {A : Type} (lo : nat) (s : text)
    (k : text -> option A) :
  lo <= 1 ->
  exec (Cat (Rep is_space lo None true) (Cls is_quote)) s k
  = blanks_quote lo s k.
Proof.
  intros Hlo. cbn [exec]. unfold blanks_quote.
  destruct lo as [|[|lo]]; [| |lia].
  - rewrite exec_rep_greedy_all
      by (intros c t Hc; now rewrite (space_not_quote _ Hc)).
    reflexivity.
  - rewrite exec_rep_plus. destruct s as [|c t]; [reflexivity|].
    cbn [takewhile dropwhile]. destruct (is_space c) eqn:E; [|reflexivity].
    rewrite exec_rep_greedy_all
      by (intros c' t' Hc; now rewrite (space_not_quote _ Hc)).
    reflexivity.
Qed.

Lemma exec_from_quote {A : Type} (s : text) (k : text -> option A) :
  exec FROM_QUOTE s k = from_quote s k.
Proof.
  unfold FROM_QUOTE, from_quote. cbn [exec].
  destruct (strip_prefix (txt "from") s) as [t|]; [|reflexivity].
  now apply (exec_blanks_quote 1 t k).
Qed.

Lemma cuts_static (s : text) :
  cuts STATIC_IMPORT_RE s = from_quote s quoted_spec.
Proof.
  unfold cuts. cbn [g1 g2 g3 STATIC_IMPORT_RE].
  rewrite exec_from_quote. unfold from_quote.
  destruct (strip_prefix _ s) as [t|]; [|reflexivity].
  unfold blanks_quote. destruct (_ <? 1); [reflexivity|].
  destruct (dropwhile is_space t) as [|q r]; [reflexivity|].
  destruct (is_quote q); [apply groups_2_3|reflexivity].
Qed.

Lemma cuts_dynamic (s : text) :
  cuts DYNAMIC_IMPORT_RE s = import_quote s quoted_spec.
Proof.
  unfold cuts. cbn [g1 g2 g3 DYNAMIC_IMPORT_RE]. unfold import_quote.
  cbn [exec]. destruct (strip_prefix _ s) as [t|]; [|reflexivity].
  change (exec_rep is_space true 0 None t ?k)
    with (exec (Cat (Rep is_space 0 None true) (Cls is_quote)) t
            (fun s1 => exec SPEC_GROUP s1
               (fun s2 => exec QUOTE_GROUP s2 (fun s3 => Some (s1, s2, s3))))).
  rewrite (exec_blanks_quote 0) by lia.
  unfold blanks_quote. destruct (_ <? 0); [reflexivity|].
  destruct (dropwhile is_space t) as [|q r]; [reflexivity|].
  destruct (is_quote q); [apply groups_2_3|reflexivity].
Qed.

(** ** The shape of a match *)

Lemma firstn_cut {X : Type} (m u : list X) :
  firstn (length (m ++ u) - length u) (m ++ u) = m.
Proof.
  rewrite length_app. replace (length m + length u - length u) with (length m) by lia.
  rewrite firstn_app, Nat.sub_diag, firstn_all. cbn. apply app_nil_r.
Qed.

Lemma quote_not_space (q : ascii) : is_quote q = true -> is_space q = false.
Proof.
  intros H. destruct (is_space q) eqn:E; [|reflexivity].
  now rewrite (space_not_quote _ E) in H.
Qed.

Lemma quote_not_not_quote (q : ascii) :
  is_quote q = true -> not_quote q = false.
Proof. unfold not_quote. now intros ->. Qed.

Lemma spec_ok_inv (spec : text) :
  spec_ok spec = true ->
  exists c t, spec = c :: t /\ is_dot c || is_slash c = true
              /\ forallb not_quote spec = true.
Proof.
  unfold spec_ok. destruct spec as [|c t]; [discriminate|].
  intros H. apply andb_true_iff in H as [H1 H2]. now exists c, t.
Qed.

Lemma quoted_spec_iff (r s1 s2 s3 : text) :
  quoted_spec r = Some (s1, s2, s3)
  <-> exists spec q1,
        r = spec ++ q1 :: s3 /\ spec_ok spec = true /\ is_quote q1 = true
        /\ s1 = r /\ s2 = q1 :: s3.
Proof.
  unfold quoted_spec. split.
  - destruct r as [|c t]; [discriminate|].
    destruct (is_dot c || is_slash c) eqn:Ec; [|discriminate].
    destruct (dropwhile not_quote (c :: t)) as [|q1 r3] eqn:Ed; [discriminate|].
    intros [= <- <- <-].
    exists (takewhile not_quote (c :: t)), q1.
    rewrite <- Ed, takewhile_dropwhile. repeat split; auto.
    + assert (not_quote c = true) as Hc.
      { apply orb_true_iff in Ec as [H|H];
          [now apply dot_not_quote|now apply slash_not_quote]. }
      pose proof (takewhile_all not_quote (c :: t)) as Hall.
      cbn [takewhile] in *. rewrite Hc in *. cbn [spec_ok].
      now rewrite Ec, Hall.
    + apply not_quote_false. eapply dropwhile_head; eassumption.
  - intros (spec & q1 & -> & Hok & Hq & -> & ->).
    apply spec_ok_inv in Hok as (c & t & -> & Hc & Hall).
    cbn [app]. rewrite Hc.
    change (c :: t ++ q1 :: s3) with ((c :: t) ++ q1 :: s3).
    destruct (takewhile_app not_quote (c :: t) q1 s3 Hall
                (quote_not_not_quote _ Hq)) as [_ ->].
    reflexivity.
Qed.

Lemma blanks_quote_iff {A : Type} (lo : nat) (t : text)
    (k : text -> option A) (a : A) :
  blanks_quote lo t k = Some a
  <-> exists ws q0 r,
        t = ws ++ q0 :: r /\ forallb is_space ws = true /\ lo <= length ws
        /\ is_quote q0 = true /\ k r = Some a.
Proof.
  unfold blanks_quote. split.
  - destruct (length (takewhile is_space t) <? lo) eqn:El; [discriminate|].
    apply Nat.ltb_ge in El.
    destruct (dropwhile is_space t) as [|q0 r] eqn:Ed; [discriminate|].
    destruct (is_quote q0) eqn:Eq; [|discriminate].
    intros Hk. exists (takewhile is_space t), q0, r.
    rewrite <- Ed, takewhile_dropwhile. repeat split; auto.
    apply takewhile_all.
  - intros (ws & q0 & r & -> & Hws & Hlo & Hq & Hk).
    destruct (takewhile_app is_space ws q0 r Hws (quote_not_space _ Hq))
      as [-> ->].
    apply Nat.ltb_ge in Hlo. now rewrite Hlo, Hq.
Qed.

Lemma match_at_of_cuts (pat : pattern) (m sp : text) (q1 : ascii)
    (s3 : text) :
  cuts pat (m ++ sp ++ q1 :: s3) = Some (sp ++ q1 :: s3, q1 :: s3, s3) ->
  match_at pat (m ++ sp ++ q1 :: s3) = Some (m, sp, [q1], s3).
Proof.
  unfold match_at. intros ->.
  rewrite (firstn_cut m (sp ++ q1 :: s3)).
  rewrite (firstn_cut sp (q1 :: s3)).
  replace (firstn (length (q1 :: s3) - length s3) (q1 :: s3)) with [q1]
    by (symmetry; apply (firstn_cut [q1] s3)).
  reflexivity.
Qed.

Lemma cuts_inv (pat : pattern) (P : text) (lo : nat) :
  literal_first pat P lo ->
  forall u s1 s2 s3,
    cuts pat u = Some (s1, s2, s3) ->
    exists ws q0 sp q1,
      u = (P ++ ws ++ [q0]) ++ sp ++ q1 :: s3
      /\ s1 = sp ++ q1 :: s3 /\ s2 = q1 :: s3
      /\ forallb is_space ws = true /\ lo <= length ws
      /\ is_quote q0 = true /\ is_quote q1 = true /\ spec_ok sp = true.
Proof.
  intros Hcuts u s1 s2 s3 Ec. rewrite Hcuts in Ec.
  destruct (strip_prefix P u) as [t|] eqn:EP; [|discriminate].
  apply strip_prefix_Some in EP. subst u.
  apply blanks_quote_iff in Ec as (ws & q0 & r & -> & Hws & Hlo & Hq0 & Hk).
  apply quoted_spec_iff in Hk as (sp & q1 & -> & Hok & Hq1 & -> & ->).
  exists ws, q0, sp, q1. repeat split; auto.
  now rewrite <- !app_assoc.
Qed.

(** A match of such a pattern has the shape of a clause, and every
    clause is a match. *)
Lemma clause_iff (pat : pattern) (P : text) (lo : nat) :
  literal_first pat P lo ->
  forall u prefix spec suffix rest,
    match_at pat u = Some (prefix, spec, suffix, rest)
    <-> clause P lo u prefix spec suffix rest.
Proof.
  intros Hcuts u prefix spec suffix rest. split.
  - intros H.
    assert (exists c, cuts pat u = Some c) as [[[s1 s2] s3] Ec].
    { unfold match_at in H. destruct (cuts pat u); [eauto|discriminate]. }
    destruct (cuts_inv _ _ _ Hcuts _ _ _ _ Ec)
      as (ws & q0 & sp & q1 & -> & -> & -> & Hws & Hlo & Hq0 & Hq1 & Hok).
    rewrite (match_at_of_cuts _ _ _ _ _ Ec) in H.
    injection H as <- <- <- <-.
    exists ws, q0, q1. repeat split; auto.
  - intros (ws & q0 & q1 & -> & -> & -> & Hws & Hlo & Hq0 & Hq1 & Hok).
    cbn [app]. apply match_at_of_cuts. rewrite Hcuts.
    rewrite <- !app_assoc, strip_prefix_app.
    apply blanks_quote_iff. exists ws, q0, (spec ++ q1 :: rest).
    repeat split; auto. apply quoted_spec_iff. exists spec, q1.
    repeat split; auto.
Qed.

Lemma static_literal_first : literal_first STATIC_IMPORT_RE (txt "from") 1.
Proof. intros s. now rewrite cuts_static. Qed.

Lemma dynamic_literal_first :
  literal_first DYNAMIC_IMPORT_RE (txt "import(") 0.
Proof. intros s. now rewrite cuts_dynamic. Qed.

Lemma match_static_iff (u prefix spec suffix rest : text) :
  match_at STATIC_IMPORT_RE u = Some (prefix, spec, suffix, rest)
  <-> clause (txt "from") 1 u prefix spec suffix rest.
Proof. apply clause_iff, static_literal_first. Qed.

Lemma match_dynamic_iff (u prefix spec suffix rest : text) :
  match_at DYNAMIC_IMPORT_RE u = Some (prefix, spec, suffix, rest)
  <-> clause (txt "import(") 0 u prefix spec suffix rest.
Proof. apply clause_iff, dynamic_literal_first. Qed.

(** Every match of the export pattern ends in a match of the static
    one, with the same specifier. *)
Lemma match_export_static (u prefix spec suffix rest : text) :
  match_at EXPORT_FROM_RE u = Some (prefix, spec, suffix, rest) ->
  exists m v prefix',
    u = m ++ v /\ prefix = m ++ prefix'
    /\ match_at STATIC_IMPORT_RE v = Some (prefix', spec, suffix, rest).
Proof.
  intros H.
  assert (exists c, cuts EXPORT_FROM_RE u = Some c) as [[[s1 s2] s3] Ec].
  { unfold match_at in H. destruct (cuts _ u); [eauto|discriminate]. }
  pose proof Ec as Ec'. unfold cuts in Ec'.
  cbn [g1 g2 g3 EXPORT_FROM_RE exec] in Ec'.
  destruct (strip_prefix (txt "export") u) as [t|] eqn:EP; [|discriminate].
  apply strip_prefix_Some in EP.
  apply exec_rep_sound in Ec' as (m2 & u2 & -> & _ & _ & Ec').
  apply exec_rep_sound in Ec' as (m3 & u3 & -> & _ & _ & Ec').
  assert (cuts STATIC_IMPORT_RE u3 = Some (s1, s2, s3)) as Es by exact Ec'.
  destruct (cuts_inv _ _ _ static_literal_first _ _ _ _ Es)
    as (ws & q0 & sp & q1 & -> & -> & -> & Hws & Hlo & Hq0 & Hq1 & Hok).
  set (m := txt "export" ++ m2 ++ m3).
  set (pre' := txt "from" ++ ws ++ [q0]) in *.
  assert (u = (m ++ pre') ++ sp ++ q1 :: s3) as Eu.
  { subst u m. now rewrite <- !app_assoc. }
  rewrite Eu in H, Ec. rewrite (match_at_of_cuts _ _ _ _ _ Ec) in H.
  injection H as <- <- <- <-.
  exists m, (pre' ++ sp ++ q1 :: s3), pre'. repeat split.
  - now rewrite Eu, <- !app_assoc.
  - now apply match_at_of_cuts.
Qed.

Lemma clause_hit_shape (P : text) (lo : nat)
    (u prefix spec suffix rest : text) :
  clause P lo u prefix spec suffix rest ->
  hit_shape u prefix spec suffix rest.
Proof.
  intros (ws & q0 & q1 & -> & -> & -> & Hws & Hlo & Hq0 & Hq1 & Hok).
  repeat split; auto.
  - exists (P ++ ws), q0. now rewrite <- app_assoc.
  - now exists q1.
Qed.

Lemma match_at_shape (pat : pattern) (u prefix spec suffix rest : text) :
  In pat REGEXES ->
  match_at pat u = Some (prefix, spec, suffix, rest) ->
  hit_shape u prefix spec suffix rest.
Proof.
  intros [<- | [<- | [<- | []]]] H.
  - apply match_static_iff in H. eapply clause_hit_shape; eassumption.
  - apply match_dynamic_iff in H. eapply clause_hit_shape; eassumption.
  - apply match_export_static in H as (m & v & pre' & -> & -> & H).
    apply match_static_iff in H. apply clause_hit_shape in H.
    destruct H as (-> & (p0 & q0 & -> & Hq0) & Hok & Hsuf).
    repeat split; auto.
    + now rewrite <- !app_assoc.
    + exists (m ++ p0), q0. now rewrite <- app_assoc.
Qed.

(** ** Facts about the scan *)

Lemma finditer_skip (pat : pattern) (a r : text) :
  finditer pat (length a) (a ++ r) = finditer pat 0 r.
Proof. induction a as [|c a IH]; [reflexivity|apply IH]. Qed.

Lemma finditer_hit (pat : pattern) (u prefix spec suffix rest : text) :
  In pat REGEXES ->
  match_at pat u = Some (prefix, spec, suffix, rest) ->
  finditer pat 0 u = Hit prefix spec suffix :: finditer pat 0 rest.
Proof.
  intros Hin H. pose proof (match_at_shape _ _ _ _ _ _ Hin H) as Hs.
  destruct Hs as (Eu & (p0 & q0 & Ep & _) & _ & _).
  destruct prefix as [|c p]; [now destruct p0|].
  subst u. cbn [app finditer] in *. rewrite H. f_equal.
  replace (p ++ spec ++ suffix ++ rest) with ((p ++ spec ++ suffix) ++ rest)
    by (now rewrite <- !app_assoc).
  replace (length (c :: p) + length spec + length suffix - 1)
    with (length (p ++ spec ++ suffix))
    by (rewrite !length_app; simpl; lia).
  apply finditer_skip.
Qed.

Lemma finditer_keep (pat : pattern) (c : ascii) (t : text) :
  match_at pat (c :: t) = None ->
  finditer pat 0 (c :: t) = Keep c :: finditer pat 0 t.
Proof. intros H. cbn [finditer]. now rewrite H. Qed.

Section Substitution.
Variable fs : node.
Variable file_path : path.
Variable pat : pattern.
Hypothesis Hpat : In pat REGEXES.

Lemma re_sub_nil (changed : bool) :
  re_sub fs file_path pat [] changed = Ok ([], changed).
Proof. reflexivity. Qed.

Lemma re_sub_keep (c : ascii) (t : text) (changed : bool) :
  match_at pat (c :: t) = None ->
  re_sub fs file_path pat (c :: t) changed
  = (out <- re_sub fs file_path pat t changed ;;
     Ok (c :: fst out, snd out)).
Proof. intros H. unfold re_sub. now rewrite (finditer_keep _ _ _ H). Qed.

Lemma re_sub_hit (u prefix spec suffix rest : text) (changed : bool) :
  match_at pat u = Some (prefix, spec, suffix, rest) ->
  re_sub fs file_path pat u changed
  = (m <- _replace fs file_path changed prefix spec suffix ;;
     out <- re_sub fs file_path pat rest (snd m) ;;
     Ok (fst m ++ fst out, snd out)).
Proof.
  intros H. unfold re_sub. now rewrite (finditer_hit _ _ _ _ _ _ Hpat H).
Qed.
End Substitution.

(** ** What the resolver returns *)

Lemma resolve_guarded (fs : node) (file_path : path) (spec : text) :
  runtime_ext spec = true -> resolve_relative_spec fs file_path spec = Ok None.
Proof.
  unfold runtime_ext, resolve_relative_spec. now intros ->.
Qed.

Lemma resolve_dotted (fs : node) (file_path : path) (spec : text) :
  contains "." (last_segment spec) = true ->
  resolve_relative_spec fs file_path spec = Ok None.
Proof.
  unfold resolve_relative_spec. intros ->.
  now destruct (_ || _ || _).
Qed.

(** Every new specifier is one of the two forms. *)
Lemma resolve_Some_inv (fs : node) (file_path : path) (spec n : text) :
  resolve_relative_spec fs file_path spec = Ok (Some n) ->
  runtime_ext spec = false
  /\ (n = spec ++ txt ".js" \/ n = rstrip "/" spec ++ txt "/index.js").
Proof.
  unfold resolve_relative_spec. fold (runtime_ext spec).
  destruct (runtime_ext spec); [discriminate|].
  destruct (contains "." (last_segment spec)); [discriminate|].
  destruct (resolve _) as [target|]; cbn [bind]; [|discriminate].
  destruct (probe_direct _ _ _) as [[|]|e]; cbn [bind]; try discriminate.
  - intros [= <-]. auto.
  - destruct (is_dir _ _); [|discriminate].
    destruct (probe_index _ _ _); [|discriminate].
    intros [= <-]. auto.
Qed.

Lemma resolve_Some_ends_js (fs : node) (file_path : path) (spec n : text) :
  resolve_relative_spec fs file_path spec = Ok (Some n) ->
  endswith n (txt ".js") = true.
Proof.
  intros H. apply resolve_Some_inv in H as [_ [-> | ->]].
  - apply endswith_app.
  - change (txt "/index.js") with (txt "/index" ++ txt ".js").
    rewrite app_assoc. apply endswith_app.
Qed.

(** A new specifier is never empty and never the old one, so the test
    [new_spec and new_spec != spec] passes whenever there is one. *)
Lemma resolve_Some_fresh (fs : node) (file_path : path) (spec n : text) :
  resolve_relative_spec fs file_path spec = Ok (Some n) ->
  n <> [] /\ n <> spec.
Proof.
  intros H. pose proof (resolve_Some_ends_js _ _ _ _ H) as Hjs.
  apply resolve_Some_inv in H as [Hg _]. split.
  - intros ->. discriminate.
  - intros ->. unfold runtime_ext in Hg. now rewrite Hjs in Hg.
Qed.

(** What a run produced, a later run leaves alone. *)
Lemma resolve_twice (fs fs' : node) (f f' : path) (spec n : text) :
  resolve_relative_spec fs f spec = Ok (Some n) ->
  resolve_relative_spec fs' f' n = Ok None.
Proof.
  intros H. apply resolve_guarded. unfold runtime_ext.
  now rewrite (resolve_Some_ends_js _ _ _ _ H).
Qed.

Lemma resolve_index_form (fs : node) (file_path : path) (spec : text) :
  plain_name (last_segment spec) ->
  embedded_null (joinpath (parent file_path) spec) = false ->
  direct_rule fs (target_of file_path spec) = false ->
  index_rule fs (target_of file_path spec) = true ->
  resolve_relative_spec fs file_path spec
  = Ok (Some (rstrip "/" spec ++ txt "/index.js")).
Proof.
  intros Hx Hn Hd Hi. now rewrite (resolve_plain _ _ _ Hx Hn), Hd, Hi.
Qed.

Lemma resolve_no_rule (fs : node) (file_path : path) (spec : text) :
  plain_name (last_segment spec) ->
  embedded_null (joinpath (parent file_path) spec) = false ->
  direct_rule fs (target_of file_path spec) = false ->
  index_rule fs (target_of file_path spec) = false ->
  resolve_relative_spec fs file_path spec = Ok None.
Proof.
  intros Hx Hn Hd Hi. now rewrite (resolve_plain _ _ _ Hx Hn), Hd, Hi.
Qed.

(** *** When the resolver raises *)

Lemma removelast_Forall {X : Type} (Q : X -> Prop) (l : list X) :
  Forall Q l -> Forall Q (removelast l).
Proof.
  induction l as [|x l IH]; [auto|]. intros H. inversion H; subst.
  cbn [removelast]. destruct l; [constructor|]. constructor; auto.
Qed.

Lemma resolve_from_named (parts : list text) :
  forall acc,
    Forall (fun x => x <> []) acc ->
    Forall (fun x => x <> []) (resolve_from acc parts).
Proof.
  induction parts as [|x r IH]; intros acc Hacc; [assumption|].
  cbn [resolve_from]. destruct (text_eqb x []) eqn:E; cbn [orb]; [now apply IH|].
  destruct (text_eqb x (txt ".")); [now apply IH|].
  destruct (text_eqb x (txt "..")).
  - apply IH. now apply removelast_Forall.
  - apply IH. apply Forall_app. split; [assumption|].
    constructor; [|constructor]. intros ->. now rewrite text_eqb_refl in E.
Qed.

Lemma with_suffix_raises (p : path) (ext : text) (e : exn) :
  Forall (fun x => x <> []) p ->
  with_suffix p ext = Raise e -> p = [] /\ e = ValueError.
Proof.
  intros Hp. unfold with_suffix, name.
  destruct (last p []) as [|c nm] eqn:El; [|discriminate].
  intros [= <-]. split; [|reflexivity].
  destruct p as [|x p]; [reflexivity|]. exfalso.
  assert (x :: p <> []) as Hne by discriminate.
  rewrite (app_removelast_last [] Hne), El in Hp.
  apply Forall_app in Hp as [_ Hp]. inversion Hp; subst. contradiction.
Qed.

(** In the model the resolver raises [ValueError] and nothing else:
    that of [Path.resolve] for a NUL character, or that of [with_suffix]
    for the root. *)
Lemma resolve_raises_inv (fs : node) (file_path : path) (spec : text)
    (e : exn) :
  resolve_relative_spec fs file_path spec = Raise e ->
  e = ValueError
  /\ runtime_ext spec = false
  /\ contains "." (last_segment spec) = false
  /\ (embedded_null (joinpath (parent file_path) spec) = true
      \/ target_of file_path spec = []).
Proof.
  unfold resolve_relative_spec, resolve. fold (runtime_ext spec).
  fold (target_of file_path spec).
  destruct (runtime_ext spec); [discriminate|].
  destruct (contains "." (last_segment spec)); [discriminate|].
  destruct (embedded_null _) eqn:En; cbn [bind].
  { intros [= <-]. auto. }
  assert (Forall (fun x => x <> []) (target_of file_path spec)) as Hn
      by (apply resolve_from_named; constructor).
  revert Hn. generalize (target_of file_path spec) as target.
  intros target Hn H.
  assert (forall exts, probe_direct fs target exts = Raise e ->
                       target = [] /\ e = ValueError) as Hd.
  { induction exts as [|x r IH]; [discriminate|]. cbn [probe_direct].
    destruct (with_suffix target x) as [c|e'] eqn:Ew; cbn [bind].
    - destruct (exists_ fs c); [discriminate|exact IH].
    - intros [= ->]. exact (with_suffix_raises _ _ _ Hn Ew). }
  destruct (probe_direct fs target (TS_EXTENSIONS ++ JS_EXTENSIONS))
    as [[|]|e'] eqn:Ep; cbn [bind] in H; try discriminate.
  - destruct (is_dir fs target); [|discriminate].
    destruct (probe_index fs target _); discriminate.
  - injection H as ->. destruct (Hd _ Ep) as [-> ->]. auto.
Qed.

(** And it does raise it there. *)
Lemma resolve_raises_nul (fs : node) (file_path : path) (spec : text) :
  runtime_ext spec = false ->
  contains "." (last_segment spec) = false ->
  embedded_null (joinpath (parent file_path) spec) = true ->
  resolve_relative_spec fs file_path spec = Raise ValueError.
Proof.
  intros Hg Hdot Hn. unfold resolve_relative_spec, resolve.
  fold (runtime_ext spec). now rewrite Hg, Hdot, Hn.
Qed.

Lemma resolve_raises_root (fs : node) (file_path : path) (spec : text) :
  runtime_ext spec = false ->
  contains "." (last_segment spec) = false ->
  embedded_null (joinpath (parent file_path) spec) = false ->
  target_of file_path spec = [] ->
  resolve_relative_spec fs file_path spec = Raise ValueError.
Proof.
  intros Hg Hdot Hn Ht. unfold resolve_relative_spec, resolve.
  fold (runtime_ext spec). fold (target_of file_path spec).
  now rewrite Hg, Hdot, Hn, Ht.
Qed.

(** ** C1 *)

(** Where the resolved name is not empty and has no suffix of its own,
    [with_suffix] appends, and the direct form is found as the
    specification says. *)
Lemma resolve_direct_form
  (fs : node) (file_path : path) (spec ext : text) :
  contains "." (last_segment spec) = false ->
  embedded_null (joinpath (parent file_path) spec) = false ->
  name (target_of file_path spec) <> [] ->
  suffix (name (target_of file_path spec)) = [] ->
  In ext probed ->
  exists_ fs (append_ext (target_of file_path spec) ext) = true ->
  resolve_relative_spec fs file_path spec = Ok (Some (spec ++ txt ".js")).
Proof.
  intros Hdot Hnul Hne Hs Hin Hex.
  rewrite (resolve_suffix_free fs file_path spec Hdot Hnul Hne Hs).
  assert (direct_rule fs (target_of file_path spec) = true) as ->;
    [|reflexivity].
  apply existsb_exists. now exists ext.
Qed.

Example direct_form_after_slash :
  resolve_relative_spec tree_scenarios (at_ "/a/foo.ts") (txt "./bar/")
  = Ok (Some (txt "./bar/.js")).
Proof. reflexivity. Qed.

(** The statement of the specification does not hold of the code. *)
Lemma trailing_slash_breaks_appending : ~ C1_as_stated.
Proof.
  intros H.
  specialize (H tree_dotted_dir (at_ "/proj/v1.2/a.ts") (txt "./") (txt ".ts")).
  assert (In (txt ".ts") probed) as Hin by (left; reflexivity).
  specialize (H eq_refl eq_refl Hin eq_refl). vm_compute in H. discriminate.
Qed.

(** C1, at a failing input: from [/proj/v1.2/a.ts] the specifier [./]
    is relative, has a dot-free last segment and resolves to
    [/proj/v1.2]; appending [.ts] to that path yields the existing file
    [/proj/v1.2.ts], so the specification promises [./.js]; the code
    probes [with_suffix], which puts [.ts] in place of the suffix [.2]
    and looks for [/proj/v1.ts], and it returns "no change". *)
Theorem C1_trailing_slash_replaces_suffix :
  let fs := tree_dotted_dir in
  let file_path := at_ "/proj/v1.2/a.ts" in
  let spec := txt "./" in
  relative spec = true
  /\ contains "." (last_segment spec) = false
  /\ target_of file_path spec = at_ "/proj/v1.2"
  /\ In (txt ".ts") probed
  /\ append_ext (target_of file_path spec) (txt ".ts") = at_ "/proj/v1.2.ts"
  /\ is_file fs (at_ "/proj/v1.2.ts") = true
  /\ with_suffix (target_of file_path spec) (txt ".ts")
     = Ok (at_ "/proj/v1.ts")
  /\ resolve_relative_spec fs file_path spec = Ok None.
Proof. repeat split; try reflexivity. left; reflexivity. Qed.

(** ** C2 *)

(** C2, at a failing input: [/] resolves to the root, a directory that
    holds [index.ts]; no probed extension appended to it exists; the
    specification promises [/index.js], and [with_suffix] raises [ValueError]
    on the nameless root before the directory is looked at. *)
Theorem C2_root_directory_raises :
  let fs := tree_root_index in
  let file_path := at_ "/proj/server/a.ts" in
  let spec := txt "/" in
  relative spec = true
  /\ contains "." (last_segment spec) = false
  /\ direct_rule fs (target_of file_path spec) = false
  /\ index_rule fs (target_of file_path spec) = true
  /\ rstrip "/" spec ++ txt "/index.js" = txt "/index.js"
  /\ resolve_relative_spec fs file_path spec = Raise ValueError.
Proof. repeat split; reflexivity. Qed.

(** The same slip gives a wrong answer when the directory's name has a
    suffix: [../] from [/proj/my.app/server/x.ts] is the directory
    [/proj/my.app], which holds [index.ts], but the unrelated file
    [/proj/my.ts] is taken for a direct match. *)
Lemma trailing_slash_strips_suffix :
  let fs := tree_suffix_clash in
  let file_path := at_ "/proj/my.app/server/x.ts" in
  let spec := txt "../" in
  direct_rule fs (target_of file_path spec) = false
  /\ index_rule fs (target_of file_path spec) = true
  /\ resolve_relative_spec fs file_path spec = Ok (Some (txt "../.js")).
Proof. repeat split; reflexivity. Qed.

(** ** C3 *)

(** C3, counterexample: with both the file [/a/bar.ts] and the
    directory [/a/bar] with its file [index.ts], the specifier [./bar]
    is rewritten although not exactly one form exists. *)
Lemma C3_fails_when_both_exist : ~ C3_as_stated.
Proof.
  intros H.
  destruct (H tree_file_and_dir (at_ "/a/foo.ts") (txt "./bar") eq_refl)
    as [H1 _].
  assert (exists n, resolve_relative_spec tree_file_and_dir (at_ "/a/foo.ts")
                      (txt "./bar") = Ok (Some n)) as Hn
      by (eexists; reflexivity).
  apply H1 in Hn. vm_compute in Hn. discriminate.
Qed.

(** The code asks whether a path exists, not whether it is a file: a
    directory [/a/bar.ts] is taken for the direct form, though neither
    a direct file nor a directory with an index file is there. *)
Example directory_taken_for_file :
  let fs := tree_dir_as_file in
  let file_path := at_ "/a/foo.ts" in
  let spec := txt "./bar" in
  direct_file fs (target_of file_path spec) = false
  /\ index_file fs (target_of file_path spec) = false
  /\ direct_rule fs (target_of file_path spec) = true
  /\ resolve_relative_spec fs file_path spec = Ok (Some (txt "./bar.js")).
Proof. repeat split; reflexivity. Qed.

(** A part with a NUL character stops [Path.resolve], also a part that
    [..] steps out of again: the direct form exists and nothing is
    returned. *)
Example nul_part_raises :
  let fs := tree_scenarios in
  let file_path := at_ "/a/foo.ts" in
  last_segment spec_with_nul = txt "bar"
  /\ target_of file_path spec_with_nul = at_ "/a/bar"
  /\ direct_rule fs (target_of file_path spec_with_nul) = true
  /\ resolve_relative_spec fs file_path spec_with_nul = Raise ValueError.
Proof. repeat split; reflexivity. Qed.

(** C3 (amended): a specifier whose last segment is non-empty and has no
    dot, on a path no part of which holds a NUL character, is rewritten
    if and only if at least one of the two forms exists on disk: the
    resolved path with a probed extension appended names something that
    exists, a file or a directory, or the resolved path is a directory
    in which [index] with a probed extension names something that
    exists; the new specifier differs from the old one; and whenever
    the first form exists, with or without the second, the direct form
    is produced. *)
Theorem C3_rewritten_iff_some_form
  (fs : node) (file_path : path) (spec : text) :
  last_segment spec <> [] ->
  contains "." (last_segment spec) = false ->
  embedded_null (joinpath (parent file_path) spec) = false ->
  ((exists n, resolve_relative_spec fs file_path spec = Ok (Some n)
              /\ n <> spec)
   <-> direct_rule fs (target_of file_path spec) = true
       \/ index_rule fs (target_of file_path spec) = true)
  /\ (direct_rule fs (target_of file_path spec) = true ->
      resolve_relative_spec fs file_path spec = Ok (Some (spec ++ txt ".js"))).
Proof.
  intros Hne Hdot Hnul.
  pose proof (resolve_plain fs file_path spec (conj Hne Hdot) Hnul) as E.
  split; [split|].
  - intros [n [Hn _]]. rewrite Hn in E.
    destruct (direct_rule _ _); [now left|].
    destruct (index_rule _ _); [now right|discriminate].
  - intros Hor.
    assert (exists n, resolve_relative_spec fs file_path spec = Ok (Some n))
      as [n Hn].
    { rewrite E. destruct (direct_rule _ _); [eauto|].
      destruct (index_rule _ _); [eauto|]. destruct Hor; discriminate. }
    exists n. split; [assumption|].
    now apply (resolve_Some_fresh _ _ _ _ Hn).
  - intros Hd. now rewrite E, Hd.
Qed.

Lemma C3_rewritten_iff_some_form_witness :
  ((exists n, resolve_relative_spec tree_file_and_dir (at_ "/a/foo.ts")
                (txt "./bar") = Ok (Some n) /\ n <> txt "./bar")
   <-> direct_rule tree_file_and_dir
         (target_of (at_ "/a/foo.ts") (txt "./bar")) = true
       \/ index_rule tree_file_and_dir
            (target_of (at_ "/a/foo.ts") (txt "./bar")) = true)
  /\ (direct_rule tree_file_and_dir
        (target_of (at_ "/a/foo.ts") (txt "./bar")) = true ->
      resolve_relative_spec tree_file_and_dir (at_ "/a/foo.ts") (txt "./bar")
      = Ok (Some (txt "./bar" ++ txt ".js"))).
Proof.
  apply (C3_rewritten_iff_some_form tree_file_and_dir (at_ "/a/foo.ts")
           (txt "./bar")).
  - discriminate.
  - reflexivity.
  - reflexivity.
Defined.

(** ** C5 *)

(** C5: a specifier whose last path segment contains a dot, and so every
    specifier that ends in [.js], [.mjs] or [.cjs], gets "no change"
    whatever the file system holds. *)
Theorem C5_dotted_or_migrated_unchanged
  (fs : node) (file_path : path) (spec : text) :
  contains "." (last_segment spec) || runtime_ext spec = true ->
  resolve_relative_spec fs file_path spec = Ok None.
Proof.
  intros H. apply orb_true_iff in H as [H | H].
  - now apply resolve_dotted.
  - now apply resolve_guarded.
Qed.

Lemma C5_dotted_or_migrated_unchanged_witness :
  resolve_relative_spec tree_scenarios (at_ "/a/foo.ts") (txt "./bar.js")
  = Ok None.
Proof.
  apply (C5_dotted_or_migrated_unchanged tree_scenarios (at_ "/a/foo.ts")
           (txt "./bar.js")).
  reflexivity.
Defined.

(** A runtime extension is a dot in the last segment. *)
Lemma runtime_ext_dotted (spec : text) :
  runtime_ext spec = true -> contains "." (last_segment spec) = true.
Proof.
  intros H. destruct (contains "." (last_segment spec)) eqn:E; [reflexivity|].
  unfold runtime_ext in H. now rewrite (dotless_passes_guard _ E) in H.
Qed.

(** ** C10 *)

(** C10: a new specifier returned by the resolver ends in [.js]. *)
Theorem C10_new_specifier_ends_js
  (fs : node) (file_path : path) (spec n : text) :
  resolve_relative_spec fs file_path spec = Ok (Some n) ->
  endswith n (txt ".js") = true.
Proof. apply resolve_Some_ends_js. Qed.

Lemma C10_new_specifier_ends_js_witness :
  endswith (txt "./utils/index.js") (txt ".js") = true.
Proof.
  apply (C10_new_specifier_ends_js tree_scenarios (at_ "/a/foo.ts")
           (txt "./utils") (txt "./utils/index.js")).
  reflexivity.
Defined.

(** ** Facts about reading and writing *)

Lemma entry_set_same (x : text) (n : node) (es : list (text * node)) :
  entry x (set_entry x n es) = Some n.
Proof.
  induction es as [|[y m] r IH]; cbn [set_entry entry].
  - now rewrite text_eqb_refl.
  - destruct (text_eqb x y) eqn:E; cbn [entry]; rewrite E; auto.
Qed.

Lemma entry_set_other (x y : text) (n : node) (es : list (text * node)) :
  x <> y -> entry y (set_entry x n es) = entry y es.
Proof.
  intros Hxy. induction es as [|[z m] r IH]; cbn [set_entry entry].
  - destruct (text_eqb y x) eqn:E; [|reflexivity].
    apply text_eqb_eq in E. congruence.
  - destruct (text_eqb x z) eqn:E; cbn [entry].
    + apply text_eqb_eq in E. subst z.
      destruct (text_eqb y x) eqn:E'; [|reflexivity].
      apply text_eqb_eq in E'. congruence.
    + now rewrite IH.
Qed.

Lemma read_text_cons (es : list (text * node)) (x : text) (q : path) :
  read_text (Dir es) (x :: q)
  = match entry x es with
    | Some n => read_text n q
    | None => Raise FileNotFoundError
    end.
Proof. unfold read_text. cbn [lookup]. now destruct (entry x es). Qed.

(** Writing an existing file succeeds, and the file then holds the data. *)
Lemma write_then_read (p : path) :
  forall (fs : node) (content data : text),
    read_text fs p = Ok content ->
    exists fs', write_text fs p data = Ok fs' /\ read_text fs' p = Ok data.
Proof.
  induction p as [|x q IH]; intros fs content data H.
  - destruct fs as [c|es]; [|discriminate]. now exists (File data).
  - destruct fs as [c|es]; [discriminate|].
    rewrite read_text_cons in H. cbn [write_text].
    destruct (entry x es) as [n|] eqn:E; [|discriminate].
    destruct (IH n content data H) as (n' & Hw & Hr).
    rewrite Hw. cbn [bind]. eexists; split; [reflexivity|].
    now rewrite read_text_cons, entry_set_same.
Qed.

(** Every other path reads as before. *)
Lemma write_elsewhere (p : path) :
  forall (fs fs' : node) (content data : text) (p' : path),
    read_text fs p = Ok content ->
    write_text fs p data = Ok fs' ->
    p' <> p -> read_text fs' p' = read_text fs p'.
Proof.
  induction p as [|x q IH]; intros fs fs' content data p' Hr Hw Hne.
  - destruct fs as [c|es]; [|discriminate]. injection Hw as <-.
    destruct p' as [|y q']; [contradiction|reflexivity].
  - destruct fs as [c|es]; [discriminate|].
    rewrite read_text_cons in Hr. cbn [write_text] in Hw.
    destruct (entry x es) as [n|] eqn:E; [|discriminate].
    destruct (write_text n q data) as [n'|] eqn:Hw'; [|discriminate].
    injection Hw as <-.
    destruct p' as [|y q']; [reflexivity|].
    rewrite !read_text_cons.
    destruct (list_eq_dec ascii_dec x y) as [<- | Hxy].
    + rewrite entry_set_same, E.
      apply (IH n n' content data q' Hr Hw'). congruence.
    + now rewrite (entry_set_other x y n' es Hxy).
Qed.

(** No path changes its kind, so the resolver sees the same tree. *)
Lemma write_keeps_kinds (p : path) :
  forall (fs fs' : node) (content data : text) (p' : path),
    read_text fs p = Ok content ->
    write_text fs p data = Ok fs' ->
    kind_at fs' p' = kind_at fs p'.
Proof.
  induction p as [|x q IH]; intros fs fs' content data p' Hr Hw.
  - destruct fs as [c|es]; [|discriminate]. injection Hw as <-.
    now destruct p'.
  - destruct fs as [c|es]; [discriminate|].
    rewrite read_text_cons in Hr. cbn [write_text] in Hw.
    destruct (entry x es) as [n|] eqn:E; [|discriminate].
    destruct (write_text n q data) as [n'|] eqn:Hw'; [|discriminate].
    injection Hw as <-.
    destruct p' as [|y q']; [reflexivity|].
    unfold kind_at. cbn [lookup].
    destruct (list_eq_dec ascii_dec x y) as [<- | Hxy].
    + rewrite entry_set_same, E. apply (IH n n' content data q' Hr Hw').
    + now rewrite (entry_set_other x y n' es Hxy).
Qed.

(** ** Facts about the changed flag *)

Lemma replace_flag (fs : node) (file_path : path) (changed : bool)
    (prefix spec suffix : text) :
  _replace fs file_path changed prefix spec suffix
  = match _replace fs file_path false prefix spec suffix with
    | Ok m => Ok (fst m, changed || snd m)
    | Raise e => Raise e
    end.
Proof.
  unfold _replace.
  destruct (resolve_relative_spec fs file_path spec) as [[n|]|e]; cbn [bind];
    [|now rewrite orb_false_r|reflexivity].
  destruct (negb (text_eqb n []) && negb (text_eqb n spec)); cbn [fst snd].
  - now rewrite orb_true_r.
  - now rewrite orb_false_r.
Qed.

Lemma replace_substituted (fs : node) (file_path : path)
    (prefix spec suffix : text) (m : text * bool) :
  _replace fs file_path false prefix spec suffix = Ok m ->
  snd m = substituted fs file_path spec.
Proof.
  unfold _replace, substituted.
  destruct (resolve_relative_spec fs file_path spec) as [[n|]|e]; cbn [bind];
    [|now intros [= <-]|discriminate].
  destruct (negb (text_eqb n []) && negb (text_eqb n spec));
    now intros [= <-].
Qed.

(** The flag that comes in is only passed on: the text does not depend
    on it, and it is set when a call of this pass was substituted. *)
Lemma join_pieces_flag (fs : node) (file_path : path) (ps : list piece) :
  forall changed,
    join_pieces fs file_path ps changed
    = match join_pieces fs file_path ps false with
      | Ok out =>
          Ok (fst out,
              changed
              || existsb (substituted fs file_path) (calls_of fs file_path ps))
      | Raise e => Raise e
      end.
Proof.
  induction ps as [|[c | pre sp suf] r IH]; intros changed.
  - cbn. now rewrite orb_false_r.
  - cbn [join_pieces calls_of]. rewrite (IH changed).
    destruct (join_pieces fs file_path r false) as [out|e]; cbn [bind];
      [|reflexivity].
    reflexivity.
  - cbn [join_pieces calls_of]. rewrite (replace_flag fs file_path changed).
    destruct (_replace fs file_path false pre sp suf) as [m|e] eqn:Em;
      cbn [bind]; [|reflexivity].
    pose proof (replace_substituted _ _ _ _ _ _ Em) as Hm.
    assert (exists r0, resolve_relative_spec fs file_path sp = Ok r0)
      as [r0 ->].
    { unfold _replace in Em.
      destruct (resolve_relative_spec fs file_path sp); [eauto|discriminate]. }
    cbn [fst snd existsb]. rewrite (IH (changed || snd m)), (IH (snd m)).
    destruct (join_pieces fs file_path r false) as [out|e]; cbn [bind];
      [|reflexivity].
    cbn [fst snd]. now rewrite Hm, <- orb_assoc.
Qed.

Lemma re_sub_flag (fs : node) (file_path : path) (pat : pattern)
    (content : text) (changed : bool) :
  re_sub fs file_path pat content changed
  = match re_sub fs file_path pat content false with
    | Ok out =>
        Ok (fst out,
            changed
            || existsb (substituted fs file_path)
                 (calls_of fs file_path (finditer pat 0 content)))
    | Raise e => Raise e
    end.
Proof. apply join_pieces_flag. Qed.

Lemma sub_each_flag (fs : node) (file_path : path) (regexes : list pattern) :
  forall content changed out,
    sub_each fs file_path regexes content changed = Ok out ->
    snd out
    = changed
      || existsb (substituted fs file_path)
           (resolver_calls fs file_path regexes content).
Proof.
  induction regexes as [|pat r IH]; intros content changed out H.
  - injection H as <-. cbn. now rewrite orb_false_r.
  - cbn [sub_each resolver_calls] in *. rewrite re_sub_flag in H.
    destruct (re_sub fs file_path pat content false) as [o|e]; cbn [bind] in H;
      [|discriminate].
    cbn [fst snd] in H. rewrite (IH _ _ _ H), existsb_app.
    now rewrite orb_assoc.
Qed.

(** ** C9 *)

(** C9: a file that is read and rewritten is written back exactly when
    the changed flag is set, and then holds the rewriter's output while
    every other path reads as before; with the flag not set the tree is
    the one before; and the flag is set exactly when the answer to some
    resolver call was put in place of the specifier. *)
Theorem C9_written_iff_changed
  (fs : node) (p : path) (content new_content : text) (changed : bool) :
  read_text fs p = Ok content ->
  update_specifiers fs content p = Ok (new_content, changed) ->
  changed = existsb (substituted fs p) (resolver_calls fs p REGEXES content)
  /\ (changed = false -> process_file fs p = Ok (fs, false))
  /\ (changed = true ->
      exists fs',
        process_file fs p = Ok (fs', true)
        /\ write_text fs p new_content = Ok fs'
        /\ read_text fs' p = Ok new_content
        /\ forall p', p' <> p -> read_text fs' p' = read_text fs p').
Proof.
  intros Hr Hu. split; [|split].
  - apply (sub_each_flag _ _ _ _ _ _ Hu).
  - intros ->. unfold process_file. rewrite Hr. cbn [bind]. now rewrite Hu.
  - intros ->.
    destruct (write_then_read p fs content new_content Hr) as (fs' & Hw & Hr').
    exists fs'. unfold process_file. rewrite Hr. cbn [bind]. rewrite Hu.
    cbn [bind fst snd].
    rewrite Hw. repeat split; auto.
    intros p' Hne. now apply (write_elsewhere p fs fs' content new_content).
Qed.

Lemma C9_written_iff_changed_witness :
  exists fs',
    process_file tree_with_source (at_ "/a/foo.ts") = Ok (fs', true)
    /\ write_text tree_with_source (at_ "/a/foo.ts")
         (txt "import { b } from './bar.js';") = Ok fs'
    /\ read_text fs' (at_ "/a/foo.ts") = Ok (txt "import { b } from './bar.js';")
    /\ forall p', p' <> at_ "/a/foo.ts" ->
                  read_text fs' p' = read_text tree_with_source p'.
Proof.
  apply (C9_written_iff_changed tree_with_source (at_ "/a/foo.ts")
           (txt "import { b } from './bar';")
           (txt "import { b } from './bar.js';") true).
  - reflexivity.
  - vm_compute. reflexivity.
  - reflexivity.
Defined.

(** ** C6 *)

(** C6, at a failing input: [/] matches neither rule, and the resolver
    does not return "no change": taking the suffix of the nameless root
    raises [ValueError], which nothing catches, so the rewriter and the
    processing of the file fail with it. *)
Theorem C6_root_specifier_raises :
  let fs := tree_root_import in
  let file_path := at_ "/proj/server/a.ts" in
  let spec := txt "/" in
  relative spec = true
  /\ contains "." (last_segment spec) = false
  /\ direct_rule fs (target_of file_path spec) = false
  /\ index_rule fs (target_of file_path spec) = false
  /\ resolve_relative_spec fs file_path spec = Raise ValueError
  /\ read_text fs file_path = Ok (txt "import r from '/'")
  /\ update_specifiers fs (txt "import r from '/'") file_path
     = Raise ValueError
  /\ process_file fs file_path = Raise ValueError.
Proof. repeat split; vm_compute; reflexivity. Qed.

(** The same slip rewrites a specifier that matches neither rule when
    the directory's name has a suffix. *)
Lemma trailing_slash_no_rule :
  let fs := Dir [dir "proj" [file "my.ts";
                             dir "my.app" [dir "server" [file "x.ts"]]]] in
  let file_path := at_ "/proj/my.app/server/x.ts" in
  let spec := txt "../" in
  direct_rule fs (target_of file_path spec) = false
  /\ index_rule fs (target_of file_path spec) = false
  /\ resolve_relative_spec fs file_path spec = Ok (Some (txt "../.js")).
Proof. repeat split; reflexivity. Qed.

(** ** Where the three scans capture *)

Lemma app_eq_length {X : Type} (a a' b b' : list X) :
  a ++ b = a' ++ b' -> length a = length a' -> a = a' /\ b = b'.
Proof.
  revert a'. induction a as [|x a IH]; intros [|x' a'] H Hl;
    try discriminate; [now split|].
  injection H as <- H. injection Hl as Hl.
  destruct (IH a' H Hl) as [-> ->]. now split.
Qed.

Lemma forallb_rev (p : ascii -> bool) (w : text) :
  forallb p w = true -> forallb p (rev w) = true.
Proof.
  rewrite !forallb_forall. intros H x Hx. apply H. now apply in_rev.
Qed.

(** Two texts that end in a run of the class and one more character:
    what stands in front of the run is the same in both. *)
Lemma before_run (p : ascii -> bool) (x x' w w' : text) (c c' q q' : ascii) :
  forallb p w = true -> forallb p w' = true ->
  p c = false -> p c' = false ->
  x ++ c :: w ++ [q] = x' ++ c' :: w' ++ [q'] ->
  c = c'.
Proof.
  intros Hw Hw' Hc Hc' H. apply (f_equal (@rev ascii)) in H.
  rewrite !rev_app_distr in H. cbn [rev app] in H.
  rewrite !rev_app_distr in H. cbn [rev app] in H.
  injection H as _ H. rewrite <- !app_assoc in H. cbn [app] in H.
  pose proof (takewhile_app p (rev w) c (rev x) (forallb_rev _ _ Hw) Hc)
    as [_ H1].
  pose proof (takewhile_app p (rev w') c' (rev x') (forallb_rev _ _ Hw') Hc')
    as [_ H2].
  rewrite H, H2 in H1. now injection H1.
Qed.

Lemma captures_export_static (T : text) (k : nat) (spec : text) :
  captures EXPORT_FROM_RE T k spec -> captures STATIC_IMPORT_RE T k spec.
Proof.
  intros (a & u & pre & suf & rest & -> & H & ->).
  apply match_export_static in H as (m & v & pre' & -> & -> & H).
  exists (a ++ m), v, pre', suf, rest. repeat split.
  - now rewrite app_assoc.
  - assumption.
  - rewrite !length_app. lia.
Qed.

(** The opening quote of a [from] clause is not that of an [import(]. *)
Lemma captures_static_dynamic (T : text) (k : nat) (spec spec' : text) :
  captures STATIC_IMPORT_RE T k spec ->
  captures DYNAMIC_IMPORT_RE T k spec' ->
  False.
Proof.
  intros (a & u & pre & suf & rest & Ea & H & Ek)
         (a' & u' & pre' & suf' & rest' & Ea' & H' & Ek').
  apply match_static_iff in H
    as (ws & q0 & q1 & Ep & _ & Eu & Hws & _ & _ & _ & _).
  apply match_dynamic_iff in H'
    as (ws' & q0' & q1' & Ep' & _ & Eu' & Hws' & _ & _ & _ & _).
  assert (a ++ pre = a' ++ pre') as E.
  { apply (app_eq_length (a ++ pre) (a' ++ pre')
             (spec ++ suf ++ rest) (spec' ++ suf' ++ rest')).
    - rewrite <- !app_assoc. rewrite <- Eu, <- Eu'. congruence.
    - rewrite !length_app. lia. }
  rewrite Ep, Ep' in E.
  change (txt "from") with (txt "fro" ++ ["m"%char]) in E.
  change (txt "import(") with (txt "import" ++ ["("%char]) in E.
  rewrite <- !app_assoc in E. cbn [app] in E.
  rewrite !app_assoc in E. rewrite <- !(app_assoc a), <- !(app_assoc a') in E.
  cbn [app] in E.
  assert ("m"%char = "("%char) as Habs; [|discriminate].
  apply (before_run is_space
           (a ++ txt "fro") (a' ++ txt "import") ws ws' _ _ q0 q0');
    auto.
  rewrite <- !app_assoc. cbn [app txt list_ascii_of_string] in *. exact E.
Qed.

(** Every offset the scan reports is one where the pattern matches. *)
Lemma finditer_captures (pat : pattern) (T : text) (u : text) :
  In pat REGEXES ->
  forall (a : text) (skip k : nat),
    T = a ++ u ->
    In k (spec_offsets (length a + skip) (finditer pat skip u)) ->
    exists spec, captures pat T k spec.
Proof.
  intros Hin. induction u as [|c t IH]; intros a skip k ET H; [destruct H|].
  assert (T = (a ++ [c]) ++ t) as ET' by (now rewrite <- app_assoc).
  cbn [finditer] in H. destruct skip as [|n].
  - destruct (match_at pat (c :: t)) as [[[[pre sp] suf] rest]|] eqn:E.
    + cbn [spec_offsets] in H. destruct H as [<- | H].
      * exists sp, a, (c :: t), pre, suf, rest. repeat split; auto.
      * apply (IH (a ++ [c]) (length pre + length sp + length suf - 1) k ET').
        assert (length pre <> 0) as Hp.
        { destruct (match_at_shape _ _ _ _ _ _ Hin E)
            as (_ & (p0 & q0 & -> & _) & _).
          rewrite length_app. cbn [length]. lia. }
        rewrite length_app. cbn [length].
        replace (length a + 1 + (length pre + length sp + length suf - 1))
          with (length a + 0 + length pre + length sp + length suf) by lia.
        exact H.
    + cbn [spec_offsets] in H.
      apply (IH (a ++ [c]) 0 k ET').
      rewrite length_app. cbn [length].
      replace (length a + 1 + 0) with (S (length a + 0)) by lia. exact H.
  - apply (IH (a ++ [c]) n k ET').
    rewrite length_app. cbn [length].
    replace (length a + 1 + n) with (length a + S n) by lia. exact H.
Qed.

Lemma scan_captures (pat : pattern) (T : text) (k : nat) :
  In pat REGEXES ->
  In k (spec_offsets 0 (finditer pat 0 T)) ->
  exists spec, captures pat T k spec.
Proof.
  intros Hin H. now apply (finditer_captures pat T T Hin [] 0 k).
Qed.

(** ** Facts about one pass *)

Lemma first_quote (x x' y y' : text) (q q' : ascii) :
  forallb not_quote x = true -> forallb not_quote x' = true ->
  is_quote q = true -> is_quote q' = true ->
  x ++ q :: y = x' ++ q' :: y' ->
  x = x' /\ q = q' /\ y = y'.
Proof.
  intros Hx Hx' Hq Hq' E.
  destruct (takewhile_app not_quote x q y Hx (quote_not_not_quote _ Hq))
    as [T1 D1].
  destruct (takewhile_app not_quote x' q' y' Hx' (quote_not_not_quote _ Hq'))
    as [T2 D2].
  rewrite E in T1, D1. rewrite T2 in T1. rewrite D2 in D1.
  injection D1 as -> ->. now subst.
Qed.

Lemma spaces_quote_free (ws : text) :
  forallb is_space ws = true -> forallb not_quote ws = true.
Proof.
  rewrite !forallb_forall. intros H c Hc. unfold not_quote.
  now rewrite (space_not_quote _ (H c Hc)).
Qed.

Lemma spec_ok_quote_free (spec : text) :
  spec_ok spec = true -> forallb not_quote spec = true.
Proof. intros H. now apply spec_ok_inv in H as (c & t & _ & _ & H). Qed.

Lemma rstrip_quote_free (spec : text) :
  forallb not_quote spec = true -> forallb not_quote (rstrip "/" spec) = true.
Proof.
  intros H. unfold rstrip. apply forallb_rev.
  apply forallb_rev in H. revert H.
  induction (rev spec) as [|c r IH]; [auto|]. cbn [forallb dropwhile].
  intros H. apply andb_true_iff in H as [Hc Hr].
  destruct (Ascii.eqb "/" c); [auto|]. cbn [forallb]. now rewrite Hc, Hr.
Qed.

Section OnePass.
Variable fs : node.
Variable file_path : path.

Local Abbreviation rho := (resolve_relative_spec fs file_path).

(** What the resolver returns for a captured specifier can be captured
    in its place. *)
Lemma resolved_spec_ok (spec n : text) :
  spec_ok spec = true -> rho spec = Ok (Some n) -> spec_ok n = true.
Proof.
  intros Hok H. pose proof (spec_ok_quote_free _ Hok) as Hq.
  apply resolve_Some_inv in H as [_ [-> | ->]].
  - apply spec_ok_inv in Hok as (c & t & -> & Hc & Hall).
    cbn [app spec_ok]. rewrite Hc. cbn [andb].
    change (c :: t ++ txt ".js") with ((c :: t) ++ txt ".js").
    now rewrite forallb_app, Hall.
  - pose proof (rstrip_quote_free _ Hq) as Hr.
    apply spec_ok_inv in Hok as (c & t & E & Hc & Hall).
    destruct (rstrip "/" spec) as [|c' r'] eqn:Er.
    + reflexivity.
    + assert (c' = c) as ->.
      { subst spec. unfold rstrip in Er.
        assert (forall (l : text) x r,
                  rev (dropwhile (Ascii.eqb "/") l) = x :: r ->
                  exists l', rev l = x :: l') as Haux.
        { intros l. induction l as [|y l IHl]; [discriminate|].
          cbn [dropwhile]. destruct (Ascii.eqb "/" y).
          - intros x r0 Hx. destruct (IHl _ _ Hx) as [l' Hl'].
            cbn [rev]. rewrite Hl'. now eexists.
          - intros x r0 Hx. now exists r0. }
        destruct (Haux _ _ _ Er) as [l' Hl'].
        rewrite rev_involutive in Hl'. now injection Hl'. }
      cbn [app spec_ok]. rewrite Hc. cbn [andb].
      change (c :: r' ++ txt "/index.js") with ((c :: r') ++ txt "/index.js").
      now rewrite forallb_app, Hr.
Qed.

Lemma replace_normal (changed : bool) (prefix spec suffix : text) :
  _replace fs file_path changed prefix spec suffix
  = match rho spec with
    | Ok (Some n) => Ok (prefix ++ n ++ suffix, true)
    | Ok None => Ok (prefix ++ spec ++ suffix, changed)
    | Raise e => Raise e
    end.
Proof.
  unfold _replace. destruct (rho spec) as [[n|]|e] eqn:E; cbn [bind]; auto.
  destruct (resolve_Some_fresh _ _ _ _ E) as [H1 H2].
  destruct (text_eqb n []) eqn:E1; [apply text_eqb_eq in E1; contradiction|].
  destruct (text_eqb n spec) eqn:E2; [apply text_eqb_eq in E2; contradiction|].
  reflexivity.
Qed.

Lemma rewrites_app (x T T' : text) :
  rewrites fs file_path T T' -> rewrites fs file_path (x ++ T) (x ++ T').
Proof. intros H. induction x; cbn [app]; [auto|now constructor]. Qed.

(** A pass only replaces captured specifiers by the resolver's answers. *)
Lemma pass_rewrites (pat : pattern) :
  In pat REGEXES ->
  forall n T changed out,
    length T <= n ->
    re_sub fs file_path pat T changed = Ok out ->
    rewrites fs file_path T (fst out).
Proof.
  intros Hin. induction n as [|n IH]; intros T changed out Hlen H.
  - destruct T; [|cbn in Hlen; lia]. injection H as <-. constructor.
  - destruct T as [|c t]; [injection H as <-; constructor|].
    destruct (match_at pat (c :: t)) as [[[[pre sp] suf] rest]|] eqn:E.
    + rewrite (re_sub_hit fs file_path pat Hin _ _ _ _ _ changed E) in H.
      destruct (match_at_shape _ _ _ _ _ _ Hin E)
        as (Eu & (p0 & q0 & -> & Hq0) & Hok & (q1 & -> & Hq1)).
      rewrite Eu. rewrite replace_normal in H.
      assert (length rest <= n) as Hrest.
      { apply (f_equal (@length ascii)) in Eu. rewrite !length_app in Eu.
        cbn [length] in *. lia. }
      destruct (rho sp) as [[m|]|e] eqn:Er; cbn [bind fst snd] in H;
        [| |discriminate].
      * destruct (re_sub fs file_path pat rest true) as [o|] eqn:Eo;
          [|discriminate].
        injection H as <-. cbn [fst].
        rewrite <- !app_assoc. apply rewrites_app. cbn [app].
        apply rw_spec; auto. apply (IH _ _ _ Hrest Eo).
      * destruct (re_sub fs file_path pat rest changed) as [o|] eqn:Eo;
          [|discriminate].
        injection H as <-. cbn [fst].
        rewrite <- !app_assoc. do 4 apply rewrites_app.
        apply (IH _ _ _ Hrest Eo).
    + rewrite (re_sub_keep fs file_path pat _ _ changed E) in H.
      destruct (re_sub fs file_path pat t changed) as [o|] eqn:Eo;
        [|discriminate].
      injection H as <-. cbn [fst]. constructor.
      apply (IH _ _ _ (le_S_n _ _ Hlen) Eo).
Qed.

(** Going back through a rewriting along text that holds no quote. *)
Lemma rewrites_back (x : text) :
  forallb not_quote x = true ->
  forall T y', rewrites fs file_path T (x ++ y') ->
               exists y, T = x ++ y /\ rewrites fs file_path y y'.
Proof.
  induction x as [|c x IH]; intros Hx T y' H; [now exists T|].
  cbn [forallb] in Hx. apply andb_true_iff in Hx as [Hc Hx].
  cbn [app] in H.
  inversion H as [ | c0 t0 t0' Hrw | q0 q1 sp sp' r r' Hq0 Hq1 Hok Hrho Hrw];
    subst.
  - destruct (IH Hx _ _ Hrw) as (y & -> & Hy). now exists y.
  - unfold not_quote in Hc. now rewrite Hq0 in Hc.
Qed.

Lemma rewrites_head (T t' : text) (c : ascii) :
  rewrites fs file_path T (c :: t') -> exists t, T = c :: t.
Proof. intros H. inversion H; subst; eauto. Qed.
End OnePass.

Lemma ends_clean_js (z : text) : ends_clean (z ++ txt ".js") = true.
Proof. unfold ends_clean. now rewrite rev_app_distr. Qed.

Lemma resolved_ends_clean (fs : node) (file_path : path) (spec n : text) :
  resolve_relative_spec fs file_path spec = Ok (Some n) ->
  ends_clean n = true.
Proof.
  intros H. apply resolve_Some_ends_js in H.
  apply endswith_inv in H as [z ->]. apply ends_clean_js.
Qed.

Lemma cand_app (pat : pattern) (x T spec : text) :
  cand pat T spec -> cand pat (x ++ T) spec.
Proof.
  intros (a & u & pre & suf & rest & -> & H).
  exists (x ++ a), u, pre, suf, rest. now rewrite app_assoc.
Qed.

Lemma cand_head (pat : pattern) (T prefix spec suffix rest : text) :
  match_at pat T = Some (prefix, spec, suffix, rest) -> cand pat T spec.
Proof. intros H. now exists [], T, prefix, suffix, rest. Qed.

(** The static and the dynamic pattern: a literal without quotes, then
    blanks, then the quoted specifier; what they capture never ends the
    way their own prefix does. *)
Section LiteralFirst.
Variable fs : node.
Variable file_path : path.
Variable pat : pattern.
Variable P : text.
Variable lo : nat.
Hypothesis Hin : In pat REGEXES.
Hypothesis Hlit : literal_first pat P lo.
Hypothesis HPq : forallb not_quote P = true.
Hypothesis HPne : P <> [].
Hypothesis HPend :
  forall x ws, forallb is_space ws = true -> lo <= length ws ->
               ends_clean (x ++ P ++ ws) = false.

Local Abbreviation rho := (resolve_relative_spec fs file_path).

Lemma match_nil : match_at pat [] = None.
Proof.
  destruct (match_at pat []) as [[[[pre sp] suf] rest]|] eqn:E; [|reflexivity].
  apply (clause_iff _ _ _ Hlit) in E
    as (ws & q0 & q1 & -> & -> & Eu & _).
  destruct P; [contradiction|discriminate].
Qed.

Lemma match_not_at_quote (q : ascii) (r : text) :
  is_quote q = true -> match_at pat (q :: r) = None.
Proof.
  intros Hq.
  destruct (match_at pat (q :: r)) as [[[[pre sp] suf] rest]|] eqn:E;
    [|reflexivity].
  apply (clause_iff _ _ _ Hlit) in E
    as (ws & q0 & q1 & -> & -> & Eu & _).
  destruct P as [|c P']; [contradiction|].
  injection Eu as -> _. cbn [forallb] in HPq.
  apply andb_true_iff in HPq as [Hc _].
  unfold not_quote in Hc. now rewrite Hq in Hc.
Qed.

(** A match in front of whose first quote the text [x] stands. *)
Lemma match_first_quote (x W : text) (q : ascii)
    (prefix spec suffix rest : text) :
  forallb not_quote x = true -> is_quote q = true ->
  match_at pat (x ++ q :: W) = Some (prefix, spec, suffix, rest) ->
  exists ws q1,
    x = P ++ ws /\ forallb is_space ws = true /\ lo <= length ws
    /\ prefix = x ++ [q] /\ suffix = [q1] /\ W = spec ++ q1 :: rest
    /\ spec_ok spec = true /\ is_quote q1 = true.
Proof.
  intros Hx Hq E.
  apply (clause_iff _ _ _ Hlit) in E
    as (ws & q0 & q1 & -> & -> & Eu & Hws & Hlo & Hq0 & Hq1 & Hok).
  rewrite <- !app_assoc in Eu. cbn [app] in Eu. rewrite app_assoc in Eu.
  assert (forallb not_quote (P ++ ws) = true) as HPw.
  { rewrite forallb_app, HPq. now apply spaces_quote_free. }
  destruct (first_quote _ _ _ _ _ _ Hx HPw Hq Hq0 Eu) as (-> & -> & ->).
  exists ws, q1. repeat split; auto. now rewrite <- app_assoc.
Qed.

(** A match at the head of the text after a rewriting comes from a match
    at the head of the text before, of the same specifier or of the one
    it replaces. *)
Lemma head_back (T T' prefix spec' suffix rest' : text) :
  rewrites fs file_path T T' ->
  match_at pat T' = Some (prefix, spec', suffix, rest') ->
  exists spec rest,
    match_at pat T = Some (prefix, spec, suffix, rest)
    /\ (spec = spec' \/ rho spec = Ok (Some spec')).
Proof.
  intros Hrw E.
  pose proof E as E'.
  apply (clause_iff _ _ _ Hlit) in E'
    as (ws & q0 & q1 & -> & -> & -> & Hws & Hlo & Hq0 & Hq1 & Hok).
  assert (forallb not_quote (P ++ ws) = true) as HPw.
  { rewrite forallb_app, HPq. now apply spaces_quote_free. }
  rewrite <- !app_assoc in Hrw. cbn [app] in Hrw. rewrite app_assoc in Hrw.
  destruct (rewrites_back fs file_path _ HPw _ _ Hrw) as (y & -> & Hy).
  inversion Hy as [ | c0 t0 t0' Hrw0 | q0' q1' sp sp' r r' Hq0' Hq1' Hok' Hrho Hrw0];
    subst.
  - destruct (rewrites_back fs file_path _ (spec_ok_quote_free _ Hok) _ _ Hrw0)
      as (y2 & -> & Hy2).
    destruct (rewrites_head _ _ _ _ _ Hy2) as [t4 ->].
    exists spec', t4. split; [|now left].
    apply (clause_iff _ _ _ Hlit). exists ws, q0, q1.
    repeat split; auto. now rewrite <- !app_assoc.
  - assert (forallb not_quote sp' = true) as Hsp'
        by (apply spec_ok_quote_free, (resolved_spec_ok fs file_path sp); auto).
    match goal with
    | Heq : sp' ++ _ :: _ = spec' ++ _ :: _ |- _ =>
        destruct (first_quote _ _ _ _ _ _ Hsp' (spec_ok_quote_free _ Hok)
                    Hq1' Hq1 Heq) as (-> & -> & ->)
    end.
    exists sp, r. split; [|now right].
    apply (clause_iff _ _ _ Hlit). exists ws, q0, q1.
    repeat split; auto. now rewrite <- !app_assoc.
Qed.

(** Every specifier that can be captured after a rewriting could be
    captured before, itself or the specifier it replaces. *)
Lemma cand_back (T T' : text) :
  rewrites fs file_path T T' ->
  forall spec',
    cand pat T' spec' ->
    cand pat T spec' \/ exists spec, cand pat T spec /\ rho spec = Ok (Some spec').
Proof.
  intros Hrw. induction Hrw as
    [ | c t t' Hrw IH | q0 q1 sp sp' r r' Hq0 Hq1 Hok Hrho Hrw IH ];
    intros spec' (a & u & pre & suf & rest & Ea & E).
  - destruct a; [|discriminate]. cbn [app] in Ea. subst u.
    now rewrite match_nil in E.
  - destruct a as [|c' a].
    + cbn [app] in Ea. subst u.
      destruct (head_back (c :: t) (c :: t') _ _ _ _
                  (rw_keep fs file_path c t t' Hrw) E)
        as (sp & rest0 & E0 & [-> | Hr]).
      * left. eapply cand_head; eassumption.
      * right. exists sp. split; [eapply cand_head; eassumption|assumption].
    + injection Ea as <- ->.
      assert (cand pat (a ++ u) spec') as Hc
          by (now exists a, u, pre, suf, rest).
      destruct (IH _ Hc) as [H | (sp & H & Hr)].
      * left. apply (cand_app pat [c] t spec' H).
      * right. exists sp. split; [apply (cand_app pat [c] t sp H)|assumption].
  - assert (forallb not_quote sp' = true) as Hsp'
        by (apply spec_ok_quote_free, (resolved_spec_ok fs file_path sp); auto).
    destruct a as [|c' a].
    + cbn [app] in Ea. subst u. now rewrite (match_not_at_quote _ _ Hq0) in E.
    + injection Ea as <- Ea.
      apply app_eq_app in Ea as [l [[-> ->] | [-> Ea]]].
      * (* the match starts inside the new specifier *)
        destruct l as [|c l]; cbn [app] in E.
        -- now rewrite (match_not_at_quote _ _ Hq1) in E.
        -- exfalso.
           rewrite forallb_app in Hsp'. apply andb_true_iff in Hsp' as [_ Hl].
           change (c :: l ++ q1 :: r') with ((c :: l) ++ q1 :: r') in E.
           destruct (match_first_quote _ _ _ _ _ _ _ Hl Hq1 E)
             as (ws & q2 & El & Hws & Hlo & _).
           pose proof (resolved_ends_clean _ _ _ _ Hrho) as Hclean.
           rewrite El in Hclean. now rewrite (HPend a ws Hws Hlo) in Hclean.
      * destruct l as [|c l]; cbn [app] in Ea.
        -- subst u. now rewrite (match_not_at_quote _ _ Hq1) in E.
        -- injection Ea as <- ->.
           assert (cand pat (l ++ u) spec') as Hc
               by (now exists l, u, pre, suf, rest).
           destruct (IH _ Hc) as [H | (sp0 & H & Hr)].
           ++ left. apply (cand_app pat (q0 :: sp ++ [q1]) r spec') in H.
              cbn [app] in H. rewrite <- app_assoc in H. exact H.
           ++ right. exists sp0. split; [|assumption].
              apply (cand_app pat (q0 :: sp ++ [q1]) r sp0) in H.
              cbn [app] in H. rewrite <- app_assoc in H. exact H.
Qed.
(** A clause whose specifier the resolver leaves alone, in front of a
    text where all is settled: all is settled. *)
Lemma settled_clause (ws Y Z : text) (q0 q1 : ascii) :
  forallb is_space ws = true -> lo <= length ws ->
  is_quote q0 = true -> is_quote q1 = true ->
  forallb not_quote Y = true -> ends_clean Y = true ->
  rho Y = Ok None ->
  settled fs file_path pat Z ->
  settled fs file_path pat ((P ++ ws ++ [q0]) ++ Y ++ [q1] ++ Z).
Proof.
  intros Hws Hlo Hq0 Hq1 HY Hclean HrY HZ s'
         (a & u & pre & suf & rest & Ea & E).
  assert (forallb not_quote (P ++ ws) = true) as HPw.
  { rewrite forallb_app, HPq. now apply spaces_quote_free. }
  rewrite <- !app_assoc in Ea. cbn [app] in Ea. rewrite app_assoc in Ea.
  apply app_eq_app in Ea as [l [[Ex ->] | [-> Ea]]].
  - (* the match starts in front of the opening quote *)
    rewrite Ex, forallb_app in HPw. apply andb_true_iff in HPw as [_ Hl].
    destruct (match_first_quote _ _ _ _ _ _ _ Hl Hq0 E)
      as (ws2 & q2 & _ & _ & _ & _ & _ & EW & Hok & Hq2).
    destruct (first_quote _ _ _ _ _ _ HY (spec_ok_quote_free _ Hok) Hq1 Hq2 EW)
      as (<- & _ & _).
    exact HrY.
  - destruct l as [|c l]; cbn [app] in Ea.
    + subst u. now rewrite (match_not_at_quote _ _ Hq0) in E.
    + injection Ea as <- Ea.
      apply app_eq_app in Ea as [l2 [[EY ->] | [-> Ea]]].
      * (* the match starts inside the specifier *)
        destruct l2 as [|c2 l2]; cbn [app] in E.
        -- now rewrite (match_not_at_quote _ _ Hq1) in E.
        -- exfalso.
           rewrite EY, forallb_app in HY. apply andb_true_iff in HY as [_ Hl].
           change (c2 :: l2 ++ q1 :: Z) with ((c2 :: l2) ++ q1 :: Z) in E.
           destruct (match_first_quote _ _ _ _ _ _ _ Hl Hq1 E)
             as (ws2 & q2 & El & Hws2 & Hlo2 & _).
           rewrite EY, El in Hclean.
           now rewrite (HPend l ws2 Hws2 Hlo2) in Hclean.
      * destruct l2 as [|c2 l2]; cbn [app] in Ea.
        -- subst u. now rewrite (match_not_at_quote _ _ Hq1) in E.
        -- injection Ea as <- ->. apply HZ.
           now exists l2, u, pre, suf, rest.
Qed.

(** After a pass over a text none of whose specifiers ends the way the
    prefix does, every specifier the pattern can capture is one the
    resolver leaves alone. *)
Lemma pass_settles :
  forall n T changed out,
    length T <= n ->
    (forall s, cand pat T s -> ends_clean s = true) ->
    re_sub fs file_path pat T changed = Ok out ->
    settled fs file_path pat (fst out).
Proof.
  induction n as [|n IH]; intros T changed out Hlen Htidy H.
  - destruct T; [|cbn in Hlen; lia]. injection H as <-.
    intros s' (a & u & pre & suf & rest & Ea & E).
    destruct a; [|discriminate]. cbn [fst app] in Ea. subst u.
    now rewrite match_nil in E.
  - destruct T as [|c t].
    { injection H as <-.
      intros s' (a & u & pre & suf & rest & Ea & E).
      destruct a; [|discriminate]. cbn [fst app] in Ea. subst u.
      now rewrite match_nil in E. }
    destruct (match_at pat (c :: t)) as [[[[pre sp] suf] rest]|] eqn:E.
    + rewrite (re_sub_hit fs file_path pat Hin _ _ _ _ _ changed E) in H.
      pose proof (Htidy sp (cand_head _ _ _ _ _ _ E)) as Hclean.
      pose proof E as E'.
      apply (clause_iff _ _ _ Hlit) in E'
        as (ws & q0 & q1 & -> & -> & Eu & Hws & Hlo & Hq0 & Hq1 & Hok).
      assert (length rest <= n) as Hrest.
      { apply (f_equal (@length ascii)) in Eu. rewrite !length_app in Eu.
        cbn [length] in *. lia. }
      assert (forall s, cand pat rest s -> ends_clean s = true) as Htidy'.
      { intros s Hs. apply Htidy. rewrite Eu.
        rewrite !app_assoc. now apply cand_app. }
      rewrite replace_normal in H.
      destruct (rho sp) as [[m|]|e] eqn:Er; cbn [bind fst snd] in H;
        [| |discriminate].
      * destruct (re_sub fs file_path pat rest true) as [o|] eqn:Eo;
          [|discriminate].
        injection H as <-. cbn [fst].
        rewrite <- (app_assoc (P ++ ws ++ [q0]) (m ++ [q1]) (fst o)).
        rewrite <- (app_assoc m [q1] (fst o)).
        apply settled_clause; auto.
        -- apply spec_ok_quote_free, (resolved_spec_ok fs file_path sp); auto.
        -- apply (resolved_ends_clean _ _ _ _ Er).
        -- apply (resolve_twice _ _ _ _ _ _ Er).
        -- apply (IH _ _ _ Hrest Htidy' Eo).
      * destruct (re_sub fs file_path pat rest changed) as [o|] eqn:Eo;
          [|discriminate].
        injection H as <-. cbn [fst].
        rewrite <- (app_assoc (P ++ ws ++ [q0]) (sp ++ [q1]) (fst o)).
        rewrite <- (app_assoc sp [q1] (fst o)).
        apply settled_clause; auto.
        -- now apply spec_ok_quote_free.
        -- apply (IH _ _ _ Hrest Htidy' Eo).
    + rewrite (re_sub_keep fs file_path pat _ _ changed E) in H.
      destruct (re_sub fs file_path pat t changed) as [o|] eqn:Eo;
        [|discriminate].
      injection H as <-. cbn [fst].
      pose proof (pass_rewrites fs file_path pat Hin _ _ _ _ (le_n _) Eo)
        as Hrw.
      intros s' (a & u & pre & suf & rest & Ea & E').
      destruct a as [|c' a].
      * cbn [app] in Ea. subst u.
        destruct (head_back _ _ _ _ _ _ (rw_keep fs file_path c _ _ Hrw) E')
          as (s0 & r0 & E0 & _).
        rewrite E0 in E. discriminate.
      * injection Ea as <- Ea.
        assert (settled fs file_path pat (fst o)) as Hs.
        { apply (IH t changed o (le_S_n _ _ Hlen)); [|exact Eo].
          intros s Hs. apply Htidy. now apply (cand_app pat [c] t). }
        apply Hs. exists a, u, pre, suf, rest. now split.
Qed.
End LiteralFirst.

(** A text where all is settled is left as it is, and so is the flag. *)
Lemma settled_fixpoint (fs : node) (file_path : path) (pat : pattern) :
  In pat REGEXES ->
  forall n T changed,
    length T <= n ->
    settled fs file_path pat T ->
    re_sub fs file_path pat T changed = Ok (T, changed).
Proof.
  intros Hin. induction n as [|n IH]; intros T changed Hlen Hs.
  - destruct T; [reflexivity|cbn in Hlen; lia].
  - destruct T as [|c t]; [reflexivity|].
    destruct (match_at pat (c :: t)) as [[[[pre sp] suf] rest]|] eqn:E.
    + rewrite (re_sub_hit fs file_path pat Hin _ _ _ _ _ changed E).
      rewrite replace_normal, (Hs sp (cand_head _ _ _ _ _ _ E)).
      cbn [bind fst snd].
      destruct (match_at_shape _ _ _ _ _ _ Hin E)
        as (Eu & (p0 & q0 & Ep & _) & _ & _).
      assert (length rest <= n) as Hrest.
      { apply (f_equal (@length ascii)) in Eu. rewrite Ep in Eu.
        rewrite !length_app in Eu. cbn [length] in *. lia. }
      rewrite (IH rest changed Hrest).
      * cbn [bind fst snd]. now rewrite Eu, <- !app_assoc.
      * intros s H. apply Hs. rewrite Eu, !app_assoc. now apply cand_app.
    + rewrite (re_sub_keep fs file_path pat _ _ changed E).
      rewrite (IH t changed (le_S_n _ _ Hlen)); [reflexivity|].
      intros s H. apply Hs. now apply (cand_app pat [c] t).
Qed.

(** ** C8 *)

Lemma spec_ok_starts (spec : text) :
  spec_ok spec = true ->
  startswith spec (txt ".") || startswith spec (txt "/") = true.
Proof.
  intros H. apply spec_ok_inv in H as (c & t & -> & Hc & _).
  unfold startswith. cbn [txt list_ascii_of_string strip_prefix].
  unfold is_dot, is_slash in Hc.
  rewrite (Ascii.eqb_sym "." c), (Ascii.eqb_sym "/" c).
  destruct (Ascii.eqb c "."), (Ascii.eqb c "/"); auto.
Qed.

Lemma finditer_specs_ok (pat : pattern) (T : text) :
  In pat REGEXES ->
  forall skip spec,
    In spec (specs_of (finditer pat skip T)) -> spec_ok spec = true.
Proof.
  intros Hin. induction T as [|c t IH]; intros skip spec H; [destruct H|].
  cbn [finditer] in H. destruct skip as [|n]; [|eauto].
  destruct (match_at pat (c :: t)) as [[[[pre sp] suf] rest]|] eqn:E.
  - destruct H as [<- | H]; [|eauto].
    now destruct (match_at_shape _ _ _ _ _ _ Hin E) as (_ & _ & Hok & _).
  - eauto.
Qed.

Lemma calls_of_specs (fs : node) (file_path : path) (ps : list piece)
    (spec : text) :
  In spec (calls_of fs file_path ps) -> In spec (specs_of ps).
Proof.
  induction ps as [|[c | pre sp suf] r IH]; cbn; auto.
  intros [H | H]; [now left|right].
  destruct (resolve_relative_spec fs file_path sp); [auto|destruct H].
Qed.

Lemma resolver_calls_ok (fs : node) (file_path : path)
    (regexes : list pattern) :
  incl regexes REGEXES ->
  forall content spec,
    In spec (resolver_calls fs file_path regexes content) ->
    spec_ok spec = true.
Proof.
  induction regexes as [|pat r IH]; intros Hincl content spec H;
    [destruct H|].
  cbn [resolver_calls] in H. apply in_app_or in H as [H | H].
  - apply calls_of_specs in H.
    apply (finditer_specs_ok pat content (Hincl pat (or_introl eq_refl)) 0).
    exact H.
  - destruct (re_sub fs file_path pat content false) as [out|]; [|destruct H].
    apply (IH (fun x Hx => Hincl x (or_intror Hx)) (fst out)). exact H.
Qed.

(** C8, counterexample: [.hidden/mod] begins with none of the three
    markers, is handed to the resolver all the same, and is rewritten. *)
Lemma C8_fails_on_dot_name : ~ C8_as_stated.
Proof.
  intros H.
  specialize (H tree_hidden (at_ "/a/foo.ts")
                (txt "import m from '.hidden/mod'") (txt ".hidden/mod")).
  assert (relative (txt ".hidden/mod") = true) as Hr;
    [apply H; vm_compute; auto | vm_compute in Hr; discriminate].
Qed.

Example dot_name_rewritten :
  update_specifiers tree_hidden (txt "import m from '.hidden/mod'")
    (at_ "/a/foo.ts")
  = Ok (txt "import m from '.hidden/mod.js'", true).
Proof. vm_compute. reflexivity. Qed.

(** The three passes, one rewriting after the other. *)
Lemma update_rewrites (fs : node) (file_path : path)
    (content out : text) (changed : bool) :
  update_specifiers fs content file_path = Ok (out, changed) ->
  exists T1 T2,
    rewrites fs file_path content T1
    /\ rewrites fs file_path T1 T2
    /\ rewrites fs file_path T2 out.
Proof.
  intros H. unfold update_specifiers, REGEXES in H. cbn [sub_each] in H.
  destruct (re_sub fs file_path STATIC_IMPORT_RE content false)
    as [o1|] eqn:E1; [|discriminate].
  cbn [bind] in H.
  destruct (re_sub fs file_path DYNAMIC_IMPORT_RE (fst o1) (snd o1))
    as [o2|] eqn:E2; [|discriminate].
  cbn [bind] in H.
  destruct (re_sub fs file_path EXPORT_FROM_RE (fst o2) (snd o2))
    as [o3|] eqn:E3; [|discriminate].
  cbn [bind] in H. injection H as <- _.
  exists (fst o1), (fst o2). repeat split.
  - apply (pass_rewrites fs file_path STATIC_IMPORT_RE) with
      (n := length content) (changed := false); cbn; auto.
  - apply (pass_rewrites fs file_path DYNAMIC_IMPORT_RE) with
      (n := length (fst o1)) (changed := snd o1); cbn; auto.
  - apply (pass_rewrites fs file_path EXPORT_FROM_RE) with
      (n := length (fst o2)) (changed := snd o2); cbn; auto.
Qed.

(** C8 (amended): the rewriter hands to the resolver only captured
    specifiers that begin with a dot or a slash; a specifier that begins
    with neither, a bare package name for one, never enters it; and the
    text it returns is the text it got with nothing but quoted
    specifiers of that kind replaced, each by what the resolver returned
    for it. *)
Theorem C8_calls_start_with_dot_or_slash
  (fs : node) (file_path : path) (content : text) :
  (forall spec,
     In spec (resolver_calls fs file_path REGEXES content) ->
     startswith spec (txt ".") || startswith spec (txt "/") = true)
  /\ (forall out changed,
        update_specifiers fs content file_path = Ok (out, changed) ->
        exists T1 T2,
          rewrites fs file_path content T1
          /\ rewrites fs file_path T1 T2
          /\ rewrites fs file_path T2 out).
Proof.
  split.
  - intros spec H. apply spec_ok_starts.
    apply (resolver_calls_ok fs file_path REGEXES (incl_refl _) content spec H).
  - intros out changed H. exact (update_rewrites _ _ _ _ _ H).
Qed.

Lemma C8_calls_start_with_dot_or_slash_witness :
  startswith (txt "./bar") (txt ".") || startswith (txt "./bar") (txt "/")
  = true.
Proof.
  apply (proj1 (C8_calls_start_with_dot_or_slash tree_scenarios
                  (at_ "/a/foo.ts") (txt "import { b } from './bar';"))
           (txt "./bar")).
  vm_compute. auto.
Defined.

Example bare_name_not_called :
  resolver_calls tree_scenarios (at_ "/a/foo.ts") REGEXES
    (txt "import _ from 'lodash'")
  = [].
Proof. vm_compute. reflexivity. Qed.

(** ** C7 *)

(** C7, counterexample: in an export-from clause the specifier at
    offset 19 is captured by the static scan and by the export scan. *)
Lemma C7_fails_on_export_from : ~ C7_as_stated.
Proof.
  intros H.
  destruct (H (txt "export { x } from './bar'") 19) as [H1 _].
  destruct H1 as [_ H1]; [vm_compute; auto|].
  apply H1. vm_compute. auto.
Qed.

(** The resolver is called twice for that one specifier: on what the
    source has, and on what the static scan made of it. *)
Example export_from_resolved_twice :
  resolver_calls tree_scenarios (at_ "/a/foo.ts") REGEXES
    (txt "export { x } from './bar'")
  = [txt "./bar"; txt "./bar.js"].
Proof. vm_compute. reflexivity. Qed.

(** *** One run, stretch by stretch *)

Lemma stretches_app_quote (x : text) (q : ascii) (r : text) :
  forallb not_quote x = true -> is_quote q = true ->
  stretches (x ++ q :: r) = x :: stretches r.
Proof.
  intros Hx Hq. induction x as [|c x IH]; cbn [app stretches].
  - now rewrite Hq.
  - cbn [forallb] in Hx. apply andb_prop in Hx as [Hc Hx].
    unfold not_quote in Hc. destruct (is_quote c); [discriminate|].
    now rewrite (IH Hx).
Qed.

Lemma quotes_of_none (x : text) :
  forallb not_quote x = true -> quotes_of x = [].
Proof.
  induction x as [|c x IH]; [reflexivity|]. cbn [forallb quotes_of filter].
  intros H. apply andb_prop in H as [Hc Hx].
  unfold not_quote in Hc. destruct (is_quote c); [discriminate|].
  exact (IH Hx).
Qed.

Lemma quotes_of_app (x y : text) :
  quotes_of (x ++ y) = quotes_of x ++ quotes_of y.
Proof. apply filter_app. Qed.

(** The answer of the resolver is left alone when it comes back. *)
Lemma once_trans (fs : node) (file_path : path) (a b c : text) :
  once fs file_path a b -> once fs file_path b c -> once fs file_path a c.
Proof.
  intros [<- | Hab] Hbc; [assumption|].
  destruct Hbc as [<- | Hbc]; [now right|].
  rewrite (resolve_twice _ _ _ _ _ _ Hab) in Hbc. discriminate.
Qed.

Lemma once_all_trans (fs : node) (file_path : path) (l1 l2 l3 : list text) :
  Forall2 (once fs file_path) l1 l2 ->
  Forall2 (once fs file_path) l2 l3 ->
  Forall2 (once fs file_path) l1 l3.
Proof.
  intros H. revert l3. induction H as [|a b l1 l2 Hab H12 IH]; intros l3 H23.
  - inversion H23. constructor.
  - inversion H23 as [|b' c l2' l3' Hbc H23' E1 E2]; subst.
    constructor; [exact (once_trans _ _ _ _ _ Hab Hbc)|now apply IH].
Qed.

Lemma once_all_refl (fs : node) (file_path : path) (l : list text) :
  Forall2 (once fs file_path) l l.
Proof. induction l; constructor; [now left|assumption]. Qed.

(** A rewriting keeps the quotes and the stretch before the first one,
    and puts answers of the resolver in place of some of the others. *)
Lemma rewrites_stretches (fs : node) (file_path : path) (T T' : text) :
  rewrites fs file_path T T' ->
  quotes_of T = quotes_of T'
  /\ exists h tl tl',
       stretches T = h :: tl /\ stretches T' = h :: tl'
       /\ Forall2 (once fs file_path) tl tl'.
Proof.
  intros H. induction H as
    [ | c t t' Hrw IH | q0 q1 sp sp' r r' Hq0 Hq1 Hok Hrho Hrw IH ].
  - split; [reflexivity|]. exists [], [], []. repeat split. constructor.
  - destruct IH as (Eq & h & tl & tl' & E & E' & HF).
    split; [cbn [quotes_of filter]; unfold quotes_of in Eq; now rewrite Eq|].
    cbn [stretches]. rewrite E, E'. destruct (is_quote c).
    + exists [], (h :: tl), (h :: tl'). repeat split.
      constructor; [now left|assumption].
    + exists (c :: h), tl, tl'. auto.
  - destruct IH as (Eq & h & tl & tl' & E & E' & HF).
    pose proof (spec_ok_quote_free _ Hok) as Hsp.
    pose proof (spec_ok_quote_free _
                  (resolved_spec_ok fs file_path sp sp' Hok Hrho)) as Hsp'.
    split.
    + change (q0 :: sp ++ q1 :: r) with ([q0] ++ sp ++ [q1] ++ r).
      change (q0 :: sp' ++ q1 :: r') with ([q0] ++ sp' ++ [q1] ++ r').
      rewrite !quotes_of_app, (quotes_of_none _ Hsp), (quotes_of_none _ Hsp').
      now rewrite Eq.
    + cbn [stretches]. rewrite Hq0.
      rewrite (stretches_app_quote sp q1 r Hsp Hq1).
      rewrite (stretches_app_quote sp' q1 r' Hsp' Hq1).
      rewrite E, E'. exists [], (sp :: h :: tl), (sp' :: h :: tl').
      repeat split. constructor; [now right|].
      constructor; [now left|assumption].
Qed.

Lemma rewrites_once (fs : node) (file_path : path) (T T' : text) :
  rewrites fs file_path T T' ->
  quotes_of T = quotes_of T'
  /\ Forall2 (once fs file_path) (stretches T) (stretches T').
Proof.
  intros H. destruct (rewrites_stretches _ _ _ _ H)
    as (Eq & h & tl & tl' & -> & -> & HF).
  split; [assumption|]. constructor; [now left|assumption].
Qed.

(** After the three passes every stretch between two quotes is the one
    that stood there, or the answer of the resolver for the one that
    stood there. *)
Lemma update_once (fs : node) (file_path : path) (content out : text)
    (changed : bool) :
  update_specifiers fs content file_path = Ok (out, changed) ->
  quotes_of out = quotes_of content
  /\ Forall2 (once fs file_path) (stretches content) (stretches out).
Proof.
  intros H. apply update_rewrites in H as (T1 & T2 & R1 & R2 & R3).
  apply rewrites_once in R1 as [Q1 F1].
  apply rewrites_once in R2 as [Q2 F2].
  apply rewrites_once in R3 as [Q3 F3].
  split; [congruence|].
  exact (once_all_trans _ _ _ _ _ (once_all_trans _ _ _ _ _ F1 F2) F3).
Qed.

(** A text in which the export scan and the static scan capture the
    same specifier: it is rewritten once. *)
Example export_from_rewritten_once :
  update_specifiers tree_scenarios (txt "export { x } from './bar'")
    (at_ "/a/foo.ts")
  = Ok (txt "export { x } from './bar.js'", true).
Proof. vm_compute. reflexivity. Qed.

(** C7 (amended): the dynamic-import scan captures no specifier that the
    static or the export scan captures, since their prefixes end
    differently; wherever the export scan captures a specifier the
    static pattern matches as well and captures the same one, so such a
    specifier can be handed to the resolver by both scans; and no
    specifier is rewritten twice: the resolver leaves alone what it
    returned before, so that the text the three passes return has the
    quotes of the text they were given, and between them, stretch by
    stretch, what stood there or the answer of the resolver for what
    stood there. *)
Theorem C7_only_export_shares_with_static (T : text) (k : nat) :
  (In k (spec_offsets 0 (finditer DYNAMIC_IMPORT_RE 0 T)) ->
   ~ In k (spec_offsets 0 (finditer STATIC_IMPORT_RE 0 T))
   /\ ~ In k (spec_offsets 0 (finditer EXPORT_FROM_RE 0 T)))
  /\ (In k (spec_offsets 0 (finditer EXPORT_FROM_RE 0 T)) ->
      exists spec,
        captures EXPORT_FROM_RE T k spec /\ captures STATIC_IMPORT_RE T k spec)
  /\ (forall fs file_path spec n,
        resolve_relative_spec fs file_path spec = Ok (Some n) ->
        forall fs' file_path',
          resolve_relative_spec fs' file_path' n = Ok None)
  /\ (forall fs file_path out changed,
        update_specifiers fs T file_path = Ok (out, changed) ->
        quotes_of out = quotes_of T
        /\ Forall2 (once fs file_path) (stretches T) (stretches out)).
Proof.
  assert (In STATIC_IMPORT_RE REGEXES) as HS by (cbn; auto).
  assert (In DYNAMIC_IMPORT_RE REGEXES) as HD by (cbn; auto).
  assert (In EXPORT_FROM_RE REGEXES) as HE by (cbn; auto).
  split; [|split; [|split]].
  - intros H. apply (scan_captures _ _ _ HD) in H as [spec' H]. split.
    + intros H'. apply (scan_captures _ _ _ HS) in H' as [spec H'].
      exact (captures_static_dynamic _ _ _ _ H' H).
    + intros H'. apply (scan_captures _ _ _ HE) in H' as [spec H'].
      apply captures_export_static in H'.
      exact (captures_static_dynamic _ _ _ _ H' H).
  - intros H. apply (scan_captures _ _ _ HE) in H as [spec H].
    exists spec. split; [assumption|now apply captures_export_static].
  - intros fs file_path spec n H fs' file_path'.
    exact (resolve_twice _ _ _ _ _ _ H).
  - intros fs file_path out changed H. exact (update_once _ _ _ _ _ H).
Qed.

Lemma C7_only_export_shares_with_static_witness :
  exists spec,
    captures EXPORT_FROM_RE (txt "export { x } from './bar'") 19 spec
    /\ captures STATIC_IMPORT_RE (txt "export { x } from './bar'") 19 spec.
Proof.
  apply (proj1 (proj2 (C7_only_export_shares_with_static
                         (txt "export { x } from './bar'") 19))).
  vm_compute. auto.
Defined.

(** ** Two runs *)

Lemma ends_in_blank (x ws : text) :
  forallb is_space ws = true -> 1 <= length ws ->
  ends_clean (x ++ ws) = false.
Proof.
  intros Hws Hlen.
  destruct (exists_last (l := ws)) as (ws0 & w & ->);
    [now destruct ws; cbn in Hlen; [lia|]|].
  rewrite forallb_app in Hws. apply andb_true_iff in Hws as [_ Hw].
  cbn [forallb] in Hw. apply andb_true_iff in Hw as [Hw _].
  unfold ends_clean. rewrite app_assoc, rev_app_distr. cbn [rev app].
  now rewrite Hw.
Qed.

Lemma static_prefix_end (x ws : text) :
  forallb is_space ws = true -> 1 <= length ws ->
  ends_clean (x ++ txt "from" ++ ws) = false.
Proof. intros Hws Hlen. rewrite app_assoc. now apply ends_in_blank. Qed.

Lemma dynamic_prefix_end (x ws : text) :
  forallb is_space ws = true -> 0 <= length ws ->
  ends_clean (x ++ txt "import(" ++ ws) = false.
Proof.
  intros Hws _. destruct ws as [|w ws].
  - unfold ends_clean. rewrite app_nil_r, rev_app_distr. reflexivity.
  - rewrite app_assoc. apply ends_in_blank; [assumption|cbn; lia].
Qed.

Lemma in_tails (a u : text) : In u (tails (a ++ u)).
Proof.
  induction a as [|c a IH]; cbn [app tails].
  - destruct u; now left.
  - now right.
Qed.

Lemma tidy_cand (T : text) :
  tidy T = true ->
  forall s,
    cand STATIC_IMPORT_RE T s \/ cand DYNAMIC_IMPORT_RE T s ->
    ends_clean s = true.
Proof.
  unfold tidy. rewrite forallb_forall. intros H s Hs.
  assert (exists a u pat pre suf rest,
            T = a ++ u
            /\ (pat = STATIC_IMPORT_RE \/ pat = DYNAMIC_IMPORT_RE)
            /\ match_at pat u = Some (pre, s, suf, rest))
    as (a & u & pat & pre & suf & rest & -> & Hpat & E).
  { destruct Hs as [(a & u & pre & suf & rest & -> & E)
                   | (a & u & pre & suf & rest & -> & E)];
      exists a, u; eexists; exists pre, suf, rest; eauto. }
  specialize (H u (in_tails a u)). apply andb_true_iff in H as [HS HD].
  unfold clean_at in HS, HD.
  destruct Hpat as [-> | ->]; [now rewrite E in HS|now rewrite E in HD].
Qed.

Lemma settled_export (fs : node) (file_path : path) (T : text) :
  settled fs file_path STATIC_IMPORT_RE T ->
  settled fs file_path EXPORT_FROM_RE T.
Proof.
  intros H s (a & u & pre & suf & rest & -> & E). apply H.
  apply match_export_static in E as (m & v & pre' & -> & -> & E).
  exists (a ++ m), v, pre', suf, rest. now rewrite app_assoc.
Qed.

(** The text a run produced is one the three passes leave as it is. *)
Lemma second_run_fixpoint (fs : node) (file_path : path)
    (T out : text) (changed : bool) :
  tidy T = true ->
  update_specifiers fs T file_path = Ok (out, changed) ->
  update_specifiers fs out file_path = Ok (out, false).
Proof.
  intros Htidy H.
  assert (In STATIC_IMPORT_RE REGEXES) as HS by (cbn; auto).
  assert (In DYNAMIC_IMPORT_RE REGEXES) as HD by (cbn; auto).
  assert (In EXPORT_FROM_RE REGEXES) as HE by (cbn; auto).
  unfold update_specifiers, REGEXES in H. cbn [sub_each] in H.
  destruct (re_sub fs file_path STATIC_IMPORT_RE T false) as [o1|] eqn:E1;
    [|discriminate].
  cbn [bind] in H.
  destruct (re_sub fs file_path DYNAMIC_IMPORT_RE (fst o1) (snd o1))
    as [o2|] eqn:E2; [|discriminate].
  cbn [bind] in H.
  pose proof (pass_rewrites fs file_path _ HS _ _ _ _ (le_n _) E1) as Rw1.
  pose proof (pass_rewrites fs file_path _ HD _ _ _ _ (le_n _) E2) as Rw2.
  (* after the static pass *)
  assert (settled fs file_path STATIC_IMPORT_RE (fst o1)) as S1.
  { apply (pass_settles fs file_path STATIC_IMPORT_RE (txt "from") 1 HS
             static_literal_first eq_refl ltac:(discriminate)
             static_prefix_end _ T false o1 (le_n _)); [|exact E1].
    intros s Hs. apply (tidy_cand T Htidy). now left. }
  assert (forall s, cand DYNAMIC_IMPORT_RE (fst o1) s -> ends_clean s = true)
    as Tidy1.
  { intros s Hs.
    destruct (cand_back fs file_path DYNAMIC_IMPORT_RE (txt "import(") 0
                dynamic_literal_first eq_refl ltac:(discriminate)
                dynamic_prefix_end _ _ Rw1 s Hs) as [H0 | (s0 & _ & Hr)].
    - apply (tidy_cand T Htidy). now right.
    - apply (resolved_ends_clean _ _ _ _ Hr). }
  (* after the dynamic pass *)
  assert (settled fs file_path DYNAMIC_IMPORT_RE (fst o2)) as S2D.
  { apply (pass_settles fs file_path DYNAMIC_IMPORT_RE (txt "import(") 0 HD
             dynamic_literal_first eq_refl ltac:(discriminate)
             dynamic_prefix_end _ (fst o1) (snd o1) o2 (le_n _) Tidy1 E2). }
  assert (settled fs file_path STATIC_IMPORT_RE (fst o2)) as S2S.
  { intros s Hs.
    destruct (cand_back fs file_path STATIC_IMPORT_RE (txt "from") 1
                static_literal_first eq_refl ltac:(discriminate)
                static_prefix_end _ _ Rw2 s Hs) as [H0 | (s0 & _ & Hr)].
    - now apply S1.
    - apply (resolve_twice _ _ _ _ _ _ Hr). }
  pose proof (settled_export _ _ _ S2S) as S2E.
  (* the export pass finds nothing left to do *)
  rewrite (settled_fixpoint fs file_path _ HE _ _ _ (le_n _) S2E) in H.
  cbn [fst snd] in H. injection H as <- _.
  unfold update_specifiers, REGEXES. cbn [sub_each].
  rewrite (settled_fixpoint fs file_path _ HS _ _ _ (le_n _) S2S).
  cbn [bind fst snd].
  rewrite (settled_fixpoint fs file_path _ HD _ _ _ (le_n _) S2D).
  cbn [bind fst snd].
  now rewrite (settled_fixpoint fs file_path _ HE _ _ _ (le_n _) S2E).
Qed.

(** *** The resolver only looks at what kind of thing a path leads to *)

Section SameKinds.
Variable fs fs' : node.
Hypothesis Hkinds : forall p, kind_at fs' p = kind_at fs p.

Lemma exists_same (p : path) : exists_ fs' p = exists_ fs p.
Proof.
  pose proof (Hkinds p) as H. unfold kind_at, exists_ in *.
  destruct (lookup fs' p) as [[|]|], (lookup fs p) as [[|]|];
    congruence.
Qed.

Lemma is_dir_same (p : path) : is_dir fs' p = is_dir fs p.
Proof.
  pose proof (Hkinds p) as H. unfold kind_at, is_dir in *.
  destruct (lookup fs' p) as [[|]|], (lookup fs p) as [[|]|];
    congruence.
Qed.

Lemma resolve_same (file_path : path) (spec : text) :
  resolve_relative_spec fs' file_path spec
  = resolve_relative_spec fs file_path spec.
Proof.
  unfold resolve_relative_spec.
  assert (forall target exts,
            probe_direct fs' target exts = probe_direct fs target exts) as Hd.
  { intros target exts. induction exts as [|e r IH]; [reflexivity|].
    cbn [probe_direct]. destruct (with_suffix target e); cbn [bind]; auto.
    now rewrite exists_same, IH. }
  assert (forall target exts,
            probe_index fs' target exts = probe_index fs target exts) as Hi.
  { intros target exts. induction exts as [|e r IH]; [reflexivity|].
    cbn [probe_index]. now rewrite exists_same, IH. }
  destruct (resolve _) as [target|]; cbn [bind]; [|reflexivity].
  now rewrite Hd, Hi, is_dir_same.
Qed.

Lemma update_same (content : text) (file_path : path) :
  update_specifiers fs' content file_path
  = update_specifiers fs content file_path.
Proof.
  assert (forall ps changed,
            join_pieces fs' file_path ps changed
            = join_pieces fs file_path ps changed) as Hj.
  { induction ps as [|[c | pre sp suf] r IH]; intros changed;
      cbn [join_pieces]; [reflexivity|now rewrite IH|].
    unfold _replace. rewrite resolve_same.
    destruct (_ <- resolve_relative_spec fs file_path sp ;; _); cbn [bind];
      [now rewrite IH|reflexivity]. }
  unfold update_specifiers. generalize false.
  generalize content. induction REGEXES as [|pat r IH]; intros c b;
    [reflexivity|].
  cbn [sub_each]. unfold re_sub. rewrite Hj.
  destruct (join_pieces fs file_path _ b); cbn [bind]; auto.
Qed.
End SameKinds.

(** ** C4 *)

(** C4, counterexample: with the files [a from .ts] and [c.ts] beside
    it, the first run rewrites only the dynamic import, whose specifier
    ends in [from] and a blank; that took the quote in front of [./c]
    away from the static scan in the first run and no longer does in the
    second, which rewrites [./c]. *)
Lemma C4_fails_on_nested_quotes : ~ C4_as_stated.
Proof.
  intros H.
  specialize (H tree_blank_names (at_ "/a/foo.ts")
                (txt "import('./a from './b from './c'")
                (txt "import('./a from .js'./b from './c'") true).
  assert (update_specifiers tree_blank_names
            (txt "import('./a from .js'./b from './c'") (at_ "/a/foo.ts")
          = Ok (txt "import('./a from .js'./b from './c.js'", true)) as H2
      by (vm_compute; reflexivity).
  rewrite H in H2; [discriminate|vm_compute; reflexivity].
Qed.

(** That text is not one the amended statement speaks of. *)
Example nested_quotes_not_tidy :
  tidy (txt "import('./a from './b from './c'") = false.
Proof. vm_compute. reflexivity. Qed.

(** C4 (amended): for every file path, and every text in which no
    specifier that the static or the dynamic shape can capture ends in
    whitespace or in an opening parenthesis, the rewriter applied to the
    text it produced returns that same text with the changed flag not
    set; and when the file is processed a second time, on the tree the
    first processing left, nothing is written and the flag is not set. *)
Theorem C4_second_run_changes_nothing
  (fs : node) (p : path) (content : text) :
  tidy content = true ->
  (forall out changed,
     update_specifiers fs content p = Ok (out, changed) ->
     update_specifiers fs out p = Ok (out, false))
  /\ (forall fs1 changed,
        read_text fs p = Ok content ->
        process_file fs p = Ok (fs1, changed) ->
        process_file fs1 p = Ok (fs1, false)).
Proof.
  intros Htidy. split.
  - intros out changed H. exact (second_run_fixpoint _ _ _ _ _ Htidy H).
  - intros fs1 changed Hr H. unfold process_file in H. rewrite Hr in H.
    cbn [bind] in H.
    destruct (update_specifiers fs content p) as [[out c]|] eqn:Eu;
      [|discriminate].
    cbn [bind fst snd] in H. destruct c.
    + destruct (write_text fs p out) as [fs'|] eqn:Ew; [|discriminate].
      injection H as <- _.
      destruct (write_then_read p fs content out Hr) as (fs2 & Ew2 & Hr2).
      rewrite Ew in Ew2. injection Ew2 as <-.
      unfold process_file. rewrite Hr2. cbn [bind].
      rewrite (update_same fs fs'
                 (fun p' => write_keeps_kinds p fs fs' content out p' Hr Ew)).
      now rewrite (second_run_fixpoint _ _ _ _ _ Htidy Eu).
    + injection H as <- _. unfold process_file. rewrite Hr. cbn [bind].
      now rewrite Eu.
Qed.

Lemma C4_second_run_changes_nothing_witness :
  update_specifiers tree_scenarios (txt "export { x } from './bar.js'")
    (at_ "/a/foo.ts")
  = Ok (txt "export { x } from './bar.js'", false).
Proof.
  assert (tidy (txt "export { x } from './bar'") = true) as Htidy
      by (vm_compute; reflexivity).
  apply (proj1 (C4_second_run_changes_nothing tree_scenarios
                  (at_ "/a/foo.ts") (txt "export { x } from './bar'") Htidy)
           (txt "export { x } from './bar.js'") true).
  vm_compute. reflexivity.
Defined.

(** ** The library functions on sample values *)

Example with_suffix_appends :
  with_suffix (at_ "/a/bar") (txt ".ts") = Ok (at_ "/a/bar.ts").
Proof. reflexivity. Qed.

Example with_suffix_replaces :
  with_suffix (at_ "/proj/v1.2") (txt ".ts") = Ok (at_ "/proj/v1.ts").
Proof. reflexivity. Qed.

Example with_suffix_last_only :
  with_suffix (at_ "/a/b.c.d") (txt ".ts") = Ok (at_ "/a/b.c.ts").
Proof. reflexivity. Qed.

Example with_suffix_leading_dot :
  with_suffix (at_ "/a/.hidden") (txt ".ts") = Ok (at_ "/a/.hidden.ts").
Proof. reflexivity. Qed.

Example with_suffix_trailing_dot :
  with_suffix (at_ "/a/foo.") (txt ".ts") = Ok (at_ "/a/foo..ts").
Proof. reflexivity. Qed.

Example with_suffix_root : with_suffix (at_ "/") (txt ".ts") = Raise ValueError.
Proof. reflexivity. Qed.

Example resolve_dots :
  resolve (joinpath (at_ "/a/b") (txt "../c/./d/..")) = Ok (at_ "/a/c").
Proof. reflexivity. Qed.

Example resolve_above_root :
  resolve (joinpath (at_ "/a") (txt "../../..")) = Ok (at_ "/").
Proof. reflexivity. Qed.

Example joinpath_absolute :
  resolve (joinpath (at_ "/a/b") (txt "//x")) = Ok (at_ "/x").
Proof. reflexivity. Qed.

Example blanks_below_256 :
  filter is_space (map ascii_of_nat (seq 0 256))
  = map ascii_of_nat [9; 10; 11; 12; 13; 28; 29; 30; 31; 32; 133; 160].
Proof. vm_compute. reflexivity. Qed.

Example rstrip_all_slashes : rstrip "/" (txt "./utils//") = txt "./utils".
Proof. reflexivity. Qed.

Example split_trailing_slash :
  split "/" (txt "a/b/") = [txt "a"; txt "b"; []].
Proof. reflexivity. Qed.

(** ** The scenarios, through the rewriter *)

Example scenario1_text :
  update_specifiers tree_scenarios (txt "import { b } from './bar';")
    (at_ "/a/foo.ts")
  = Ok (txt "import { b } from './bar.js';", true).
Proof. vm_compute. reflexivity. Qed.

Example scenario1_dquote :
  update_specifiers tree_scenarios
    (txt "import b from " ++ [dquote] ++ txt "./bar" ++ [dquote])
    (at_ "/a/foo.ts")
  = Ok (txt "import b from " ++ [dquote] ++ txt "./bar.js" ++ [dquote], true).
Proof. vm_compute. reflexivity. Qed.

Example scenario2_text :
  update_specifiers tree_scenarios (txt "import u from './utils'")
    (at_ "/a/foo.ts")
  = Ok (txt "import u from './utils/index.js'", true).
Proof. vm_compute. reflexivity. Qed.

Example scenario3_text :
  update_specifiers tree_scenarios (txt "import s from './styles.css'")
    (at_ "/a/foo.ts")
  = Ok (txt "import s from './styles.css'", false).
Proof. vm_compute. reflexivity. Qed.

Example scenario4_text :
  update_specifiers tree_scenarios (txt "import _ from 'lodash'")
    (at_ "/a/foo.ts")
  = Ok (txt "import _ from 'lodash'", false).
Proof. vm_compute. reflexivity. Qed.

Example scenario5_text :
  update_specifiers tree_scenarios (txt "const m = import('./missing')")
    (at_ "/a/foo.ts")
  = Ok (txt "const m = import('./missing')", false).
Proof. vm_compute. reflexivity. Qed.

Example scenario6_text :
  update_specifiers tree_scenarios (txt "export { x } from './bar'")
    (at_ "/a/foo.ts")
  = Ok (txt "export { x } from './bar.js'", true).
Proof. vm_compute. reflexivity. Qed.

Example dynamic_text :
  update_specifiers tree_scenarios (txt "const m = import( './bar')")
    (at_ "/a/foo.ts")
  = Ok (txt "const m = import( './bar.js')", true).
Proof. vm_compute. reflexivity. Qed.

(** ** The changed flag and the text *)

Section FlagAndText.
Variable fs : node.
Variable file_path : path.

Local Abbreviation rho := (resolve_relative_spec fs file_path).

(** Going forward through a rewriting along text that holds no quote. *)
Lemma rewrites_fwd (x : text) :
  forallb not_quote x = true ->
  forall y T', rewrites fs file_path (x ++ y) T' ->
               exists y', T' = x ++ y' /\ rewrites fs file_path y y'.
Proof.
  induction x as [|c x IH]; intros Hx y T' H; [now exists T'|].
  cbn [forallb] in Hx. apply andb_true_iff in Hx as [Hc Hx].
  cbn [app] in H.
  inversion H as [ | c0 t0 t0' Hrw | q0 q1 sp sp' r r' Hq0 Hq1 Hok Hrho Hrw];
    subst.
  - destruct (IH Hx _ _ Hrw) as (y' & -> & Hy). now exists y'.
  - unfold not_quote in Hc. now rewrite Hq0 in Hc.
Qed.

Lemma rewrites_head_fwd (t T' : text) (c : ascii) :
  rewrites fs file_path (c :: t) T' -> exists t', T' = c :: t'.
Proof. intros H. inversion H; subst; eauto. Qed.

Lemma js_quote_at_iff (T : text) :
  js_quote_at T = true
  <-> exists q r, T = txt ".js" ++ q :: r /\ is_quote q = true.
Proof.
  unfold js_quote_at. split.
  - destruct (strip_prefix (txt ".js") T) as [[|q r]|] eqn:E; try discriminate.
    intros Hq. apply strip_prefix_Some in E. now exists q, r.
  - intros (q & r & -> & Hq). now rewrite strip_prefix_app.
Qed.

(** A rewriting moves no place where a quote follows [.js]. *)
Lemma js_quote_at_rewrites (T T' : text) :
  rewrites fs file_path T T' -> js_quote_at T = js_quote_at T'.
Proof.
  intros H.
  destruct (js_quote_at T) eqn:E1, (js_quote_at T') eqn:E2; auto.
  - apply js_quote_at_iff in E1 as (q & r & -> & Hq).
    destruct (rewrites_fwd (txt ".js") eq_refl _ _ H) as (y' & -> & Hy).
    destruct (rewrites_head_fwd _ _ _ Hy) as [t' ->].
    assert (js_quote_at (txt ".js" ++ q :: t') = true) as E
        by (apply js_quote_at_iff; eauto).
    congruence.
  - apply js_quote_at_iff in E2 as (q & r & -> & Hq).
    destruct (rewrites_back fs file_path (txt ".js") eq_refl _ _ H)
      as (y & -> & Hy).
    destruct (rewrites_head _ _ _ _ _ Hy) as [t ->].
    assert (js_quote_at (txt ".js" ++ q :: t) = true) as E
        by (apply js_quote_at_iff; eauto).
    congruence.
Qed.

Lemma js_quote_at_quote (q : ascii) (r : text) :
  is_quote q = true -> js_quote_at (q :: r) = false.
Proof.
  intros Hq. destruct (js_quote_at (q :: r)) eqn:E; [|reflexivity].
  apply js_quote_at_iff in E as (q' & r' & E & _).
  injection E as -> _. discriminate.
Qed.

Lemma js_quotes_quote (q : ascii) (r : text) :
  is_quote q = true -> js_quotes (q :: r) = js_quotes r.
Proof. intros Hq. cbn [js_quotes]. now rewrite (js_quote_at_quote _ _ Hq). Qed.

Lemma js_quotes_cons (c : ascii) (t : text) :
  js_quotes t <= js_quotes (c :: t).
Proof. cbn [js_quotes]. lia. Qed.

Lemma js_quotes_app (z t : text) : js_quotes t <= js_quotes (z ++ t).
Proof.
  induction z as [|c z IH]; [auto|]. cbn [app].
  etransitivity; [exact IH|apply js_quotes_cons].
Qed.

(** A quote-free run that does not end in [.js] holds no such place. *)
Lemma js_quotes_plain (x : text) (q : ascii) (r : text) :
  forallb not_quote x = true -> endswith x (txt ".js") = false ->
  is_quote q = true ->
  js_quotes (x ++ q :: r) = js_quotes (q :: r).
Proof.
  intros Hx He Hq. induction x as [|c x IH]; [reflexivity|].
  cbn [app]. change (js_quotes (c :: x ++ q :: r))
    with ((if js_quote_at ((c :: x) ++ q :: r) then 1 else 0)
          + js_quotes (x ++ q :: r)).
  assert (js_quote_at ((c :: x) ++ q :: r) = false) as ->.
  { destruct (js_quote_at ((c :: x) ++ q :: r)) eqn:E; [|reflexivity].
    apply js_quote_at_iff in E as (q' & r' & E & Hq').
    assert (forallb not_quote (txt ".js") = true) as Hjs by reflexivity.
    destruct (first_quote _ _ _ _ _ _ Hx Hjs Hq Hq' E) as (Ex & _ & _).
    rewrite Ex in He. discriminate. }
  cbn [forallb] in Hx. apply andb_true_iff in Hx as [_ Hx].
  rewrite IH; auto.
  destruct (endswith x (txt ".js")) eqn:E; [|reflexivity].
  apply endswith_inv in E as [a ->].
  change (c :: a ++ txt ".js") with ((c :: a) ++ txt ".js") in He.
  now rewrite endswith_app in He.
Qed.

(** One that ends in [.js], in front of a quote, holds one. *)
Lemma js_quotes_js (z : text) (q : ascii) (r : text) :
  is_quote q = true ->
  S (js_quotes (q :: r)) <= js_quotes ((z ++ txt ".js") ++ q :: r).
Proof.
  intros Hq. rewrite <- app_assoc.
  etransitivity; [|apply js_quotes_app].
  assert (js_quote_at (txt ".js" ++ q :: r) = true) as E
      by (apply js_quote_at_iff; eauto).
  change (js_quotes (txt ".js" ++ q :: r))
    with ((if js_quote_at (txt ".js" ++ q :: r) then 1 else 0)
          + js_quotes (txt "js" ++ q :: r)).
  rewrite E. cbn [Nat.add]. apply le_n_S.
  apply (js_quotes_app (txt "js") (q :: r)).
Qed.

(** A rewriting never loses such a place, and gains one wherever it
    replaces a specifier. *)
Lemma js_quotes_rewrites (T T' : text) :
  rewrites fs file_path T T' ->
  js_quotes T <= js_quotes T' /\ (T <> T' -> js_quotes T < js_quotes T').
Proof.
  intros H. induction H as
    [ | c t t' Hrw [IH1 IH2] | q0 q1 sp sp' r r' Hq0 Hq1 Hok Hrho Hrw [IH1 _] ].
  - split; [auto|]. intros Hne. now contradiction Hne.
  - pose proof (js_quote_at_rewrites _ _ (rw_keep fs file_path c t t' Hrw))
      as Hat.
    cbn [js_quotes]. rewrite Hat. split; [lia|].
    intros Hne. assert (t <> t') as Hne' by congruence.
    specialize (IH2 Hne'). lia.
  - assert (js_quotes (q0 :: sp ++ q1 :: r) < js_quotes (q0 :: sp' ++ q1 :: r'))
      as Hlt; [|split; [lia|auto]].
    rewrite !(js_quotes_quote q0) by assumption.
    destruct (resolve_Some_inv _ _ _ _ Hrho) as [Hg _].
    unfold runtime_ext in Hg. apply orb_false_iff in Hg as [Hg _].
    apply orb_false_iff in Hg as [Hg _].
    rewrite (js_quotes_plain sp q1 r (spec_ok_quote_free _ Hok) Hg Hq1).
    pose proof (resolve_Some_ends_js _ _ _ _ Hrho) as Hjs.
    apply endswith_inv in Hjs as [z ->].
    pose proof (js_quotes_js z q1 r' Hq1) as Hge.
    rewrite !(js_quotes_quote q1) in * by assumption. lia.
Qed.

(** One pass: either it leaves text and flag as they are, or it sets the
    flag and the text is another. *)
Lemma re_sub_text_flag (pat : pattern) :
  In pat REGEXES ->
  forall n T changed out,
    length T <= n ->
    re_sub fs file_path pat T changed = Ok out ->
    (snd out = changed /\ fst out = T) \/ (snd out = true /\ fst out <> T).
Proof.
  intros Hin. induction n as [|n IH]; intros T changed out Hlen H.
  - destruct T; [|cbn in Hlen; lia]. injection H as <-. now left.
  - destruct T as [|c t]; [injection H as <-; now left|].
    destruct (match_at pat (c :: t)) as [[[[pre sp] suf] rest]|] eqn:E.
    + rewrite (re_sub_hit fs file_path pat Hin _ _ _ _ _ changed E) in H.
      destruct (match_at_shape _ _ _ _ _ _ Hin E)
        as (Eu & (p0 & q0 & Ep & Hq0) & Hok & (q1 & -> & Hq1)).
      rewrite Eu. rewrite replace_normal in H.
      assert (length rest <= n) as Hrest.
      { apply (f_equal (@length ascii)) in Eu. rewrite Ep in Eu.
        rewrite !length_app in Eu. cbn [length] in *. lia. }
      destruct (rho sp) as [[m|]|e] eqn:Er; cbn [bind fst snd] in H;
        [| |discriminate].
      * destruct (re_sub fs file_path pat rest true) as [o|] eqn:Eo;
          [|discriminate].
        injection H as <-. cbn [fst snd]. right. split.
        -- destruct (IH _ _ _ Hrest Eo) as [[-> _] | [-> _]]; reflexivity.
        -- rewrite <- !app_assoc. intros Heq.
           apply app_inv_head in Heq. cbn [app] in Heq.
           assert (forallb not_quote m = true) as Hm
               by (apply spec_ok_quote_free,
                     (resolved_spec_ok fs file_path sp); auto).
           destruct (first_quote _ _ _ _ _ _ Hm (spec_ok_quote_free _ Hok)
                       Hq1 Hq1 Heq) as (-> & _ & _).
           now destruct (resolve_Some_fresh _ _ _ _ Er).
      * destruct (re_sub fs file_path pat rest changed) as [o|] eqn:Eo;
          [|discriminate].
        injection H as <-. cbn [fst snd].
        destruct (IH _ _ _ Hrest Eo) as [[-> ->] | [-> Hne]].
        -- left. split; [reflexivity|]. now rewrite <- !app_assoc.
        -- right. split; [reflexivity|]. rewrite <- !app_assoc. intros Heq.
           do 3 apply app_inv_head in Heq. contradiction.
    + rewrite (re_sub_keep fs file_path pat _ _ changed E) in H.
      destruct (re_sub fs file_path pat t changed) as [o|] eqn:Eo;
        [|discriminate].
      injection H as <-. cbn [fst snd].
      destruct (IH _ _ _ (le_S_n _ _ Hlen) Eo) as [[-> ->] | [-> Hne]].
      * now left.
      * right. split; [reflexivity|congruence].
Qed.

(** The three passes: the flag is set exactly when the text that comes
    out is not the text that went in. *)
Lemma update_flag_text (content out : text) (changed : bool) :
  update_specifiers fs content file_path = Ok (out, changed) ->
  (changed = true <-> out <> content).
Proof.
  intros H.
  assert (In STATIC_IMPORT_RE REGEXES) as HS by (cbn; auto).
  assert (In DYNAMIC_IMPORT_RE REGEXES) as HD by (cbn; auto).
  assert (In EXPORT_FROM_RE REGEXES) as HE by (cbn; auto).
  unfold update_specifiers, REGEXES in H. cbn [sub_each] in H.
  destruct (re_sub fs file_path STATIC_IMPORT_RE content false)
    as [o1|] eqn:E1; [|discriminate].
  cbn [bind] in H.
  destruct (re_sub fs file_path DYNAMIC_IMPORT_RE (fst o1) (snd o1))
    as [o2|] eqn:E2; [|discriminate].
  cbn [bind] in H.
  destruct (re_sub fs file_path EXPORT_FROM_RE (fst o2) (snd o2))
    as [o3|] eqn:E3; [|discriminate].
  cbn [bind] in H. destruct o3 as [t3 c3]. cbn [fst snd] in H.
  injection H as -> ->.
  destruct o1 as [t1 c1], o2 as [t2 c2]. cbn [fst snd] in *.
  pose proof (js_quotes_rewrites _ _
                (pass_rewrites fs file_path _ HS _ _ _ _ (le_n _) E1))
    as [L1 S1].
  pose proof (js_quotes_rewrites _ _
                (pass_rewrites fs file_path _ HD _ _ _ _ (le_n _) E2))
    as [L2 S2].
  pose proof (js_quotes_rewrites _ _
                (pass_rewrites fs file_path _ HE _ _ _ _ (le_n _) E3))
    as [L3 S3].
  pose proof (re_sub_text_flag _ HS _ _ _ _ (le_n _) E1) as A1.
  pose proof (re_sub_text_flag _ HD _ _ _ _ (le_n _) E2) as A2.
  pose proof (re_sub_text_flag _ HE _ _ _ _ (le_n _) E3) as A3.
  cbn [fst snd] in *.
  assert (c1 = false /\ t1 = content /\ js_quotes t1 = js_quotes content
          \/ c1 = true /\ js_quotes content < js_quotes t1) as B1.
  { destruct A1 as [[F T] | [F T]]; [left; now subst|right].
    split; [assumption|]. apply S1. congruence. }
  assert (c2 = c1 /\ t2 = t1 /\ js_quotes t2 = js_quotes t1
          \/ c2 = true /\ js_quotes t1 < js_quotes t2) as B2.
  { destruct A2 as [[F T] | [F T]]; [left; now subst|right].
    split; [assumption|]. apply S2. congruence. }
  assert (changed = c2 /\ out = t2 /\ js_quotes out = js_quotes t2
          \/ changed = true /\ js_quotes t2 < js_quotes out) as B3.
  { destruct A3 as [[F T] | [F T]]; [left; now subst|right].
    split; [assumption|]. apply S3. congruence. }
  clear A1 A2 A3 S1 S2 S3 E1 E2 E3.
  assert (changed = false /\ out = content
          \/ changed = true /\ js_quotes content < js_quotes out)
    as [[-> ->] | [-> Hlt]].
  { destruct B1 as [(F1 & T1 & J1) | (F1 & J1)],
             B2 as [(F2 & T2 & J2) | (F2 & J2)],
             B3 as [(F3 & T3 & J3) | (F3 & J3)].
    1: left; split; congruence.
    all: right; split; [congruence|lia]. }
  - split; [discriminate|]. intros Hne. now contradiction Hne.
  - split; [intros _|reflexivity]. intros ->. lia.
Qed.
End FlagAndText.

(** ** What can go wrong *)

Lemma join_pieces_raises (fs : node) (file_path : path) (ps : list piece) :
  forall changed e,
    join_pieces fs file_path ps changed = Raise e ->
    exists spec,
      In spec (calls_of fs file_path ps)
      /\ resolve_relative_spec fs file_path spec = Raise e.
Proof.
  induction ps as [|[c | pre sp suf] r IH]; intros changed e H.
  - discriminate.
  - cbn [join_pieces] in H.
    destruct (join_pieces fs file_path r changed) eqn:E; [discriminate|].
    injection H as ->. exact (IH _ _ E).
  - cbn [join_pieces calls_of] in *. rewrite replace_normal in H.
    destruct (resolve_relative_spec fs file_path sp) as [[n|]|e'] eqn:Er;
      cbn [bind fst snd] in H.
    + destruct (join_pieces fs file_path r true) eqn:E; [discriminate|].
      injection H as ->. destruct (IH _ _ E) as (s & Hs & Hr).
      exists s. split; [now right|assumption].
    + destruct (join_pieces fs file_path r changed) eqn:E; [discriminate|].
      injection H as ->. destruct (IH _ _ E) as (s & Hs & Hr).
      exists s. split; [now right|assumption].
    + injection H as ->. exists sp. split; [now left|assumption].
Qed.

Lemma sub_each_raises (fs : node) (file_path : path) (regexes : list pattern) :
  forall content changed e,
    sub_each fs file_path regexes content changed = Raise e ->
    exists spec,
      In spec (resolver_calls fs file_path regexes content)
      /\ resolve_relative_spec fs file_path spec = Raise e.
Proof.
  induction regexes as [|pat r IH]; intros content changed e H;
    [discriminate|].
  cbn [sub_each resolver_calls] in *.
  destruct (re_sub fs file_path pat content changed) as [o|e'] eqn:E;
    cbn [bind] in H.
  - rewrite re_sub_flag in E.
    destruct (re_sub fs file_path pat content false) as [o'|] eqn:E';
      [|discriminate].
    injection E as <-. cbn [fst snd] in H.
    destruct (IH _ _ _ H) as (s & Hs & Hr).
    exists s. split; [apply in_or_app; now right|assumption].
  - injection H as ->. unfold re_sub in E.
    destruct (join_pieces_raises _ _ _ _ _ E) as (s & Hs & Hr).
    exists s. split; [apply in_or_app; now left|assumption].
Qed.

(** When the rewriter raises, a call of the resolver did. *)
Lemma update_raises (fs : node) (content : text) (file_path : path)
    (e : exn) :
  update_specifiers fs content file_path = Raise e ->
  exists spec,
    In spec (resolver_calls fs file_path REGEXES content)
    /\ resolve_relative_spec fs file_path spec = Raise e.
Proof. apply sub_each_raises. Qed.

(** Writing back what was read does not fail. *)
Lemma process_raises (fs : node) (p : path) (e : exn) :
  process_file fs p = Raise e ->
  read_text fs p = Raise e
  \/ exists content,
       read_text fs p = Ok content
       /\ update_specifiers fs content p = Raise e.
Proof.
  unfold process_file. intros H.
  destruct (read_text fs p) as [content|e'] eqn:Hr; cbn [bind] in H;
    [|left; congruence].
  right. exists content. split; [reflexivity|].
  destruct (update_specifiers fs content p) as [[out c]|e'] eqn:Eu;
    cbn [bind fst snd] in H; [|congruence].
  destruct c; [|discriminate].
  destruct (write_then_read p fs content out Hr) as (fs' & Hw & _).
  rewrite Hw in H. discriminate.
Qed.

Lemma read_text_raises (fs : node) (p : path) (e : exn) :
  read_text fs p = Raise e ->
  (e = FileNotFoundError /\ exists_ fs p = false)
  \/ (e = IsADirectoryError /\ is_dir fs p = true).
Proof.
  unfold read_text, exists_, is_dir.
  destruct (lookup fs p) as [[content|es]|]; intros [= <-]; auto.
Qed.

(** Processing a file changes nothing but what that file holds. *)
Lemma process_elsewhere (fs fs' : node) (p : path) (changed : bool) :
  process_file fs p = Ok (fs', changed) ->
  (forall p', kind_at fs' p' = kind_at fs p')
  /\ (forall p', p' <> p -> read_text fs' p' = read_text fs p').
Proof.
  unfold process_file. intros H.
  destruct (read_text fs p) as [content|] eqn:Hr; [|discriminate].
  cbn [bind] in H.
  destruct (update_specifiers fs content p) as [[out c]|] eqn:Eu;
    [|discriminate].
  cbn [bind fst snd] in H. destruct c.
  - destruct (write_text fs p out) as [fs2|] eqn:Ew; [|discriminate].
    injection H as <- _. split.
    + intros p'. exact (write_keeps_kinds p fs fs2 content out p' Hr Ew).
    + intros p' Hne. exact (write_elsewhere p fs fs2 content out p' Hr Ew Hne).
  - injection H as <- _. now split.
Qed.

(** ** Facts about the tree *)

Lemma entry_shape (x : text) (es : list (text * node)) :
  entry x (map (fun e => (fst e, shape (snd e))) es)
  = option_map shape (entry x es).
Proof.
  induction es as [|[y m] r IH]; [reflexivity|].
  cbn [map entry fst snd]. destruct (text_eqb x y); [reflexivity|exact IH].
Qed.

Lemma lookup_shape (p : path) :
  forall fs, lookup (shape fs) p = option_map shape (lookup fs p).
Proof.
  induction p as [|x q IH]; intros fs; [reflexivity|].
  destruct fs as [c|es]; [reflexivity|].
  cbn [shape lookup]. rewrite entry_shape.
  destruct (entry x es) as [n|]; [apply IH|reflexivity].
Qed.

Lemma kind_shape (fs : node) (p : path) :
  kind_at (shape fs) p = kind_at fs p.
Proof.
  unfold kind_at. rewrite lookup_shape.
  now destruct (lookup fs p) as [[|]|].
Qed.

Lemma select_ts_shape (here : path) (es : list (text * node)) :
  select_ts here (map (fun e => (fst e, shape (snd e))) es)
  = select_ts here es.
Proof.
  induction es as [|[y m] r IH]; [reflexivity|].
  cbn [map select_ts fst snd]. now rewrite IH.
Qed.

Lemma rglob_from_shape (n : node) :
  forall here, rglob_from (shape n) here = rglob_from n here.
Proof.
  induction n as [c|es IH] using node_induction; intros here; [reflexivity|].
  cbn [shape rglob_from]. rewrite select_ts_shape. f_equal.
  induction IH as [|[y m] r Hm _ IHr]; [reflexivity|].
  cbn [map flat_map fst snd] in *. now rewrite Hm, IHr.
Qed.

(** The listing depends on the shape of the tree only. *)
Lemma rglob_shape (fs : node) (root : path) :
  rglob (shape fs) root = rglob fs root.
Proof.
  unfold rglob. rewrite lookup_shape.
  destruct (lookup fs root) as [[c|es]|]; try reflexivity.
  cbn [option_map].
  change (shape (Dir es)) with (Dir (map (fun e => (fst e, shape (snd e))) es)).
  change (Dir (map (fun e => (fst e, shape (snd e))) es)) with (shape (Dir es)).
  cbn [shape]. f_equal. apply (rglob_from_shape (Dir es)).
Qed.

Lemma set_entry_shape (x : text) (n n' : node) (es : list (text * node)) :
  entry x es = Some n -> shape n' = shape n ->
  map (fun e => (fst e, shape (snd e))) (set_entry x n' es)
  = map (fun e => (fst e, shape (snd e))) es.
Proof.
  intros He Hs. induction es as [|[y m] r IH]; [discriminate|].
  cbn [entry set_entry] in *. destruct (text_eqb x y).
  - injection He as ->. cbn [map fst snd]. now rewrite Hs.
  - cbn [map fst snd]. now rewrite (IH He).
Qed.

(** Writing a file that exists leaves the shape of the tree. *)
Lemma write_shape (p : path) :
  forall (fs fs' : node) (content data : text),
    read_text fs p = Ok content ->
    write_text fs p data = Ok fs' ->
    shape fs' = shape fs.
Proof.
  induction p as [|x q IH]; intros fs fs' content data Hr Hw.
  - destruct fs as [c|es]; [|discriminate]. now injection Hw as <-.
  - destruct fs as [c|es]; [discriminate|].
    rewrite read_text_cons in Hr. cbn [write_text] in Hw.
    destruct (entry x es) as [n|] eqn:E; [|discriminate].
    destruct (write_text n q data) as [n'|] eqn:Hw'; [|discriminate].
    injection Hw as <-. cbn [shape]. f_equal.
    apply (set_entry_shape x n n' es E). exact (IH _ _ _ _ Hr Hw').
Qed.

Lemma process_shape (fs fs' : node) (p : path) (changed : bool) :
  process_file fs p = Ok (fs', changed) -> shape fs' = shape fs.
Proof.
  unfold process_file. intros H.
  destruct (read_text fs p) as [content|] eqn:Hr; [|discriminate].
  cbn [bind] in H.
  destruct (update_specifiers fs content p) as [[out c]|] eqn:Eu;
    [|discriminate].
  cbn [bind fst snd] in H. destruct c.
  - destruct (write_text fs p out) as [fs2|] eqn:Ew; [|discriminate].
    injection H as <- _. exact (write_shape p fs fs2 content out Hr Ew).
  - now injection H as <- _.
Qed.

Lemma same_shape_rglob (fs fs' : node) (root : path) :
  shape fs' = shape fs -> rglob fs' root = rglob fs root.
Proof.
  intros H. now rewrite <- (rglob_shape fs'), <- (rglob_shape fs), H.
Qed.

Lemma same_shape_kinds (fs fs' : node) (p : path) :
  shape fs' = shape fs -> kind_at fs' p = kind_at fs p.
Proof.
  intros H. now rewrite <- (kind_shape fs'), <- (kind_shape fs), H.
Qed.

(** ** Facts about the listing *)

Lemma dedup_spec (l : list path) :
  forall seen,
    NoDup (dedup seen l)
    /\ forall p, In p (dedup seen l) <-> In p l /\ ~ In p seen.
Proof.
  induction l as [|x l IH]; intros seen.
  - split; [constructor|]. cbn. tauto.
  - cbn [dedup]. destruct (in_dec path_eq_dec x seen) as [Hin | Hnin].
    + destruct (IH seen) as [Hnd Hiff]. split; [assumption|].
      intros p. rewrite Hiff. cbn [In]. split; [tauto|].
      intros [[<- | Hp] Hn]; [contradiction|tauto].
    + destruct (IH (x :: seen)) as [Hnd Hiff]. split.
      * constructor; [|assumption]. rewrite Hiff. cbn [In]. tauto.
      * intros p. cbn [In]. rewrite Hiff. cbn [In].
        destruct (path_eq_dec x p) as [<- | Hne]; [tauto|]. tauto.
Qed.

Lemma select_ts_In (here : path) (es : list (text * node)) (p : path) :
  In p (select_ts here es)
  <-> exists x, p = here ++ [x] /\ matches_ts x = true /\ In x (map fst es).
Proof.
  induction es as [|[y m] r IH]; cbn [select_ts map fst In].
  - split; [tauto|]. now intros (x & _ & _ & []).
  - destruct (matches_ts y) eqn:Em; cbn [In]; rewrite IH; split.
    + intros [<- | (x & -> & Hx & Hin)]; [exists y; auto|exists x; auto].
    + intros (x & -> & Hx & [<- | Hin]); [now left|right; eauto].
    + intros (x & -> & Hx & Hin). exists x; auto.
    + intros (x & -> & Hx & [<- | Hin]); [congruence|eauto].
Qed.

(** What is listed below a directory lies below it and is named
    [*.ts]. *)
Lemma rglob_from_In (n : node) :
  forall here p,
    In p (rglob_from n here) ->
    exists mid x, p = here ++ mid ++ [x] /\ matches_ts x = true.
Proof.
  induction n as [c|es IH] using node_induction; intros here p H;
    [destruct H|].
  cbn [rglob_from] in H. apply in_app_or in H as [H | H].
  - apply select_ts_In in H as (x & -> & Hx & _). now exists [], x.
  - apply in_flat_map in H as ([y m] & Hin & Hp). cbn [fst snd] in Hp.
    rewrite Forall_forall in IH.
    destruct (IH _ Hin _ _ Hp) as (mid & x & -> & Hx).
    exists (y :: mid), x. now rewrite <- app_assoc.
Qed.

Lemma rglob_In (fs : node) (root p : path) :
  In p (rglob fs root) ->
  exists mid x, p = root ++ mid ++ [x] /\ matches_ts x = true.
Proof.
  unfold rglob. destruct (lookup fs root) as [[c|es]|]; try now intros [].
  intros H. apply (dedup_spec _ []) in H as [H _].
  exact (rglob_from_In _ _ _ H).
Qed.

Lemma rglob_NoDup (fs : node) (root : path) : NoDup (rglob fs root).
Proof.
  unfold rglob. destruct (lookup fs root) as [[c|es]|]; try constructor.
  apply dedup_spec.
Qed.

Lemma rglob_absent (fs : node) (root : path) :
  is_dir fs root = false -> rglob fs root = [].
Proof.
  unfold is_dir, rglob. now destruct (lookup fs root) as [[c|es]|].
Qed.

Lemma NoDup_flat_map {X Y : Type} (f : X -> list Y) (l : list X) :
  NoDup l ->
  (forall x, In x l -> NoDup (f x)) ->
  (forall x y p, In x l -> In y l -> In p (f x) -> In p (f y) -> x = y) ->
  NoDup (flat_map f l).
Proof.
  induction l as [|a l IH]; intros Hl Hf Hd; [constructor|].
  cbn [flat_map]. inversion Hl as [|? ? Ha Hl']; subst.
  apply NoDup_app.
  - apply Hf. now left.
  - apply IH; auto.
    + intros x Hx. apply Hf. now right.
    + intros x y p Hx Hy. apply Hd; now right.
  - intros p Hp Hq. apply in_flat_map in Hq as (y & Hy & Hq).
    assert (a = y) as -> by (apply (Hd a y p); auto; [now left|now right]).
    contradiction.
Qed.

Lemma all_paths_NoDup (ROOT : path) (fs : node) : NoDup (all_paths ROOT fs).
Proof.
  unfold all_paths. apply NoDup_flat_map.
  - unfold DIRECTORIES.
    repeat (constructor;
            [cbn; intros H; repeat (destruct H as [H | H]; [discriminate|]);
             exact H|]).
    constructor.
  - intros d _. apply rglob_NoDup.
  - intros d1 d2 p _ _ H1 H2.
    apply rglob_In in H1 as (m1 & x1 & -> & _).
    apply rglob_In in H2 as (m2 & x2 & E & _).
    rewrite <- !app_assoc in E. apply app_inv_head in E.
    now injection E.
Qed.

Lemma all_paths_shape (ROOT : path) (fs fs' : node) :
  shape fs' = shape fs -> all_paths ROOT fs' = all_paths ROOT fs.
Proof.
  intros H. unfold all_paths. apply flat_map_ext. intros d.
  now apply same_shape_rglob.
Qed.

(** ** Facts about the loops of [main] *)

Lemma walk_app (l1 l2 : list path) :
  forall fs total changed,
    walk fs (l1 ++ l2) total changed
    = (out <- walk fs l1 total changed ;;
       walk (fst out) l2 (fst (snd out)) (snd (snd out))).
Proof.
  induction l1 as [|p r IH]; intros fs total changed; [reflexivity|].
  cbn [app walk]. destruct (process_file fs p) as [o|e]; cbn [bind];
    [apply IH|reflexivity].
Qed.

Lemma walk_keeps_shape (l : list path) :
  forall fs total changed fs' counts,
    walk fs l total changed = Ok (fs', counts) -> shape fs' = shape fs.
Proof.
  induction l as [|p r IH]; intros fs total changed fs' counts H.
  - now injection H as <- _.
  - cbn [walk] in H. destruct (process_file fs p) as [[fs1 c]|] eqn:Ep;
      [|discriminate].
    cbn [bind fst snd] in H. rewrite (IH _ _ _ _ _ H).
    exact (process_shape _ _ _ _ Ep).
Qed.

(** The paths of all directories can be listed before the first file is
    processed. *)
Lemma main_loop_as_walk (ROOT : path) (dirs : list text) :
  forall fs total changed,
    main_loop ROOT dirs fs total changed
    = walk fs (flat_map (fun directory => rglob fs (ROOT ++ [directory])) dirs)
        total changed.
Proof.
  induction dirs as [|d r IH]; intros fs total changed; [reflexivity|].
  cbn [main_loop flat_map]. destruct (exists_ fs (ROOT ++ [d])) eqn:Ex;
    cbn [negb].
  - rewrite walk_app.
    destruct (walk fs (rglob fs (ROOT ++ [d])) total changed)
      as [[fs1 [t1 c1]]|e] eqn:Ew; cbn [bind fst snd]; [|reflexivity].
    rewrite IH. f_equal. apply flat_map_ext. intros d'.
    apply same_shape_rglob. exact (walk_keeps_shape _ _ _ _ _ _ Ew).
  - rewrite rglob_absent; [apply IH|].
    unfold exists_, is_dir in *. now destruct (lookup fs (ROOT ++ [d])).
Qed.

Lemma main_as_walk (ROOT : path) (fs : node) :
  main ROOT fs = walk fs (all_paths ROOT fs) 0 0.
Proof. apply main_loop_as_walk. Qed.

(** What processing one file leaves in it. *)
Lemma process_result (fs fs' : node) (p : path) (changed : bool) :
  process_file fs p = Ok (fs', changed) ->
  exists content out,
    read_text fs p = Ok content
    /\ update_specifiers fs content p = Ok (out, changed)
    /\ read_text fs' p = Ok out.
Proof.
  unfold process_file. intros H.
  destruct (read_text fs p) as [content|] eqn:Hr; [|discriminate].
  cbn [bind] in H.
  destruct (update_specifiers fs content p) as [[out c]|] eqn:Eu;
    [|discriminate].
  cbn [bind fst snd] in H. exists content, out. destruct c.
  - destruct (write_then_read p fs content out Hr) as (fs2 & Hw & Hr2).
    rewrite Hw in H. cbn [bind] in H. injection H as <- <-. auto.
  - injection H as <- <-. repeat split; auto.
    assert (out = content) as ->; [|assumption].
    destruct (update_flag_text fs p content out false Eu) as [_ Hb].
    destruct (list_eq_dec ascii_dec out content) as [E|N]; [assumption|].
    now specialize (Hb N).
Qed.

Lemma changed_at_flag (fs fs' : node) (p : path) (content out : text)
    (changed : bool) :
  read_text fs p = Ok content ->
  update_specifiers fs content p = Ok (out, changed) ->
  read_text fs' p = Ok out ->
  changed_at fs fs' p = changed.
Proof.
  intros Hr Hu Hr'. unfold changed_at. rewrite Hr, Hr'.
  destruct (update_flag_text fs p content out changed Hu) as [H1 H2].
  destruct (text_eqb content out) eqn:E; cbn [negb].
  - apply text_eqb_eq in E. subst out. destruct changed; [|reflexivity].
    now destruct (H1 eq_refl).
  - symmetry. apply H2. intros ->. now rewrite text_eqb_refl in E.
Qed.

(** One pass over paths that are all different: every file is rewritten
    as if it were the only one. *)
Lemma walk_result (l : list path) :
  forall fs total changed fs' total' changed',
    NoDup l ->
    walk fs l total changed = Ok (fs', (total', changed')) ->
    shape fs' = shape fs
    /\ total' = total + length l
    /\ changed' = changed + length (filter (changed_at fs fs') l)
    /\ (forall p, ~ In p l -> read_text fs' p = read_text fs p)
    /\ (forall p, In p l ->
          exists content out flag,
            read_text fs p = Ok content
            /\ update_specifiers fs content p = Ok (out, flag)
            /\ read_text fs' p = Ok out).
Proof.
  induction l as [|p r IH]; intros fs total changed fs' total' changed' Hnd H.
  - injection H as <- <- <-. cbn [length filter].
    repeat split; try lia. now intros p [].
  - inversion Hnd as [|? ? Hp Hr]; subst. cbn [walk] in H.
    destruct (process_file fs p) as [[fs1 c]|] eqn:Ep; [|discriminate].
    cbn [bind fst snd] in H.
    destruct (IH _ _ _ _ _ _ Hr H) as (Hs & Ht & Hc & Hout & Hin).
    pose proof (process_shape _ _ _ _ Ep) as Hs1.
    destruct (process_elsewhere _ _ _ _ Ep) as [Hk Hel].
    destruct (process_result _ _ _ _ Ep) as (content & out & R0 & U0 & R1).
    assert (read_text fs' p = Ok out) as R' by (rewrite (Hout p Hp); exact R1).
    assert (forall q, In q r -> read_text fs1 q = read_text fs q) as Hrq.
    { intros q Hq. apply Hel. intros ->. contradiction. }
    split; [congruence|]. split; [cbn [length]; lia|]. split; [|split].
    + cbn [filter].
      rewrite (changed_at_flag fs fs' p content out c R0 U0 R').
      assert (filter (changed_at fs fs') r = filter (changed_at fs1 fs') r)
        as ->.
      { apply filter_ext_in. intros q Hq. unfold changed_at.
        now rewrite (Hrq q Hq). }
      destruct c; cbn [length]; lia.
    + intros q Hq. rewrite (Hout q); [apply Hel|]; intros E; apply Hq;
        [now left; subst|now right].
    + intros q [<- | Hq]; [exists content, out, c; auto|].
      destruct (Hin q Hq) as (cq & oq & fq & Rq & Uq & Rq').
      exists cq, oq, fq. rewrite <- (Hrq q Hq). repeat split; auto.
      rewrite <- Uq. symmetry. apply update_same. exact Hk.
Qed.

(** A pass over files the rewriter leaves as they are. *)
Lemma walk_fixed (l : list path) :
  forall fs total changed,
    (forall p, In p l ->
       exists x, read_text fs p = Ok x
                 /\ update_specifiers fs x p = Ok (x, false)) ->
    walk fs l total changed = Ok (fs, (total + length l, changed)).
Proof.
  induction l as [|p r IH]; intros fs total changed H.
  - cbn [walk length]. now rewrite Nat.add_0_r.
  - cbn [walk]. destruct (H p (or_introl eq_refl)) as (x & Hr & Hu).
    unfold process_file. rewrite Hr. cbn [bind]. rewrite Hu.
    cbn [bind fst snd]. rewrite IH; [|intros q Hq; apply H; now right].
    cbn [length]. now rewrite Nat.add_succ_r.
Qed.

(** A pass fails at the first path that cannot be read or whose text
    the rewriter fails on, as if that file were the only one. *)
Lemma walk_raises (l : list path) :
  forall fs total changed e,
    NoDup l ->
    walk fs l total changed = Raise e ->
    exists p,
      In p l
      /\ (read_text fs p = Raise e
          \/ exists content,
               read_text fs p = Ok content
               /\ update_specifiers fs content p = Raise e).
Proof.
  induction l as [|p r IH]; intros fs total changed e Hnd H; [discriminate|].
  inversion Hnd as [|? ? Hp Hr]; subst. cbn [walk] in H.
  destruct (process_file fs p) as [[fs1 c]|e'] eqn:Ep; cbn [bind fst snd] in H.
  - destruct (IH _ _ _ _ Hr H) as (q & Hq & Hcase).
    destruct (process_elsewhere _ _ _ _ Ep) as [Hk Hel].
    assert (q <> p) as Hne by (intros ->; contradiction).
    exists q. split; [now right|]. rewrite <- (Hel q Hne).
    destruct Hcase as [Hrd | (content & Rq & Uq)]; [now left|].
    right. exists content. split; [assumption|].
    rewrite <- Uq. symmetry. apply update_same. exact Hk.
  - injection H as ->. exists p. split; [now left|].
    exact (process_raises fs p e Ep).
Qed.

(** ** Facts about well-formed trees *)

Lemma lookup_app (a b : path) :
  forall fs,
    lookup fs (a ++ b)
    = match lookup fs a with Some n => lookup n b | None => None end.
Proof.
  induction a as [|x a IH]; intros fs; [reflexivity|].
  cbn [app lookup]. destruct fs as [c|es]; [reflexivity|].
  destruct (entry x es) as [n|]; [apply IH|reflexivity].
Qed.

Lemma entry_Some_In (x : text) (es : list (text * node)) (m : node) :
  entry x es = Some m -> In (x, m) es.
Proof.
  induction es as [|[y n] r IH]; [discriminate|]. cbn [entry].
  destruct (text_eqb x y) eqn:E.
  - intros [= ->]. apply text_eqb_eq in E. subst. now left.
  - intros H. right. auto.
Qed.

Lemma entry_named (x : text) (es : list (text * node)) :
  In x (map fst es) -> exists m, entry x es = Some m.
Proof.
  induction es as [|[y n] r IH]; [intros []|]. cbn [map fst In entry].
  destruct (text_eqb x y) eqn:E; [eauto|].
  intros [-> | H]; [now rewrite text_eqb_refl in E|auto].
Qed.

Lemma unique_entry (es : list (text * node)) (y : text) (m : node) :
  unique (map fst es) = true -> In (y, m) es -> entry y es = Some m.
Proof.
  induction es as [|[z n] r IH]; [intros _ []|].
  cbn [map fst unique entry]. intros Hu [E | Hin].
  - injection E as -> ->. now rewrite text_eqb_refl.
  - apply andb_prop in Hu as [Hz Hr].
    destruct (text_eqb y z) eqn:E; [|auto].
    apply text_eqb_eq in E. subst z.
    assert (existsb (text_eqb y) (map fst r) = true) as Hex.
    { apply existsb_exists. exists y. split; [|apply text_eqb_refl].
      apply (in_map fst _ _ Hin). }
    now rewrite Hex in Hz.
Qed.

Lemma well_formed_entry (es : list (text * node)) (y : text) (m : node) :
  well_formed (Dir es) = true -> In (y, m) es -> well_formed m = true.
Proof.
  cbn [well_formed]. intros H Hin. apply andb_prop in H as [_ H].
  rewrite forallb_forall in H. exact (H _ Hin).
Qed.

Lemma well_formed_lookup (p : path) :
  forall fs n,
    well_formed fs = true -> lookup fs p = Some n -> well_formed n = true.
Proof.
  induction p as [|x q IH]; intros fs n Hwf H.
  - now injection H as <-.
  - destruct fs as [c|es]; [discriminate|]. cbn [lookup] in H.
    destruct (entry x es) as [m|] eqn:E; [|discriminate].
    apply (IH m n); [|assumption].
    exact (well_formed_entry es x m Hwf (entry_Some_In _ _ _ E)).
Qed.

(** What is listed below a directory of a well-formed tree is there. *)
Lemma rglob_from_exists (n : node) :
  well_formed n = true ->
  forall here p,
    In p (rglob_from n here) ->
    exists rest, p = here ++ rest /\ lookup n rest <> None.
Proof.
  induction n as [c|es IH] using node_induction; intros Hwf here p H;
    [destruct H|].
  cbn [rglob_from] in H. apply in_app_or in H as [H | H].
  - apply select_ts_In in H as (x & -> & _ & Hx).
    destruct (entry_named x es Hx) as (m & Em).
    exists [x]. split; [reflexivity|]. cbn [lookup]. now rewrite Em.
  - apply in_flat_map in H as ([y m] & Hin & Hp). cbn [fst snd] in Hp.
    rewrite Forall_forall in IH.
    destruct (IH _ Hin (well_formed_entry es y m Hwf Hin) _ _ Hp)
      as (rest & -> & Hl).
    exists (y :: rest). split; [now rewrite <- app_assoc|].
    cbn [lookup]. cbn [well_formed] in Hwf. apply andb_prop in Hwf as [Hu _].
    now rewrite (unique_entry es y m Hu Hin).
Qed.

Lemma rglob_exists (fs : node) (root p : path) :
  well_formed fs = true -> In p (rglob fs root) -> exists_ fs p = true.
Proof.
  unfold rglob, exists_. intros Hwf H.
  destruct (lookup fs root) as [[c|es]|] eqn:El; try now destruct H.
  apply (dedup_spec _ []) in H as [H _].
  destruct (rglob_from_exists (Dir es) (well_formed_lookup _ _ _ Hwf El) _ _ H)
    as (rest & -> & Hl).
  rewrite lookup_app, El. now destruct (lookup (Dir es) rest).
Qed.

(** Whatever is below a directory under a name that ends in [.ts] is
    listed. *)
Lemma rglob_from_complete (x : text) (mid : path) :
  matches_ts x = true ->
  forall n here,
    lookup n (mid ++ [x]) <> None ->
    In (here ++ mid ++ [x]) (rglob_from n here).
Proof.
  intros Hx. induction mid as [|y mid IH]; intros n here H.
  - destruct n as [c|es]; [now destruct H|]. cbn [app lookup] in H.
    cbn [rglob_from app]. apply in_or_app. left. apply select_ts_In.
    exists x. repeat split; auto.
    destruct (entry x es) as [m|] eqn:E; [|now destruct H].
    apply (in_map fst _ _ (entry_Some_In _ _ _ E)).
  - destruct n as [c|es]; [now destruct H|]. cbn [app lookup] in H.
    destruct (entry y es) as [m|] eqn:E; [|now destruct H].
    cbn [rglob_from]. apply in_or_app. right. apply in_flat_map.
    exists (y, m). split; [exact (entry_Some_In _ _ _ E)|]. cbn [fst snd].
    replace (here ++ (y :: mid) ++ [x]) with ((here ++ [y]) ++ mid ++ [x])
      by (now rewrite <- app_assoc).
    apply IH. exact H.
Qed.

Lemma rglob_complete (fs : node) (root mid : path) (x : text) :
  matches_ts x = true ->
  exists_ fs (root ++ mid ++ [x]) = true ->
  In (root ++ mid ++ [x]) (rglob fs root).
Proof.
  unfold exists_, rglob. rewrite lookup_app. intros Hx H.
  destruct (lookup fs root) as [[c|es]|] eqn:El.
  - now destruct mid.
  - apply (dedup_spec _ []). split; [|now intros []].
    apply rglob_from_complete; [assumption|].
    intros E. now rewrite E in H.
  - discriminate.
Qed.

(** ** Facts about texts without a quote *)

Lemma no_quote_no_match (pat : pattern) (u : text) :
  In pat REGEXES -> forallb not_quote u = true -> match_at pat u = None.
Proof.
  intros Hin Hu. destruct (match_at pat u) as [[[[pre sp] suf] rest]|] eqn:E;
    [|reflexivity].
  destruct (match_at_shape _ _ _ _ _ _ Hin E)
    as (-> & (p0 & q0 & -> & Hq0) & _).
  rewrite !forallb_app in Hu. cbn [forallb] in Hu.
  rewrite (quote_not_not_quote _ Hq0) in Hu.
  rewrite andb_false_r in Hu. discriminate.
Qed.

Lemma re_sub_no_quote (fs : node) (file_path : path) (pat : pattern)
    (T : text) (changed : bool) :
  In pat REGEXES -> forallb not_quote T = true ->
  re_sub fs file_path pat T changed = Ok (T, changed).
Proof.
  intros Hin. induction T as [|c t IH]; intros H; [reflexivity|].
  rewrite (re_sub_keep fs file_path pat c t changed
             (no_quote_no_match pat _ Hin H)).
  cbn [forallb] in H. apply andb_prop in H as [_ H].
  now rewrite (IH H).
Qed.

(** ** Facts about the export pattern *)

Lemma first_from_eq (t : text) :
  first_from t
  = match cuts STATIC_IMPORT_RE t with
    | Some c => Some c
    | None =>
        match t with
        | c :: t' => if not_semicolon c then first_from t' else None
        | [] => None
        end
    end.
Proof. rewrite cuts_static. now destruct t. Qed.

(** The lazy run of the export pattern stops at the first place where
    the static pattern matches. *)
Lemma exec_lazy_first_from (t : text) :
  exec_rep not_semicolon false 0 None t (cuts STATIC_IMPORT_RE)
  = first_from t.
Proof.
  induction t as [|c t IH]; rewrite exec_rep_lazy, first_from_eq.
  - now destruct (cuts STATIC_IMPORT_RE []).
  - rewrite IH. now destruct (cuts STATIC_IMPORT_RE (c :: t)).
Qed.

Lemma space_not_f (c : ascii) : is_space c = true -> Ascii.eqb "f" c = false.
Proof.
  intros H. destruct (Ascii.eqb "f" c) eqn:E; [|reflexivity].
  apply Ascii.eqb_eq in E. subst c. discriminate.
Qed.

Lemma space_not_semicolon (c : ascii) :
  is_space c = true -> not_semicolon c = true.
Proof.
  intros H. unfold not_semicolon. destruct (Ascii.eqb c ";") eqn:E;
    [|reflexivity].
  apply Ascii.eqb_eq in E. subst c. discriminate.
Qed.

Lemma first_from_skip (c : ascii) (t : text) :
  is_space c = true -> first_from (c :: t) = first_from t.
Proof.
  intros H. rewrite first_from_eq, cuts_static. unfold from_quote.
  change (txt "from") with ("f"%char :: txt "rom"). cbn [strip_prefix].
  now rewrite (space_not_f c H), (space_not_semicolon c H).
Qed.

Lemma first_from_blanks (t : text) :
  first_from (dropwhile is_space t) = first_from t.
Proof.
  induction t as [|c t IH]; [reflexivity|]. cbn [dropwhile].
  destruct (is_space c) eqn:E; [|reflexivity].
  now rewrite (first_from_skip c t E).
Qed.

(** The cuts of the export pattern: the word, a blank, and the first
    clause of the static pattern that no semicolon separates from
    them. *)
Lemma cuts_export (s : text) :
  cuts EXPORT_FROM_RE s
  = match strip_prefix (txt "export") s with
    | Some (c :: t) => if is_space c then first_from t else None
    | _ => None
    end.
Proof.
  unfold cuts. cbn [g1 g2 g3 EXPORT_FROM_RE exec].
  destruct (strip_prefix (txt "export") s) as [t|]; [|reflexivity].
  rewrite (exec_rep_ext is_space true t _ first_from)
    by (intros u; apply exec_lazy_first_from).
  rewrite exec_rep_plus. destruct t as [|c t]; [reflexivity|].
  destruct (is_space c); [|reflexivity].
  rewrite (exec_rep_greedy_skip is_space first_from t first_from_skip).
  apply first_from_blanks.
Qed.

Lemma first_from_iff (t : text) (c3 : text * text * text) :
  first_from t = Some c3
  <-> exists m v,
        t = m ++ v /\ forallb not_semicolon m = true
        /\ cuts STATIC_IMPORT_RE v = Some c3
        /\ forall m1 x m2,
             m = m1 ++ x :: m2 ->
             cuts STATIC_IMPORT_RE (x :: m2 ++ v) = None.
Proof.
  split.
  - induction t as [|c t IH]; rewrite first_from_eq; intros H.
    + destruct (cuts STATIC_IMPORT_RE []) eqn:E; [|discriminate].
      exists [], []. repeat split; [congruence|].
      intros m1 x m2 Hm. now destruct m1.
    + destruct (cuts STATIC_IMPORT_RE (c :: t)) eqn:E.
      * exists [], (c :: t). repeat split; [congruence|].
        intros m1 x m2 Hm. now destruct m1.
      * destruct (not_semicolon c) eqn:Ec; [|discriminate].
        destruct (IH H) as (m & v & -> & Hm & Hv & Hmin).
        exists (c :: m), v. cbn [forallb]. rewrite Ec.
        repeat split; auto.
        intros m1 x m2 Em. destruct m1 as [|y m1].
        -- injection Em as <- <-. exact E.
        -- injection Em as <- Em. exact (Hmin _ _ _ Em).
  - intros (m & v & -> & Hm & Hv & Hmin). induction m as [|c m IH];
      rewrite first_from_eq.
    + cbn [app]. now rewrite Hv.
    + cbn [app]. rewrite (Hmin [] c m eq_refl).
      cbn [forallb] in Hm. apply andb_prop in Hm as [-> Hm].
      apply IH; [assumption|].
      intros m1 x m2 Em. apply (Hmin (c :: m1) x m2). now rewrite Em.
Qed.

Lemma match_at_None (pat : pattern) (s : text) :
  match_at pat s = None <-> cuts pat s = None.
Proof.
  unfold match_at. destruct (cuts pat s) as [[[s1 s2] s3]|]; split;
    intros H; try discriminate; reflexivity.
Qed.

(** A match of the export pattern: the word, a blank, a stretch without
    a semicolon, and the first match of the static pattern after it. *)
Lemma match_export_iff (u prefix spec suffix rest : text) :
  match_at EXPORT_FROM_RE u = Some (prefix, spec, suffix, rest)
  <-> exists c m v prefix',
        u = txt "export" ++ c :: m ++ v
        /\ is_space c = true
        /\ forallb not_semicolon m = true
        /\ prefix = txt "export" ++ c :: m ++ prefix'
        /\ match_at STATIC_IMPORT_RE v = Some (prefix', spec, suffix, rest)
        /\ forall m1 x m2,
             m = m1 ++ x :: m2 ->
             match_at STATIC_IMPORT_RE (x :: m2 ++ v) = None.
Proof.
  split.
  - intros H.
    assert (exists c3, cuts EXPORT_FROM_RE u = Some c3) as [[[s1 s2] s3] Ec].
    { unfold match_at in H. destruct (cuts _ u); [eauto|discriminate]. }
    pose proof Ec as Ec'. rewrite cuts_export in Ec'.
    destruct (strip_prefix (txt "export") u) as [[|c t]|] eqn:EP;
      try discriminate.
    apply strip_prefix_Some in EP.
    destruct (is_space c) eqn:Hc; [|discriminate].
    apply first_from_iff in Ec' as (m & v & -> & Hm & Es & Hmin).
    destruct (cuts_inv _ _ _ static_literal_first _ _ _ _ Es)
      as (ws & q0 & sp & q1 & -> & -> & -> & Hws & Hlo & Hq0 & Hq1 & Hok).
    set (pre' := txt "from" ++ ws ++ [q0]) in *.
    assert (u = (txt "export" ++ c :: m ++ pre') ++ sp ++ q1 :: s3) as Eu.
    { subst u. rewrite <- !app_assoc. cbn [app]. now rewrite <- !app_assoc. }
    rewrite Eu in H, Ec. rewrite (match_at_of_cuts _ _ _ _ _ Ec) in H.
    injection H as <- <- <- <-.
    exists c, m, (pre' ++ sp ++ q1 :: s3), pre'. repeat split; auto.
    + now apply match_at_of_cuts.
    + intros m1 x m2 Em. apply match_at_None. exact (Hmin _ _ _ Em).
  - intros (c & m & v & pre' & -> & Hc & Hm & -> & Hs & Hmin).
    apply match_static_iff in Hs
      as (ws & q0 & q1 & -> & -> & -> & Hws & Hlo & Hq0 & Hq1 & Hok).
    cbn [app].
    set (pre' := txt "from" ++ ws ++ [q0]).
    set (v := pre' ++ spec ++ q1 :: rest) in *.
    assert (cuts STATIC_IMPORT_RE v
            = Some (spec ++ q1 :: rest, q1 :: rest, rest)) as Es.
    { rewrite static_literal_first. unfold v, pre'.
      rewrite <- !app_assoc, strip_prefix_app.
      apply blanks_quote_iff. exists ws, q0, (spec ++ q1 :: rest).
      repeat split; auto. apply quoted_spec_iff. exists spec, q1.
      repeat split; auto. }
    replace (txt "export" ++ c :: m ++ v)
      with ((txt "export" ++ c :: m ++ pre') ++ spec ++ q1 :: rest)
      by (unfold v; rewrite <- !app_assoc; cbn [app];
          now rewrite <- !app_assoc).
    apply match_at_of_cuts. rewrite cuts_export.
    rewrite <- !app_assoc, strip_prefix_app. cbn [app]. rewrite Hc.
    rewrite <- !app_assoc. fold v.
    apply first_from_iff. exists m, v. repeat split; auto.
    intros m1 x m2 Em. apply match_at_None. exact (Hmin _ _ _ Em).
Qed.

(** ** The export pass on a tidy text *)

(** After the static and the dynamic pass over a tidy text nothing is
    left that the export pattern captures and the resolver would
    change. *)
Lemma two_passes_settle (fs : node) (file_path : path) (T : text)
    (o1 o2 : text * bool) :
  tidy T = true ->
  re_sub fs file_path STATIC_IMPORT_RE T false = Ok o1 ->
  re_sub fs file_path DYNAMIC_IMPORT_RE (fst o1) (snd o1) = Ok o2 ->
  settled fs file_path EXPORT_FROM_RE (fst o2).
Proof.
  intros Htidy E1 E2.
  assert (In STATIC_IMPORT_RE REGEXES) as HS by (cbn; auto).
  assert (In DYNAMIC_IMPORT_RE REGEXES) as HD by (cbn; auto).
  pose proof (pass_rewrites fs file_path _ HD _ _ _ _ (le_n _) E2) as Rw2.
  assert (settled fs file_path STATIC_IMPORT_RE (fst o1)) as S1.
  { apply (pass_settles fs file_path STATIC_IMPORT_RE (txt "from") 1 HS
             static_literal_first eq_refl ltac:(discriminate)
             static_prefix_end _ T false o1 (le_n _)); [|exact E1].
    intros s Hs. apply (tidy_cand T Htidy). now left. }
  apply settled_export. intros s Hs.
  destruct (cand_back fs file_path STATIC_IMPORT_RE (txt "from") 1
              static_literal_first eq_refl ltac:(discriminate)
              static_prefix_end _ _ Rw2 s Hs) as [H0 | (s0 & _ & Hr)].
  - now apply S1.
  - apply (resolve_twice _ _ _ _ _ _ Hr).
Qed.

Lemma export_pass_idle (fs : node) (content : text) (file_path : path) :
  tidy content = true ->
  update_specifiers fs content file_path
  = sub_each fs file_path [STATIC_IMPORT_RE; DYNAMIC_IMPORT_RE] content false.
Proof.
  intros Htidy. unfold update_specifiers, REGEXES. cbn [sub_each].
  destruct (re_sub fs file_path STATIC_IMPORT_RE content false)
    as [o1|] eqn:E1; [|reflexivity].
  cbn [bind].
  destruct (re_sub fs file_path DYNAMIC_IMPORT_RE (fst o1) (snd o1))
    as [o2|] eqn:E2; [|reflexivity].
  cbn [bind].
  assert (In EXPORT_FROM_RE REGEXES) as HE by (cbn; auto).
  rewrite (settled_fixpoint fs file_path _ HE _ _ _ (le_n _)
             (two_passes_settle fs file_path content o1 o2 Htidy E1 E2)).
  cbn [bind fst snd]. now destruct o2.
Qed.

(** * Further properties of the script *)

(** ** Specifier Resolver *)

(** X1: the resolver raises [ValueError] exactly when the specifier
    passes both guards and either some part of the path it names holds
    a NUL character, where [Path.resolve] raises, or the path resolves
    to the root, where [with_suffix] raises. *)
Theorem X1_resolver_value_error_iff
  (fs : node) (file_path : path) (spec : text) :
  resolve_relative_spec fs file_path spec = Raise ValueError
  <-> runtime_ext spec = false
      /\ contains "." (last_segment spec) = false
      /\ (embedded_null (joinpath (parent file_path) spec) = true
          \/ target_of file_path spec = []).
Proof.
  split.
  - intros H. now apply resolve_raises_inv in H as (_ & H).
  - intros (Hg & Hdot & Hc).
    destruct (embedded_null (joinpath (parent file_path) spec)) eqn:En.
    + now apply resolve_raises_nul.
    + destruct Hc as [Hc | Hc]; [discriminate|].
      now apply resolve_raises_root.
Qed.

(** X2: the resolver and the rewriter read no file but ask only which
    files and directories there are: on two trees of the same shape they
    give the same answers. *)
Theorem X2_answers_depend_on_shape (fs fs' : node) :
  shape fs' = shape fs ->
  (forall file_path spec,
     resolve_relative_spec fs' file_path spec
     = resolve_relative_spec fs file_path spec)
  /\ (forall content file_path,
        update_specifiers fs' content file_path
        = update_specifiers fs content file_path).
Proof.
  intros Hs.
  assert (forall p, kind_at fs' p = kind_at fs p) as Hk
      by (intros p; now apply same_shape_kinds).
  split.
  - intros file_path spec. exact (resolve_same fs fs' Hk file_path spec).
  - intros content file_path. exact (update_same fs fs' Hk content file_path).
Qed.

Lemma X2_answers_depend_on_shape_witness :
  update_specifiers tree_with_source_done
    (txt "import { b } from './bar';") (at_ "/a/foo.ts")
  = update_specifiers tree_with_source
      (txt "import { b } from './bar';") (at_ "/a/foo.ts").
Proof.
  apply (proj2 (X2_answers_depend_on_shape tree_with_source
                  tree_with_source_done eq_refl)).
Defined.

(** ** Import Rewriter *)

(** X3: the flag the rewriter returns is set exactly when the text it
    returns is not the text it was given. *)
Theorem X3_flag_iff_text_differs
  (fs : node) (file_path : path) (content out : text) (changed : bool) :
  update_specifiers fs content file_path = Ok (out, changed) ->
  (changed = true <-> out <> content).
Proof. apply update_flag_text. Qed.

Lemma X3_flag_iff_text_differs_witness :
  true = true
  <-> txt "import { b } from './bar.js';" <> txt "import { b } from './bar';".
Proof.
  apply (X3_flag_iff_text_differs tree_with_source (at_ "/a/foo.ts")).
  vm_compute. reflexivity.
Defined.

(** X4: when the rewriter raises [ValueError], one of the specifiers
    it handed to the resolver passes both guards and either holds, with
    the directory of the file, a NUL character or resolves to the
    root. *)
Theorem X4_rewriter_value_error
  (fs : node) (content : text) (file_path : path) :
  update_specifiers fs content file_path = Raise ValueError ->
  exists spec,
    In spec (resolver_calls fs file_path REGEXES content)
    /\ runtime_ext spec = false
    /\ contains "." (last_segment spec) = false
    /\ (embedded_null (joinpath (parent file_path) spec) = true
        \/ target_of file_path spec = []).
Proof.
  intros H. apply update_raises in H as (spec & Hin & Hr).
  exists spec. split; [assumption|].
  now apply resolve_raises_inv in Hr as (_ & Hr).
Qed.

Lemma X4_rewriter_value_error_witness :
  exists spec,
    In spec (resolver_calls tree_root_import (at_ "/proj/server/a.ts")
               REGEXES (txt "import r from '/'"))
    /\ runtime_ext spec = false
    /\ contains "." (last_segment spec) = false
    /\ (embedded_null (joinpath (parent (at_ "/proj/server/a.ts")) spec)
        = true
        \/ target_of (at_ "/proj/server/a.ts") spec = []).
Proof.
  apply (X4_rewriter_value_error tree_root_import
           (txt "import r from '/'") (at_ "/proj/server/a.ts")).
  vm_compute. reflexivity.
Defined.

(** X5: a text that holds no quote, the empty text for one, comes back
    as it is with the flag not set, whatever the tree: the rewriter
    cannot raise on it. *)
Theorem X5_text_without_quote_unchanged
  (fs : node) (content : text) (file_path : path) :
  forallb not_quote content = true ->
  update_specifiers fs content file_path = Ok (content, false).
Proof.
  intros H. unfold update_specifiers, REGEXES. cbn [sub_each].
  rewrite (re_sub_no_quote fs file_path STATIC_IMPORT_RE content false);
    [|cbn; auto|assumption].
  cbn [bind fst snd].
  rewrite (re_sub_no_quote fs file_path DYNAMIC_IMPORT_RE content false);
    [|cbn; auto|assumption].
  cbn [bind fst snd].
  rewrite (re_sub_no_quote fs file_path EXPORT_FROM_RE content false);
    [|cbn; auto|assumption].
  reflexivity.
Qed.

Lemma X5_text_without_quote_unchanged_witness :
  update_specifiers tree_root_import (txt "export const b = import(x);")
    (at_ "/proj/server/a.ts")
  = Ok (txt "export const b = import(x);", false).
Proof.
  apply (X5_text_without_quote_unchanged tree_root_import
           (txt "export const b = import(x);") (at_ "/proj/server/a.ts")).
  reflexivity.
Defined.

(** X6: what the static pattern matches at the start of a text: the
    word [from], one or more blanks, a quote, then a specifier that
    begins with a dot or a slash and runs up to the next quote, which
    closes it and need not be the quote that opened it. *)
Theorem X6_static_pattern_matches (u prefix spec suffix rest : text) :
  match_at STATIC_IMPORT_RE u = Some (prefix, spec, suffix, rest)
  <-> exists ws q0 q1,
        prefix = txt "from" ++ ws ++ [q0] /\ suffix = [q1]
        /\ u = prefix ++ spec ++ suffix ++ rest
        /\ forallb is_space ws = true /\ 1 <= length ws
        /\ is_quote q0 = true /\ is_quote q1 = true
        /\ spec_ok spec = true.
Proof. apply match_static_iff. Qed.

(** X7: what the dynamic pattern matches at the start of a text: the
    word [import], an opening parenthesis, blanks or none, a quote, then
    a specifier that begins with a dot or a slash and runs up to the
    next quote of either kind. *)
Theorem X7_dynamic_pattern_matches (u prefix spec suffix rest : text) :
  match_at DYNAMIC_IMPORT_RE u = Some (prefix, spec, suffix, rest)
  <-> exists ws q0 q1,
        prefix = txt "import(" ++ ws ++ [q0] /\ suffix = [q1]
        /\ u = prefix ++ spec ++ suffix ++ rest
        /\ forallb is_space ws = true /\ 0 <= length ws
        /\ is_quote q0 = true /\ is_quote q1 = true
        /\ spec_ok spec = true.
Proof. apply match_dynamic_iff. Qed.

(** X8: what the export pattern matches at the start of a text: the
    word [export], a blank, a stretch that holds no semicolon, and then
    a match of the static pattern, the first one the stretch allows; the
    specifier, the closing quote and the text left over are those of
    that match. *)
Theorem X8_export_pattern_matches (u prefix spec suffix rest : text) :
  match_at EXPORT_FROM_RE u = Some (prefix, spec, suffix, rest)
  <-> exists c m v prefix',
        u = txt "export" ++ c :: m ++ v
        /\ is_space c = true
        /\ forallb not_semicolon m = true
        /\ prefix = txt "export" ++ c :: m ++ prefix'
        /\ match_at STATIC_IMPORT_RE v = Some (prefix', spec, suffix, rest)
        /\ forall m1 x m2,
             m = m1 ++ x :: m2 ->
             match_at STATIC_IMPORT_RE (x :: m2 ++ v) = None.
Proof. apply match_export_iff. Qed.

(** X9: on a tidy text the third pass does nothing: the rewriter
    returns, or raises, what the static pass followed by the dynamic
    pass does. *)
Theorem X9_export_pass_idle_on_tidy_text
  (fs : node) (content : text) (file_path : path) :
  tidy content = true ->
  update_specifiers fs content file_path
  = sub_each fs file_path [STATIC_IMPORT_RE; DYNAMIC_IMPORT_RE] content false.
Proof. apply export_pass_idle. Qed.

Lemma X9_export_pass_idle_on_tidy_text_witness :
  update_specifiers tree_with_source (txt "export { b } from './bar';")
    (at_ "/a/foo.ts")
  = sub_each tree_with_source (at_ "/a/foo.ts")
      [STATIC_IMPORT_RE; DYNAMIC_IMPORT_RE]
      (txt "export { b } from './bar';") false.
Proof.
  apply (X9_export_pass_idle_on_tidy_text tree_with_source
           (txt "export { b } from './bar';") (at_ "/a/foo.ts")).
  vm_compute. reflexivity.
Defined.

(** ** Tree Walker: one file *)

(** X10: [process_file] raises [IsADirectoryError] only for a
    directory; and once the text of the file has been read, it raises
    [ValueError] only when a specifier captured in that text makes the
    resolver raise it: writing back what was read adds no failure of
    that kind. *)
Theorem X10_process_file_raises (fs : node) (p : path) :
  (process_file fs p = Raise IsADirectoryError -> is_dir fs p = true)
  /\ (forall content,
        read_text fs p = Ok content ->
        process_file fs p = Raise ValueError ->
        exists spec,
          In spec (resolver_calls fs p REGEXES content)
          /\ resolve_relative_spec fs p spec = Raise ValueError).
Proof.
  split.
  - intros H. destruct (process_raises fs p _ H) as [Hr | (c & Hr & Hu)].
    + destruct (read_text_raises fs p _ Hr) as [[E _] | [_ Hd]];
        [discriminate|assumption].
    + now destruct (update_raises _ _ _ _ Hu)
        as (s & _ & (E & _)%resolve_raises_inv).
  - intros content Hr H.
    destruct (process_raises fs p _ H) as [Hr' | (c & Hr' & Hu)];
      [congruence|].
    rewrite Hr in Hr'. injection Hr' as <-.
    exact (update_raises _ _ _ _ Hu).
Qed.

Lemma X10_process_file_raises_witness :
  exists spec,
    In spec (resolver_calls tree_root_import (at_ "/proj/server/a.ts")
               REGEXES (txt "import r from '/'"))
    /\ resolve_relative_spec tree_root_import (at_ "/proj/server/a.ts") spec
       = Raise ValueError.
Proof.
  apply (proj2 (X10_process_file_raises tree_root_import
                  (at_ "/proj/server/a.ts"))
           (txt "import r from '/'")).
  - reflexivity.
  - vm_compute. reflexivity.
Defined.

(** X11: processing a file creates, removes and renames nothing: the
    tree keeps its shape, so the rewriter answers for every text and
    every file as it did before. *)
Theorem X11_process_file_keeps_shape
  (fs fs' : node) (p : path) (changed : bool) :
  process_file fs p = Ok (fs', changed) ->
  shape fs' = shape fs
  /\ forall content file_path,
       update_specifiers fs' content file_path
       = update_specifiers fs content file_path.
Proof.
  intros H. pose proof (process_shape _ _ _ _ H) as Hs. split; [exact Hs|].
  intros content file_path. apply update_same. intros q.
  now apply same_shape_kinds.
Qed.

Lemma X11_process_file_keeps_shape_witness :
  shape tree_with_source_done = shape tree_with_source
  /\ forall content file_path,
       update_specifiers tree_with_source_done content file_path
       = update_specifiers tree_with_source content file_path.
Proof.
  apply (X11_process_file_keeps_shape tree_with_source tree_with_source_done
           (at_ "/a/foo.ts") true).
  vm_compute. reflexivity.
Defined.

(** ** Tree Walker: the run *)

(** X12: a run is one pass of [process_file] over the paths listed in
    the tree it starts from; in a well-formed tree these are, each once,
    the paths that exist below one of the five directories under a name
    that ends in [.ts]. *)
Theorem X12_main_visits (ROOT : path) (fs : node) :
  well_formed fs = true ->
  main ROOT fs = walk fs (all_paths ROOT fs) 0 0
  /\ NoDup (all_paths ROOT fs)
  /\ forall p,
       In p (all_paths ROOT fs)
       <-> exists directory mid x,
             In directory DIRECTORIES
             /\ p = ROOT ++ [directory] ++ mid ++ [x]
             /\ endswith x (txt ".ts") = true
             /\ exists_ fs p = true.
Proof.
  intros Hwf. split; [apply main_as_walk|].
  split; [apply all_paths_NoDup|].
  intros p. unfold all_paths. rewrite in_flat_map. split.
  - intros (d & Hd & Hp). pose proof (rglob_exists _ _ _ Hwf Hp) as Hex.
    apply rglob_In in Hp as (mid & x & -> & Hx).
    exists d, mid, x. rewrite <- app_assoc in *. auto.
  - intros (d & mid & x & Hd & -> & Hx & Hex). exists d. split; [assumption|].
    rewrite app_assoc in *. now apply rglob_complete.
Qed.

Lemma X12_main_visits_witness :
  main (at_ "/repo") tree_project
  = walk tree_project (all_paths (at_ "/repo") tree_project) 0 0
  /\ NoDup (all_paths (at_ "/repo") tree_project)
  /\ forall p,
       In p (all_paths (at_ "/repo") tree_project)
       <-> exists directory mid x,
             In directory DIRECTORIES
             /\ p = at_ "/repo" ++ [directory] ++ mid ++ [x]
             /\ endswith x (txt ".ts") = true
             /\ exists_ tree_project p = true.
Proof.
  apply (X12_main_visits (at_ "/repo") tree_project). reflexivity.
Defined.

(** X14: the two numbers a run prints: the first counts the listed
    paths, the second those of them whose file holds another text after
    the run than before; the second is at most the first. *)
Theorem X14_main_counts
  (ROOT : path) (fs fs' : node) (total_files changed_files : nat) :
  main ROOT fs = Ok (fs', (total_files, changed_files)) ->
  total_files = length (all_paths ROOT fs)
  /\ changed_files = length (filter (changed_at fs fs') (all_paths ROOT fs))
  /\ changed_files <= total_files.
Proof.
  rewrite main_as_walk. intros H.
  destruct (walk_result _ _ _ _ _ _ _ (all_paths_NoDup ROOT fs) H)
    as (_ & Ht & Hc & _ & _).
  cbn [Nat.add] in Ht, Hc. subst. repeat split. apply filter_length_le.
Qed.

Lemma X14_main_counts_witness :
  3 = length (all_paths (at_ "/repo") tree_project)
  /\ 2 = length (filter (changed_at tree_project tree_project_done)
                   (all_paths (at_ "/repo") tree_project))
  /\ 2 <= 3.
Proof.
  apply (X14_main_counts (at_ "/repo") tree_project tree_project_done 3 2).
  vm_compute. reflexivity.
Defined.

(** X15: after a run the tree has the shape it had; a path that was not
    listed reads as before; and every listed file holds what the
    rewriter returns for the text it held, computed in the tree the run
    started from: the order of the files does not matter. *)
Theorem X15_main_rewrites_each_file
  (ROOT : path) (fs fs' : node) (total_files changed_files : nat) :
  main ROOT fs = Ok (fs', (total_files, changed_files)) ->
  shape fs' = shape fs
  /\ (forall p, ~ In p (all_paths ROOT fs) ->
        read_text fs' p = read_text fs p)
  /\ (forall p, In p (all_paths ROOT fs) ->
        exists content out flag,
          read_text fs p = Ok content
          /\ update_specifiers fs content p = Ok (out, flag)
          /\ read_text fs' p = Ok out).
Proof.
  rewrite main_as_walk. intros H.
  destruct (walk_result _ _ _ _ _ _ _ (all_paths_NoDup ROOT fs) H)
    as (Hs & _ & _ & Hout & Hin).
  auto.
Qed.

Lemma X15_main_rewrites_each_file_witness :
  shape tree_project_done = shape tree_project
  /\ (forall p, ~ In p (all_paths (at_ "/repo") tree_project) ->
        read_text tree_project_done p = read_text tree_project p)
  /\ (forall p, In p (all_paths (at_ "/repo") tree_project) ->
        exists content out flag,
          read_text tree_project p = Ok content
          /\ update_specifiers tree_project content p = Ok (out, flag)
          /\ read_text tree_project_done p = Ok out).
Proof.
  apply (X15_main_rewrites_each_file (at_ "/repo") tree_project
           tree_project_done 3 2).
  vm_compute. reflexivity.
Defined.

(** X16: a run that ends in [IsADirectoryError] met a listed path that
    is a directory; a run that ends in [ValueError] met a listed file
    on whose text, as it was before the run, the rewriter raises it in
    the tree the run started from. *)
Theorem X16_main_raises (ROOT : path) (fs : node) :
  (main ROOT fs = Raise IsADirectoryError ->
   exists p, In p (all_paths ROOT fs) /\ is_dir fs p = true)
  /\ (main ROOT fs = Raise ValueError ->
      exists p content,
        In p (all_paths ROOT fs)
        /\ read_text fs p = Ok content
        /\ update_specifiers fs content p = Raise ValueError).
Proof.
  rewrite main_as_walk. split; intros H;
    destruct (walk_raises _ _ _ _ _ (all_paths_NoDup ROOT fs) H)
      as (p & Hp & [Hr | (content & Hr & Hu)]).
  - destruct (read_text_raises fs p _ Hr) as [[E _] | [_ Hd]];
      [discriminate|eauto].
  - now destruct (update_raises _ _ _ _ Hu)
      as (s & _ & (E & _)%resolve_raises_inv).
  - destruct (read_text_raises fs p _ Hr) as [[E _] | [E _]]; discriminate.
  - eauto.
Qed.

Lemma X16_main_raises_witness :
  exists p,
    In p (all_paths (at_ "/repo") tree_dir_named_ts)
    /\ is_dir tree_dir_named_ts p = true.
Proof.
  apply (proj1 (X16_main_raises (at_ "/repo") tree_dir_named_ts)).
  vm_compute. reflexivity.
Defined.

(** X17: a directory whose name ends in [.ts] below one of the five
    directories is listed like a file, and the run does not survive it:
    it ends in an exception. *)
Theorem X17_directory_named_ts_stops_main (ROOT : path) (fs : node) :
  existsb (is_dir fs) (all_paths ROOT fs) = true ->
  exists e, main ROOT fs = Raise e.
Proof.
  intros H. apply existsb_exists in H as (p & Hp & Hd).
  destruct (main ROOT fs) as [[fs' [t c]]|e] eqn:E; [|eauto]. exfalso.
  rewrite main_as_walk in E.
  destruct (walk_result _ _ _ _ _ _ _ (all_paths_NoDup ROOT fs) E)
    as (_ & _ & _ & _ & Hin).
  destruct (Hin p Hp) as (content & _ & _ & Hr & _).
  unfold is_dir, read_text in *.
  destruct (lookup fs p) as [[|]|]; discriminate.
Qed.

Lemma X17_directory_named_ts_stops_main_witness :
  exists e, main (at_ "/repo") tree_dir_named_ts = Raise e.
Proof.
  apply (X17_directory_named_ts_stops_main (at_ "/repo") tree_dir_named_ts).
  reflexivity.
Defined.

(** X18: when every listed file holds a tidy text, a second run over
    the tree the first one left lists the same number of files, changes
    none and leaves the tree as it is. *)
Theorem X18_second_run_of_main
  (ROOT : path) (fs fs' : node) (total_files changed_files : nat) :
  all_tidy fs (all_paths ROOT fs) = true ->
  main ROOT fs = Ok (fs', (total_files, changed_files)) ->
  main ROOT fs' = Ok (fs', (total_files, 0)).
Proof.
  intros Htidy H. rewrite main_as_walk in *.
  destruct (walk_result _ _ _ _ _ _ _ (all_paths_NoDup ROOT fs) H)
    as (Hs & Ht & _ & _ & Hin).
  rewrite (all_paths_shape ROOT fs fs' Hs).
  cbn [Nat.add] in Ht. subst total_files.
  apply (walk_fixed (all_paths ROOT fs) fs' 0 0).
  intros p Hp. destruct (Hin p Hp) as (content & out & flag & Hr & Hu & Hr').
  exists out. split; [assumption|].
  unfold all_tidy in Htidy. rewrite forallb_forall in Htidy.
  specialize (Htidy p Hp). rewrite Hr in Htidy.
  rewrite (update_same fs fs'
             (fun q => same_shape_kinds fs fs' q Hs) out p).
  exact (second_run_fixpoint fs p content out flag Htidy Hu).
Qed.

Lemma X18_second_run_of_main_witness :
  main (at_ "/repo") tree_project_done = Ok (tree_project_done, (3, 0)).
Proof.
  apply (X18_second_run_of_main (at_ "/repo") tree_project
           tree_project_done 3 2).
  - vm_compute. reflexivity.
  - vm_compute. reflexivity.
Defined.

(** X19: when none of the five names is a directory below the root, one
    that names a file included, a run touches nothing and counts no
    file. *)
Theorem X19_no_directory_no_work (ROOT : path) (fs : node) :
  none_present ROOT fs = true ->
  main ROOT fs = Ok (fs, (0, 0)).
Proof.
  intros H. rewrite main_as_walk.
  assert (all_paths ROOT fs = []) as ->; [|reflexivity].
  unfold all_paths, none_present in *. revert H.
  generalize DIRECTORIES as dirs.
  induction dirs as [|d r IH]; [reflexivity|].
  cbn [forallb flat_map]. intros H. apply andb_prop in H as [Hd Hr].
  rewrite rglob_absent; [now apply IH|].
  now destruct (is_dir fs (ROOT ++ [d])).
Qed.

Lemma X19_no_directory_no_work_witness :
  main (at_ "/repo") tree_no_dirs = Ok (tree_no_dirs, (0, 0)).
Proof.
  apply (X19_no_directory_no_work (at_ "/repo") tree_no_dirs). reflexivity.
Defined.

(** X20: a file whose text is tidy is written at most once: processing
    it again, in the tree the first processing left, changes nothing and
    reports no change. *)
Theorem X20_process_file_twice
  (fs fs' : node) (p : path) (content : text) (changed : bool) :
  read_text fs p = Ok content ->
  tidy content = true ->
  process_file fs p = Ok (fs', changed) ->
  process_file fs' p = Ok (fs', false).
Proof.
  intros Hr Htidy H.
  destruct (process_elsewhere _ _ _ _ H) as [Hk _].
  destruct (process_result _ _ _ _ H) as (c0 & out & Hr0 & Hu & Hr').
  rewrite Hr in Hr0. injection Hr0 as <-.
  unfold process_file. rewrite Hr'. cbn [bind].
  rewrite (update_same fs fs' Hk out p).
  rewrite (second_run_fixpoint fs p content out changed Htidy Hu).
  reflexivity.
Qed.

Lemma X20_process_file_twice_witness :
  process_file tree_with_source_done (at_ "/a/foo.ts")
  = Ok (tree_with_source_done, false).
Proof.
  apply (X20_process_file_twice tree_with_source tree_with_source_done
           (at_ "/a/foo.ts") (txt "import { b } from './bar';") true).
  - reflexivity.
  - vm_compute. reflexivity.
  - vm_compute. reflexivity.
Defined.

(** X21: a run changes no path but those below one of the five
    directories whose name ends in [.ts]: a file named [*.tsx], or one
    in another directory, reads after the run as it did before. *)
Theorem X21_main_touches_only_ts
  (ROOT : path) (fs fs' : node) (total_files changed_files : nat) (p : path) :
  main ROOT fs = Ok (fs', (total_files, changed_files)) ->
  read_text fs' p <> read_text fs p ->
  exists directory mid x,
    In directory DIRECTORIES
    /\ p = ROOT ++ [directory] ++ mid ++ [x]
    /\ endswith x (txt ".ts") = true.
Proof.
  rewrite main_as_walk. intros H Hne.
  destruct (walk_result _ _ _ _ _ _ _ (all_paths_NoDup ROOT fs) H)
    as (_ & _ & _ & Hout & _).
  destruct (in_dec path_eq_dec p (all_paths ROOT fs)) as [Hin | Hnin].
  - unfold all_paths in Hin. apply in_flat_map in Hin as (d & Hd & Hp).
    apply rglob_In in Hp as (mid & x & -> & Hx).
    exists d, mid, x. rewrite <- app_assoc. auto.
  - now destruct (Hne (Hout p Hnin)).
Qed.

Lemma X21_main_touches_only_ts_witness :
  exists directory mid x,
    In directory DIRECTORIES
    /\ at_ "/repo/client/main.ts" = at_ "/repo" ++ [directory] ++ mid ++ [x]
    /\ endswith x (txt ".ts") = true.
Proof.
  apply (X21_main_touches_only_ts (at_ "/repo") tree_project
           tree_project_done 3 2 (at_ "/repo/client/main.ts")).
  - vm_compute. reflexivity.
  - vm_compute. discriminate.
Defined.
